(** * kmd-idb: the promise adapter over IndexedDB

    A shallow embedding of [src/src/idb.service.ts] (class [IDBService]) and of
    the compiled [src/idb.service.js], an older build of it (module
    [Compiled]).

    The adapter is reactive code: every method issues calls on the browser's
    storage engine, installs event handlers on the objects the engine hands
    back, and settles a promise from inside those handlers.  The embedding
    keeps that structure:

    - the engine is the environment.  Its synchronous side is a [browser]
      (is [window.indexedDB] there, does a given call throw); its
      asynchronous side is the list of [event]s it fires, oldest first;
    - every call the adapter makes on the engine, on the client's callbacks or
      on the console is appended to a log of [action]s;
    - a promise is its settlement state, and settles once;
    - a method is the state machine its handlers form ([method]); promise
      reactions run as microtasks, that is to completion between two engine
      events, so the derived promises ([then], [Promise.all]) are brought up
      to date after every event. *)

From Stdlib Require Import ZArith List Bool Lia.
From stdpp Require Import base list strings.
Import ListNotations.

#[local] Set Warnings "-register-all".
Local Open Scope string_scope.
Local Open Scope list_scope.

(** ** Values, rejection reasons, promises *)

(** Database connections and engine [Event] objects are opaque to the adapter;
    the engine numbers them. *)
Definition handle := nat.
Definition event_id := nat.

(** What an engine call throws, by its string rendering. *)
Definition exn := string.

(** Stored records, keys and key ranges.  A record is [undefined], [null], a
    boolean, a number, a string or a plain object; a plain object is the list
    of its own properties, oldest first, a name being read at its first
    occurrence.  Its prototype is not part of it: the engine stores and
    returns own properties only.  Arrays and other exotic objects are not
    among the records.  Keys and key ranges are only handed on to the
    engine. *)
Inductive value : Type :=
| VUndefined
| VNull
| VBool (b : bool)
| VNum (n : Z)
| VStr (s : string)
| VObj (fields : list (string * value)).

(** [_.isUndefined] *)
Definition isUndefined (v : value) : bool :=
  match v with VUndefined => true | _ => false end.

(** What the promises of the adapter resolve with: a [T], or an array. *)
Inductive jsresult : Type :=
| JVal (v : value)
| JArr (items : list jsresult).

Definition array_of (vs : list value) : jsresult := JArr (map JVal vs).

(** What the promises of the adapter reject with. *)
Inductive reason : Type :=
| EngineEvent (evt : event_id)     (* reject(evt): the engine's event, as is *)
| EventError (evt : event_id)      (* reject(evt.error) *)
| AdapterError (msg : string)      (* Error(msg), new Error(msg) *)
| OpenFailure (text : string)      (* the string "ERROR: " + e *)
| Thrown (e : exn).                (* an exception thrown inside a promise callback *)

Inductive promise (A : Type) : Type :=
| Pending
| Resolved (a : A)
| Rejected (r : reason).
Arguments Pending {A}.
Arguments Resolved {A} a.
Arguments Rejected {A} r.

(** [resolve] and [reject] of a promise executor: only the first call counts. *)
Definition resolve {A} (a : A) (p : promise A) : promise A :=
  match p with Pending => Resolved a | _ => p end.

Definition reject {A} (r : reason) (p : promise A) : promise A :=
  match p with Pending => Rejected r | _ => p end.

(** A derived promise that is still pending takes the state its source has
    now; a settled one stays. *)
Definition follow {A} (derived now : promise A) : promise A :=
  match derived with Pending => now | _ => derived end.

Definition then_ {A B} (f : A -> B) (p : promise A) : promise B :=
  match p with
  | Pending => Pending
  | Resolved a => Resolved (f a)
  | Rejected r => Rejected r
  end.

(** [Promise.all] over an array of promises, read between two events: rejected
    as soon as one is, resolved with all the values once all are. *)
Fixpoint promise_all {A} (ps : list (promise A)) : promise (list A) :=
  match ps with
  | [] => Resolved []
  | p :: ps' =>
      match p, promise_all ps' with
      | Rejected r, _ => Rejected r
      | _, Rejected r => Rejected r
      | Resolved a, Resolved l => Resolved (a :: l)
      | _, _ => Pending
      end
  end.

(** [Promise.all([a, b])] *)
Definition promise_both {A B} (a : promise A) (b : promise B) : promise (A * B) :=
  match a, b with
  | Rejected r, _ => Rejected r
  | _, Rejected r => Rejected r
  | Resolved x, Resolved y => Resolved (x, y)
  | _, _ => Pending
  end.

Definition is_pending {A} (p : promise A) : bool :=
  match p with Pending => true | _ => false end.

Definition is_resolved {A} (p : promise A) : bool :=
  match p with Resolved _ => true | _ => false end.

(** ** The engine: calls, events, the browser *)

(** [stores: string | Array<string>] *)
Inductive scope : Type :=
| OneStore (s : string)
| StoreList (l : list string).

(** The directions the adapter asks for; [undefined] is [None]. *)
Inductive IDBCursorDirection : Type := next | prev.

(** Everything the adapter does to the outside, in the order it does it. *)
Inductive action : Type :=
| Open (name : string) (version : Z)          (* indexedDB.open(name, version) *)
| Close (db : handle)                         (* db.close() *)
| Transaction (db : handle) (stores : scope) (mode : string)
| ObjectStore (store : string)                (* trans.objectStore(store) *)
| Index (name : string)                       (* objectStore.index(name) *)
| Get (key : value)
| OpenCursor (range : value) (direction : option IDBCursorDirection)
| Continue                                    (* cursor.continue() *)
| Delete (range : value)
| Add (v : value)
| Put (v : value)
| Clear
| OnVersionChange (db : handle)               (* idbServiceConfig.onVersionChange(db) *)
| OnUpgradeNeeded (db : handle)               (* idbServiceConfig.onUpgradeNeeded(db) *)
| OnBlocked                                   (* the client's onBlocked() *)
| ConsoleError (evt : event_id).

(** The calls that create an [IDBRequest] inside a transaction. *)
Definition is_request (c : action) : bool :=
  match c with
  | Get _ | OpenCursor _ _ | Delete _ | Add _ | Put _ | Clear => true
  | _ => false
  end.

Definition is_open (c : action) : bool :=
  match c with Open _ _ => true | _ => false end.

Definition is_close (c : action) : bool :=
  match c with Close _ => true | _ => false end.

Definition is_transaction (c : action) : bool :=
  match c with Transaction _ _ _ => true | _ => false end.

(** The requests, transactions, opens and closes of a log, in order. *)
Definition requests (l : list action) : list action := List.filter is_request l.
Definition transactions (l : list action) : list action := List.filter is_transaction l.
Definition opens (l : list action) : list action := List.filter is_open l.
Definition closes (l : list action) : list action := List.filter is_close l.

(** What the engine fires.  Requests of one transaction are numbered in the
    order their calls were made, from 0.  A success on a cursor request
    carries a cursor on a record ([CursorAt]) or [null] ([CursorEnd]). *)
Inductive event : Type :=
| OpenError (evt : event_id)
| OpenSuccess (db : handle)
| OpenUpgradeNeeded (db : handle)
| OpenBlocked
| TxComplete
| TxError (evt : event_id)
| TxAbort
| ReqSuccess (req : nat) (result : value)
| CursorAt (req : nat) (v : value)
| CursorEnd (req : nat)
| ReqError (req : nat) (evt : event_id).

(** The synchronous side of the engine. *)
Record browser : Type := {
  indexedDB : bool;                                  (* window.indexedDB is there *)
  throws : list action -> action -> option exn       (* this call, after those, throws *)
}.

(** A browser with IndexedDB whose calls never throw. *)
Definition calm (w : browser) : Prop :=
  indexedDB w = true /\ forall l c, throws w l c = None.

Definition calm_browser : browser :=
  {| indexedDB := true; throws := fun _ _ => None |}.

(** ** Code that calls the engine: a log, and exceptions *)

Definition eng (A : Type) : Type := list action -> (exn + A) * list action.

Definition ret {A} (a : A) : eng A := fun l => (inr a, l).

Definition bind {A B} (m : eng A) (k : A -> eng B) : eng B :=
  fun l =>
    match m l with
    | (inl e, l') => (inl e, l')
    | (inr a, l') => k a l'
    end.

Notation "'let*' x ':=' m 'in' k" := (bind m (fun x => k))
  (at level 10, x name, m at level 100, k at level 200).
Notation "'exec' m 'in' k" := (bind m (fun _ => k))
  (at level 10, m at level 100, k at level 200).

(** One engine call. *)
Definition invoke (w : browser) (c : action) : eng unit :=
  fun l =>
    match throws w l c with
    | Some e => (inl e, l ++ [c])
    | None => (inr tt, l ++ [c])
    end.

(** One call per element, in order: [data.map(d => objectStore.add(d))]. *)
Fixpoint invoke_each (w : browser) (cs : list action) : eng unit :=
  match cs with
  | [] => ret tt
  | c :: cs' => exec invoke w c in invoke_each w cs'
  end.

(** ** The service *)

Record IDBServiceConfig : Type := {
  database : string;
  version : Z;
  onUpgradeNeeded : handle -> handle;
  onVersionChange : option (handle -> bool);
  onBlocked : option (unit -> unit)
}.

(** [this.onblocked]: [noop], or the function of the client. *)
Inductive blocked_callback : Type :=
| noop
| configured (f : unit -> unit).

Record IDBService : Type := {
  this_database : string;
  this_version : Z;
  onupgradeneeded : handle -> handle;
  onblocked : blocked_callback;
  _db : option handle;
  idbServiceConfig : IDBServiceConfig
}.

(** The constructor; it writes the default [onVersionChange] into the
    configuration object it keeps. *)
Definition constructor (cfg : IDBServiceConfig) : IDBService :=
  {| this_database := database cfg;
     this_version := version cfg;
     onupgradeneeded := onUpgradeNeeded cfg;
     onblocked := match onBlocked cfg with
                  | None => noop
                  | Some f => configured f
                  end;
     _db := None;
     idbServiceConfig :=
       {| database := database cfg;
          version := version cfg;
          onUpgradeNeeded := onUpgradeNeeded cfg;
          onVersionChange := match onVersionChange cfg with
                             | None => Some (fun _ => true)
                             | Some f => Some f
                             end;
          onBlocked := onBlocked cfg |} |}.

(** [function cast<T>(param: any): T] *)
Definition cast (param : value) : value := param.

(** *** [_init_] *)

(** The synchronous part: the promise [_init_] returns, before any event. *)
Definition _init_ (this : IDBService) (w : browser)
  : list action -> promise handle * list action :=
  fun l =>
    if negb (indexedDB w)
    then (Rejected (AdapterError "Browser kit does not support indexedDB"), l)
    else
      match invoke w (Open (this_database this) (this_version this)) l with
      | (inl e, l') => (Rejected (OpenFailure ("ERROR: " +:+ e)), l')
      | (inr _, l') => (Pending, l')
      end.

(** The four handlers [_init_] puts on the open request. *)
Definition request_onerror (evt : event_id) (p : promise handle) : promise handle :=
  reject (EngineEvent evt) p.

Definition request_onsuccess (db : handle) (p : promise handle) : promise handle :=
  resolve db p.

Definition request_onupgradeneeded (this : IDBService) (db : handle) : list action :=
  match onVersionChange (idbServiceConfig this) with
  | Some f =>
      OnVersionChange db :: (if f db then [OnUpgradeNeeded db] else [])
  | None => []   (* TypeError: not a function; the handler stops there *)
  end.

Definition request_onblocked (this : IDBService) : list action :=
  match onblocked this with
  | noop => []
  | configured _ => [OnBlocked]
  end.

(** What an event on the open request does to the promise of [_init_] and to
    the log. *)
Definition open_request_event (this : IDBService) (e : event)
    (p : promise handle) (l : list action) : promise handle * list action :=
  match e with
  | OpenError evt => (request_onerror evt p, l)
  | OpenSuccess db => (request_onsuccess db p, l)
  | OpenUpgradeNeeded db => (p, l ++ request_onupgradeneeded this db)
  | OpenBlocked => (p, l ++ request_onblocked this)
  | _ => (p, l)
  end.

(** *** [getTransaction] *)

Record IDBTransaction : Type := {
  tx_db : handle;
  tx_stores : scope;
  tx_mode : string
}.

(** [mode: string = "readonly"] *)
Definition mode_or_default (mode : option string) : string :=
  match mode with
  | Some m => m
  | None => "readonly"
  end.

(** The callback [db => db.transaction(stores, mode)]. *)
Definition getTransaction_then (w : browser) (stores : scope) (mode : option string)
    (db : handle) : eng IDBTransaction :=
  exec invoke w (Transaction db stores (mode_or_default mode)) in
  ret {| tx_db := db; tx_stores := stores; tx_mode := mode_or_default mode |}.

(** ** Methods as state machines *)

(** A public method, from the call of [getTransaction] on:
    - [precheck]: the checks on the arguments made before [getTransaction];
    - [stores], [mode]: what it passes to [getTransaction];
    - [body]: the callback [trans => ...], which calls the engine and installs
      the handlers;
    - [on_event]: those handlers, on the transaction and on its requests;
    - [settled]: the promise the callback returned, read off the state. *)
Record method : Type := {
  mstate : Type;
  precheck : option reason;
  stores : scope;
  mode : option string;
  body : browser -> IDBTransaction -> eng mstate;
  on_event : browser -> event -> mstate -> list action -> mstate * list action;
  settled : mstate -> promise jsresult
}.

(** Where a call of a method stands. *)
Inductive stage (B : Type) : Type :=
| Refused (r : reason)                   (* rejected at once; there is no open request *)
| Opening                                (* the open request is pending *)
| Failed (r : reason)                    (* rejected before the body could install handlers *)
| Running (tx : IDBTransaction) (b : B). (* the body ran; its handlers are in place *)
Arguments Refused {B} r.
Arguments Opening {B}.
Arguments Failed {B} r.
Arguments Running {B} tx b.

Record flight (B : Type) : Type := {
  this : IDBService;
  log : list action;
  at_stage : stage B
}.
Arguments this {B} f.
Arguments log {B} f.
Arguments at_stage {B} f.

(** The call itself: the prechecks, then [getTransaction], which calls [_init_]. *)
Definition start (svc : IDBService) (w : browser) (m : method) : flight (mstate m) :=
  match precheck m with
  | Some r => {| this := svc; log := []; at_stage := Refused r |}
  | None =>
      match _init_ svc w [] with
      | (Rejected r, l) => {| this := svc; log := l; at_stage := Refused r |}
      | (_, l) => {| this := svc; log := l; at_stage := Opening |}
      end
  end.

(** The reactions to [_init_] resolving with [db]: [getTransaction]'s callback,
    then the body of the method. *)
Definition on_connected (w : browser) (m : method) (db : handle)
    (l : list action) : stage (mstate m) * list action :=
  match getTransaction_then w (stores m) (mode m) db l with
  | (inl e, l1) => (Failed (Thrown e), l1)
  | (inr tx, l1) =>
      match body m w tx l1 with
      | (inl e, l2) => (Failed (Thrown e), l2)
      | (inr b, l2) => (Running tx b, l2)
      end
  end.

(** Events of the open request. *)
Definition on_open_request (e : event) : bool :=
  match e with
  | OpenError _ | OpenSuccess _ | OpenUpgradeNeeded _ | OpenBlocked => true
  | _ => false
  end.

(** One engine event.  An event of the open request goes to the handlers of
    [_init_], which are there as soon as the request is; when it resolves the
    promise of [_init_], the reactions run.  An event of the transaction or of
    one of its requests goes to the handlers of the method. *)
Definition step (w : browser) (m : method) (f : flight (mstate m)) (e : event)
  : flight (mstate m) :=
  if on_open_request e then
    match at_stage f with
    | Refused _ => f
    | Opening =>
        match open_request_event (this f) e Pending (log f) with
        | (Pending, l) => {| this := this f; log := l; at_stage := Opening |}
        | (Rejected r, l) => {| this := this f; log := l; at_stage := Failed r |}
        | (Resolved db, l) =>
            let (st, l') := on_connected w m db l in
            {| this := this f; log := l'; at_stage := st |}
        end
    | Failed r =>
        let (_, l) := open_request_event (this f) e (Rejected r) (log f) in
        {| this := this f; log := l; at_stage := Failed r |}
    | Running tx b =>
        let (_, l) := open_request_event (this f) e (Resolved (tx_db tx)) (log f) in
        {| this := this f; log := l; at_stage := Running tx b |}
    end
  else
    match at_stage f with
    | Running tx b =>
        let (b', l) := on_event m w e b (log f) in
        {| this := this f; log := l; at_stage := Running tx b' |}
    | _ => f
    end.

Definition run (svc : IDBService) (w : browser) (m : method) (tr : list event)
  : flight (mstate m) :=
  fold_left (step w m) tr (start svc w m).

(** The promise the method returned. *)
Definition outcome {m : method} (f : flight (mstate m)) : promise jsresult :=
  match at_stage f with
  | Refused r => Rejected r
  | Opening => Pending
  | Failed r => Rejected r
  | Running _ b => settled m b
  end.

(** ** The public methods *)

(** [_cast || cast], [_.isUndefined(_cast) ? cast : _cast] *)
Definition cast_or_default (_cast : option (value -> value)) : value -> value :=
  match _cast with
  | Some f => f
  | None => cast
  end.

(** [reverse: boolean = false], [allMatches: boolean = false] *)
Definition false_by_default (reverse : option bool) : bool :=
  match reverse with
  | Some b => b
  | None => false
  end.

(** *** [getObjectByKey] *)

Definition getObjectByKey (stores : scope) (store : string) (keyRange : value)
    (_cast : option (value -> value)) : method :=
  let fn := cast_or_default _cast in
  {| mstate := promise jsresult;
     precheck := None;
     stores := stores;
     mode := None;
     body := fun w _ =>
       exec invoke w (ObjectStore store) in
       exec invoke w (Get keyRange) in
       ret Pending;
     on_event := fun _ e p l =>
       match e with
       | ReqError 0 errorEvent => (reject (EngineEvent errorEvent) p, l)
       | ReqSuccess 0 result => (resolve (JVal (fn result)) p, l)
       | _ => (p, l)
       end;
     settled := fun p => p |}.

(** *** [getObjects] and [getObjectsByIndex]: a cursor loop *)

(** The array [res] and the promise that resolves with it.  The promise holds
    the array itself, so what it shows is the array as it is now. *)
Record cursor_state : Type := {
  res : list value;
  cursor_promise : promise unit
}.

Definition cursor_settled (s : cursor_state) : promise jsresult :=
  then_ (fun _ => array_of (res s)) (cursor_promise s).

(** The success handler of the cursor request. *)
Definition cursor_onsuccess (w : browser) (fn : value -> value)
    (cursor : option value) (s : cursor_state) (l : list action)
  : cursor_state * list action :=
  match cursor with
  | Some v =>
      ({| res := res s ++ [fn v]; cursor_promise := cursor_promise s |},
       snd (invoke w Continue l))
  | None =>
      ({| res := res s; cursor_promise := resolve tt (cursor_promise s) |}, l)
  end.

Definition cursor_reject (r : reason) (s : cursor_state) : cursor_state :=
  {| res := res s; cursor_promise := reject r (cursor_promise s) |}.

(** [reverse ? undefined : "prev"] *)
Definition getObjects_direction (reverse : bool) : option IDBCursorDirection :=
  if reverse then None else Some prev.

Definition getObjects (stores : scope) (store : string) (keyRange : value)
    (reverse : option bool) (_cast : option (value -> value)) : method :=
  let fn := cast_or_default _cast in
  {| mstate := cursor_state;
     precheck := None;
     stores := stores;
     mode := None;
     body := fun w _ =>
       exec invoke w (ObjectStore store) in
       exec invoke w (OpenCursor (if isUndefined keyRange then VUndefined else keyRange)
                        (getObjects_direction (false_by_default reverse))) in
       ret {| res := []; cursor_promise := Pending |};
     on_event := fun w e s l =>
       match e with
       | ReqError 0 errorEvt => (cursor_reject (EngineEvent errorEvt) s, l)
       | CursorAt 0 v => cursor_onsuccess w fn (Some v) s l
       | CursorEnd 0 => cursor_onsuccess w fn None s l
       | _ => (s, l)
       end;
     settled := cursor_settled |}.

(** [reverse ? "prev" : undefined] *)
Definition getObjectsByIndex_direction (reverse : bool) : option IDBCursorDirection :=
  if reverse then Some prev else None.

Definition getObjectsByIndex (stores : scope) (store : string) (index : string)
    (range : value) (reverse : option bool) (_cast : option (value -> value))
  : method :=
  let fn := cast_or_default _cast in
  {| mstate := cursor_state;
     precheck := None;
     stores := stores;
     mode := None;
     body := fun w _ =>
       exec invoke w (ObjectStore store) in
       exec invoke w (Index index) in
       exec invoke w (OpenCursor range
                        (getObjectsByIndex_direction (false_by_default reverse))) in
       ret {| res := []; cursor_promise := Pending |};
     on_event := fun w e s l =>
       match e with
       | TxError evt => (cursor_reject (EngineEvent evt) s, l ++ [ConsoleError evt])
       | CursorAt 0 v => cursor_onsuccess w fn (Some v) s l
       | CursorEnd 0 => cursor_onsuccess w fn None s l
       | _ => (s, l)
       end;
     settled := cursor_settled |}.

(** *** [removeObjectsByKey] *)

Definition removeObjectsByKey (stores : scope) (store : string) (range : value)
  : method :=
  {| mstate := promise jsresult;
     precheck := None;
     stores := stores;
     mode := Some "readwrite";
     body := fun w _ =>
       exec invoke w (ObjectStore store) in
       exec invoke w (Delete range) in
       ret Pending;
     on_event := fun _ e p l =>
       match e with
       | TxError errorEvt => (reject (EngineEvent errorEvt) p, l)
       | TxComplete => (resolve (JVal VUndefined) p, l)
       | _ => (p, l)
       end;
     settled := fun p => p |}.

(** *** [replaceObjectByKey] *)

(** The success handler of the delete request: it issues the add. *)
Definition replace_ondeleted (w : browser) (store : string) (v : value)
    (l : list action) : list action :=
  snd ((exec invoke w (ObjectStore store) in invoke w (Add v)) l).

Definition replaceObjectByKey (store : string) (key : value) (v : value) : method :=
  {| mstate := promise jsresult;
     precheck :=
       if isUndefined key
       then Some (AdapterError "updateByIndex() needs a key value!")
       else None;
     stores := OneStore store;
     mode := Some "readwrite";
     body := fun w _ =>
       exec invoke w (ObjectStore store) in
       exec invoke w (Delete key) in
       ret Pending;
     on_event := fun w e p l =>
       match e with
       | TxComplete => (resolve (JVal v) p, l)
       | TxError evt => (reject (EventError evt) p, l)
       | ReqSuccess 0 _ => (p, replace_ondeleted w store v l)
       | _ => (p, l)
       end;
     settled := fun p => p |}.

(** *** [updateObjectsByIndex] *)

Record PutParams : Type := {
  param_index : option string;
  param_name : string;
  param_value : value
}.

Fixpoint set_field (name : string) (v : value) (fields : list (string * value))
  : list (string * value) :=
  match fields with
  | [] => [(name, v)]
  | (k, x) :: rest =>
      if String.eqb k name then (k, v) :: rest else (k, x) :: set_field name v rest
  end.

(** [o[name]], for an object. *)
Fixpoint get_field (name : string) (fields : list (string * value)) : option value :=
  match fields with
  | [] => None
  | (k, x) :: rest => if String.eqb k name then Some x else get_field name rest
  end.

Definition has_field (name : string) (fields : list (string * value)) : bool :=
  match get_field name fields with Some _ => true | None => false end.

(** The prototype of the object that is assigned to.  A record comes from
    the engine with [Object.prototype]; an assignment to [__proto__] can
    replace it by [null] or by a plain object, which is a value of the caller
    and has [Object.prototype] as its own prototype. *)
Inductive prototype : Type :=
| ObjectPrototype
| NullPrototype
| PlainPrototype (fields : list (string * value)).

(** Whether looking [__proto__] up along the prototypes ends at the accessor
    of [Object.prototype], rather than at a data property or nowhere. *)
Definition inherits_proto_setter (p : prototype) : bool :=
  match p with
  | ObjectPrototype => true
  | NullPrototype => false
  | PlainPrototype fields => negb (has_field "__proto__" fields)
  end.

(** The setter of [__proto__], on an object: an object or [null] becomes the
    prototype, any other value is ignored. *)
Definition set_prototype (v : value) (p : prototype) : prototype :=
  match v with
  | VObj fields => PlainPrototype fields
  | VNull => NullPrototype
  | _ => p
  end.

(** The value [forEach] assigns to, with its prototype where it is an
    object. *)
Record assignee : Type := {
  assigned : value;
  proto : prototype
}.

(** [o[name] = v] in strict code.  On [undefined] and [null] it throws a
    TypeError ([None]).  On an object, a property of its own is replaced;
    without one, the name [__proto__] runs the inherited setter, which adds no
    property, and any other name (all that [Object.prototype] has besides are
    writable data properties) adds a property to the object.  On a boolean, a
    number or a string the setter of [__proto__] does nothing, and any other
    name throws a TypeError, since no property can be put on a primitive. *)
Definition set_property (o : assignee) (name : string) (v : value) : option assignee :=
  match assigned o with
  | VUndefined | VNull => None
  | VObj fields =>
      if negb (has_field name fields) && String.eqb name "__proto__"
         && inherits_proto_setter (proto o)
      then Some {| assigned := VObj fields; proto := set_prototype v (proto o) |}
      else Some {| assigned := VObj (set_field name v fields); proto := proto o |}
  | VBool _ | VNum _ | VStr _ =>
      if String.eqb name "__proto__" then Some o else None
  end.

(** [params.forEach(param => { oldValue[param.name] = param.value; })], and
    [oldValue] afterwards. *)
Definition assign_params (params : list PutParams) (oldValue : value) : option value :=
  option_map assigned
    (fold_left
       (fun acc param =>
          match acc with
          | Some o => set_property o (param_name param) (param_value param)
          | None => None
          end)
       params (Some {| assigned := oldValue; proto := ObjectPrototype |})).

(** [up_puts]: the promises [updateOne] returned, each with the object its
    handlers hold; the request of the k-th one is request k + 1.
    [up_gathered]: one entry per [Promise.all(promises)] call, the length
    [promises] had then. *)
Record update_state : Type := {
  up_puts : list (value * promise value);
  up_gathered : list nat;
  up_promiseA : promise jsresult;
  up_promiseB : promise unit;
  up_returned : promise jsresult
}.

Fixpoint first_resolved {A} (ps : list (promise A)) : option A :=
  match ps with
  | [] => None
  | Resolved a :: _ => Some a
  | _ :: ps' => first_resolved ps'
  end.

(** [updateOne(oldValue)], called from a success handler: an exception ends
    the handler. *)
Definition updateOne (w : browser) (params : list PutParams) (oldValue : value)
    (s : update_state) (l : list action) : update_state * list action :=
  match assign_params params oldValue with
  | None => (s, l)
  | Some o =>
      match invoke w (Put o) l with
      | (inl _, l') => (s, l')
      | (inr _, l') =>
          ({| up_puts := up_puts s ++ [(o, Pending)];
              up_gathered := up_gathered s;
              up_promiseA := up_promiseA s;
              up_promiseB := up_promiseB s;
              up_returned := up_returned s |}, l')
      end
  end.

(** The handlers of the index request, of the put requests and of the
    transaction. *)
Definition update_handlers (w : browser) (params : list PutParams)
    (allMatches : bool) (e : event) (s : update_state) (l : list action)
  : update_state * list action :=
  match e with
  | CursorAt 0 v => if allMatches then updateOne w params v s l else (s, l)
  | CursorEnd 0 =>
      if allMatches
      then ({| up_puts := up_puts s;
               up_gathered := up_gathered s ++ [length (up_puts s)];
               up_promiseA := up_promiseA s;
               up_promiseB := up_promiseB s;
               up_returned := up_returned s |}, l)
      else (s, l)
  | ReqSuccess 0 v => if allMatches then (s, l) else updateOne w params v s l
  | ReqSuccess (S k) _ =>
      ({| up_puts := alter (fun vp => (fst vp, resolve (fst vp) (snd vp))) k (up_puts s);
          up_gathered := up_gathered s;
          up_promiseA := up_promiseA s;
          up_promiseB := up_promiseB s;
          up_returned := up_returned s |}, l)
  | ReqError (S k) evt =>
      ({| up_puts := alter (fun vp => (fst vp, reject (EngineEvent evt) (snd vp))) k (up_puts s);
          up_gathered := up_gathered s;
          up_promiseA := up_promiseA s;
          up_promiseB := up_promiseB s;
          up_returned := up_returned s |}, l)
  | TxComplete =>
      ({| up_puts := up_puts s;
          up_gathered := up_gathered s;
          up_promiseA := up_promiseA s;
          up_promiseB := resolve tt (up_promiseB s);
          up_returned := up_returned s |}, l)
  | _ => (s, l)
  end.

(** What [promiseA] is resolved with, if a reaction resolves it now:
    [Promise.all(promises).then(values => resolve(values))], or
    [updateOne(value).then(newValue => resolve(newValue))]. *)
Definition update_found (allMatches : bool) (s : update_state) : option jsresult :=
  if allMatches
  then option_map array_of
         (first_resolved
            (map (fun n => promise_all (map snd (take n (up_puts s)))) (up_gathered s)))
  else option_map JVal (first_resolved (map snd (up_puts s))).

(** The promise reactions, run after the handler:
    [Promise.all([promiseA, promiseB]).then(values => [values[0]])]. *)
Definition update_reactions (allMatches : bool) (s : update_state) : update_state :=
  let pA := match update_found allMatches s with
            | Some x => resolve x (up_promiseA s)
            | None => up_promiseA s
            end in
  {| up_puts := up_puts s;
     up_gathered := up_gathered s;
     up_promiseA := pA;
     up_promiseB := up_promiseB s;
     up_returned :=
       follow (up_returned s)
         (then_ (fun values => JArr [fst values]) (promise_both pA (up_promiseB s))) |}.

(** [index] is [None] when the caller left it [undefined]. *)
Definition updateObjectsByIndex (store : string) (index : option string)
    (indexVal : value) (params : list PutParams) (allMatches : option bool)
  : method :=
  let all := false_by_default allMatches in
  {| mstate := update_state;
     precheck :=
       match params, index with
       | [], _ => Some (AdapterError "updateByIndex() needs at least one PutParams")
       | _, None => Some (AdapterError "updateByProperty() needs index of the value!")
       | _, Some _ => None
       end;
     stores := OneStore store;
     mode := Some "readwrite";
     body := fun w _ =>
       exec invoke w (ObjectStore store) in
       exec invoke w (Index (default "" index)) in
       exec invoke w (if all then OpenCursor indexVal None else Get indexVal) in
       ret {| up_puts := []; up_gathered := [];
              up_promiseA := Pending; up_promiseB := Pending;
              up_returned := Pending |};
     on_event := fun w e s l =>
       let (s', l') := update_handlers w params all e s l in
       (update_reactions all s', l');
     settled := up_returned |}.

(** *** [storeObjects] *)

(** [so_adds]: the promises made from the add requests, request i at place i. *)
Record store_state : Type := {
  so_promiseA : promise (list value);
  so_adds : list (promise unit);
  so_promiseB : promise (list unit);
  so_returned : promise jsresult
}.

(** The promise reactions, run after the handler: [promiseB] is
    [Promise.all] over the add promises, and the promise returned is
    [Promise.all([promiseA, promiseB]).then(values => values[0])]. *)
Definition store_reactions (s : store_state) : store_state :=
  let pB := follow (so_promiseB s) (promise_all (so_adds s)) in
  {| so_promiseA := so_promiseA s;
     so_adds := so_adds s;
     so_promiseB := pB;
     so_returned :=
       follow (so_returned s)
         (then_ (fun values => array_of (fst values)) (promise_both (so_promiseA s) pB)) |}.

Definition store_handlers (data : list value) (e : event) (s : store_state)
  : store_state :=
  match e with
  | TxComplete =>
      {| so_promiseA := resolve data (so_promiseA s);
         so_adds := so_adds s;
         so_promiseB := so_promiseB s;
         so_returned := so_returned s |}
  | TxError errEvt =>
      {| so_promiseA := reject (EngineEvent errEvt) (so_promiseA s);
         so_adds := so_adds s;
         so_promiseB := so_promiseB s;
         so_returned := so_returned s |}
  | ReqError i errEvt =>
      {| so_promiseA := so_promiseA s;
         so_adds := alter (reject (EngineEvent errEvt)) i (so_adds s);
         so_promiseB := so_promiseB s;
         so_returned := so_returned s |}
  | ReqSuccess i _ =>
      {| so_promiseA := so_promiseA s;
         so_adds := alter (resolve tt) i (so_adds s);
         so_promiseB := so_promiseB s;
         so_returned := so_returned s |}
  | _ => s
  end.

Definition storeObjects (store : string) (data : list value) : method :=
  {| mstate := store_state;
     precheck := None;
     stores := OneStore store;
     mode := Some "readwrite";
     body := fun w _ =>
       exec invoke w (ObjectStore store) in
       exec invoke_each w (map Add data) in
       ret (store_reactions
              {| so_promiseA := Pending;
                 so_adds := map (fun _ => Pending) data;
                 so_promiseB := Pending;
                 so_returned := Pending |});
     on_event := fun _ e s l => (store_reactions (store_handlers data e s), l);
     settled := so_returned |}.

(** *** [clearStore] *)

Definition clearStore (store : string) : method :=
  {| mstate := promise jsresult;
     precheck := None;
     stores := OneStore store;
     mode := Some "readwrite";
     body := fun w _ =>
       exec invoke w (ObjectStore store) in
       exec invoke w Clear in
       ret Pending;
     on_event := fun _ e p l =>
       match e with
       | TxComplete => (resolve (JVal VUndefined) p, l)
       | TxError err => (reject (EngineEvent err) p, l)
       | _ => (p, l)
       end;
     settled := fun p => p |}.

(** *** The public data operations *)

Inductive operation : Type :=
| GetObjectByKey (stores : scope) (store : string) (keyRange : value)
    (_cast : option (value -> value))
| GetObjects (stores : scope) (store : string) (keyRange : value)
    (reverse : option bool) (_cast : option (value -> value))
| GetObjectsByIndex (stores : scope) (store : string) (index : string)
    (range : value) (reverse : option bool) (_cast : option (value -> value))
| RemoveObjectsByKey (stores : scope) (store : string) (range : value)
| ReplaceObjectByKey (store : string) (key : value) (v : value)
| UpdateObjectsByIndex (store : string) (index : option string) (indexVal : value)
    (params : list PutParams) (allMatches : option bool)
| StoreObjects (store : string) (data : list value)
| ClearStore (store : string).

Definition method_of (op : operation) : method :=
  match op with
  | GetObjectByKey stores store keyRange _cast =>
      getObjectByKey stores store keyRange _cast
  | GetObjects stores store keyRange reverse _cast =>
      getObjects stores store keyRange reverse _cast
  | GetObjectsByIndex stores store index range reverse _cast =>
      getObjectsByIndex stores store index range reverse _cast
  | RemoveObjectsByKey stores store range => removeObjectsByKey stores store range
  | ReplaceObjectByKey store key v => replaceObjectByKey store key v
  | UpdateObjectsByIndex store index indexVal params allMatches =>
      updateObjectsByIndex store index indexVal params allMatches
  | StoreObjects store data => storeObjects store data
  | ClearStore store => clearStore store
  end.

(** A call of a public operation on a service, under a browser and the events
    the engine fires. *)
Definition perform (svc : IDBService) (w : browser) (op : operation)
    (tr : list event) : flight (mstate (method_of op)) :=
  run svc w (method_of op) tr.

(** *** Calls made one after the other *)

(** Each call is a flight of its own; the service object is handed from one
    to the next, and the logs are put end to end. *)
Fixpoint session (svc : IDBService) (w : browser)
    (calls : list (operation * list event)) : IDBService * list action :=
  match calls with
  | [] => (svc, [])
  | (op, tr) :: rest =>
      let f := perform svc w op tr in
      let (svc', l) := session (this f) w rest in
      (svc', log f ++ l)
  end.

(** The calls of a session that get as far as [indexedDB.open]. *)
Definition reaches_open (w : browser) (op : operation) : bool :=
  match precheck (method_of op) with
  | Some _ => false
  | None => indexedDB w
  end.

(** *** The body of a method on its own *)

Definition react (w : browser) (m : method) (bl : mstate m * list action)
    (e : event) : mstate m * list action :=
  on_event m w e (fst bl) (snd bl).

(** ** The engine's side of a cursor *)

(** The records of an object store as the engine's cursors go over them: the
    records whose key lies in a range, by ascending key, and the records an
    index holds for a range of its own keys, in the ascending order of the
    index.  The two orders are the engine's, and need not agree. *)
Record store_records : Type := {
  by_key : value -> list value;
  by_index : string -> value -> list value
}.

(** The cursor a log opened: on the store itself or on an index of it, over
    which range, in which direction. *)
Record opened_cursor : Type := {
  cursor_index : option string;
  cursor_range : value;
  cursor_direction : option IDBCursorDirection
}.

(** The first cursor the calls of a log open, [on_index] being the index the
    calls before went to. *)
Fixpoint cursor_opened (on_index : option string) (l : list action)
  : option opened_cursor :=
  match l with
  | [] => None
  | Index name :: l' => cursor_opened (Some name) l'
  | OpenCursor range d :: _ =>
      Some {| cursor_index := on_index; cursor_range := range; cursor_direction := d |}
  | _ :: l' => cursor_opened on_index l'
  end.

(** A cursor goes over the records of its source in ascending order, or in
    descending order when opened with ["prev"]. *)
Definition cursor_visits (records : store_records) (c : opened_cursor) : list value :=
  let ascending :=
    match cursor_index c with
    | Some name => by_index records name (cursor_range c)
    | None => by_key records (cursor_range c)
    end in
  match cursor_direction c with
  | Some prev => rev ascending
  | _ => ascending
  end.

Definition is_continue (c : action) : bool :=
  match c with Continue => true | _ => false end.

(** The success events of cursor request 0 over the records to visit: the
    engine fires the next one only if the handler of the last one called
    [continue()], and fires a last one without a cursor at the end. *)
Fixpoint serve_cursor (w : browser) (m : method) (to_visit : list value)
    (bl : mstate m * list action) : mstate m * list action :=
  match to_visit with
  | [] => react w m bl (CursorEnd 0)
  | v :: rest =>
      let bl' := react w m bl (CursorAt 0 v) in
      if existsb is_continue (drop (length (snd bl)) (snd bl'))
      then serve_cursor w m rest bl'
      else bl'
  end.

(** The cursor the body of a method opens when handed a transaction. *)
Definition cursor_of (w : browser) (m : method) (tx : IDBTransaction)
  : option opened_cursor :=
  cursor_opened None (snd (body m w tx [])).

(** A method handed a transaction on a store with these records: its body
    runs, the engine serves the cursor the body opened, and the promise of
    the method is read. *)
Definition traverse (w : browser) (m : method) (tx : IDBTransaction)
    (records : store_records) : promise jsresult :=
  match body m w tx [] with
  | (inl e, _) => Rejected (Thrown e)
  | (inr b, l) =>
      match cursor_opened None l with
      | Some c => settled m (fst (serve_cursor w m (cursor_visits records c) (b, l)))
      | None => settled m b
      end
  end.

(** ** The compiled [idb.service.js] *)

Module Compiled.

(** [params], as [getObjects] reads it. *)
Record GetParams : Type := {
  reverse : option bool;
  values : value;
  castOp : option (value -> value)
}.

(** [(params && params.reverse) ? "prev" : undefined] *)
Definition getObjects_direction (params : option GetParams)
  : option IDBCursorDirection :=
  match params with
  | Some p => if false_by_default (reverse p) then Some prev else None
  | None => None
  end.

(** [params && params.values] *)
Definition getObjects_range (params : option GetParams) : value :=
  match params with
  | Some p => values p
  | None => VUndefined
  end.

(** [(params && params.castOp) || cast] *)
Definition getObjects_cast (params : option GetParams) : value -> value :=
  match params with
  | Some p => cast_or_default (castOp p)
  | None => cast
  end.

Definition getObjects (stores : scope) (store : string)
    (params : option GetParams) : method :=
  let fn := getObjects_cast params in
  {| mstate := cursor_state;
     precheck := None;
     stores := stores;
     mode := None;
     body := fun w _ =>
       exec invoke w (ObjectStore store) in
       exec invoke w (OpenCursor (getObjects_range params)
                        (getObjects_direction params)) in
       ret {| res := []; cursor_promise := Pending |};
     on_event := fun w e s l =>
       match e with
       | ReqError 0 errorEvt => (cursor_reject (EngineEvent errorEvt) s, l)
       | CursorAt 0 v => cursor_onsuccess w fn (Some v) s l
       | CursorEnd 0 => cursor_onsuccess w fn None s l
       | _ => (s, l)
       end;
     settled := cursor_settled |}.

(** *** The service and [_init_] *)

(** The configuration object, as the compiled constructor reads it: the
    upgrade callback is looked up under the name [onupgradeneeded]. *)
Record IDBServiceConfig : Type := {
  database : string;
  version : Z;
  onupgradeneeded : option (handle -> handle)
}.

Record IDBService : Type := {
  idbServiceConfig : IDBServiceConfig;
  this_database : string;
  this_version : Z;
  this_onupgradeneeded : option (handle -> handle)
}.

Definition constructor (cfg : IDBServiceConfig) : IDBService :=
  {| idbServiceConfig := cfg;
     this_database := database cfg;
     this_version := version cfg;
     this_onupgradeneeded := onupgradeneeded cfg |}.

(** The synchronous part of [_init_]; the catch hands on what [open] threw. *)
Definition _init_ (this : IDBService) (w : browser)
  : list action -> promise handle * list action :=
  fun l =>
    if negb (indexedDB w)
    then (Rejected (AdapterError "Browser kit does not support indexedDB"), l)
    else
      match invoke w (Open (this_database this) (this_version this)) l with
      | (inl e, l') => (Rejected (Thrown e), l')
      | (inr _, l') => (Pending, l')
      end.

(** The three handlers on the open request: [reject], [resolve] with the
    result, and on upgrade-needed [resolve] with what [this.onupgradeneeded]
    returns for the result.  There is none for the blocked event. *)
Definition open_request_event (this : IDBService) (e : event)
    (p : promise handle) (l : list action) : promise handle * list action :=
  match e with
  | OpenError evt => (reject (EngineEvent evt) p, l)
  | OpenSuccess db => (resolve db p, l)
  | OpenUpgradeNeeded db =>
      match this_onupgradeneeded this with
      | Some f => (resolve (f db) p, l ++ [OnUpgradeNeeded db])
      | None => (p, l)   (* TypeError: not a function; the handler stops there *)
      end
  | _ => (p, l)
  end.

(** A call of a method of the compiled service. *)
Record flight (B : Type) : Type := {
  log : list action;
  at_stage : stage B
}.
Arguments log {B} f.
Arguments at_stage {B} f.

Definition start (svc : IDBService) (w : browser) (m : method) : flight (mstate m) :=
  match precheck m with
  | Some r => {| log := []; at_stage := Refused r |}
  | None =>
      match _init_ svc w [] with
      | (Rejected r, l) => {| log := l; at_stage := Refused r |}
      | (_, l) => {| log := l; at_stage := Opening |}
      end
  end.

(** One engine event; [getTransaction] and the reactions to a connection are
    those of the source. *)
Definition step (svc : IDBService) (w : browser) (m : method)
    (f : flight (mstate m)) (e : event) : flight (mstate m) :=
  if on_open_request e then
    match at_stage f with
    | Refused _ => f
    | Opening =>
        match open_request_event svc e Pending (log f) with
        | (Pending, l) => {| log := l; at_stage := Opening |}
        | (Rejected r, l) => {| log := l; at_stage := Failed r |}
        | (Resolved db, l) =>
            let (st, l') := on_connected w m db l in
            {| log := l'; at_stage := st |}
        end
    | Failed r =>
        let (_, l) := open_request_event svc e (Rejected r) (log f) in
        {| log := l; at_stage := Failed r |}
    | Running tx b =>
        let (_, l) := open_request_event svc e (Resolved (tx_db tx)) (log f) in
        {| log := l; at_stage := Running tx b |}
    end
  else
    match at_stage f with
    | Running tx b =>
        let (b', l) := on_event m w e b (log f) in
        {| log := l; at_stage := Running tx b' |}
    | _ => f
    end.

Definition run (svc : IDBService) (w : browser) (m : method) (tr : list event)
  : flight (mstate m) :=
  fold_left (step svc w m) tr (start svc w m).

Definition outcome {m : method} (f : flight (mstate m)) : promise jsresult :=
  match at_stage f with
  | Refused r => Rejected r
  | Opening => Pending
  | Failed r => Rejected r
  | Running _ b => settled m b
  end.

(** *** [getObjectByKey] and [getObjectByIndex] *)

(** [getObjectByKey(stores, store, params)]: the key is [params.values]. *)
Definition getObjectByKey (stores : scope) (store : string) (params : GetParams)
  : method :=
  let fn := cast_or_default (castOp params) in
  {| mstate := promise jsresult;
     precheck :=
       if isUndefined (values params)
       then Some (AdapterError
                    "at least one value for the object's key needs to be passed!")
       else None;
     stores := stores;
     mode := None;
     body := fun w _ =>
       exec invoke w (ObjectStore store) in
       exec invoke w (Get (values params)) in
       ret Pending;
     on_event := fun _ e p l =>
       match e with
       | ReqError 0 errorEvent => (reject (EngineEvent errorEvent) p, l)
       | ReqSuccess 0 result => (resolve (JVal (fn result)) p, l)
       | _ => (p, l)
       end;
     settled := fun p => p |}.

(** [params], as [getObjectByIndex] reads it. *)
Record IndexParams : Type := {
  index : option string;
  index_values : value;
  index_castOp : option (value -> value)
}.

Definition getObjectByIndex (stores : scope) (store : string) (params : IndexParams)
  : method :=
  let fn := cast_or_default (index_castOp params) in
  {| mstate := promise jsresult;
     precheck :=
       match index params with
       | None => Some (AdapterError "getOneByIndex() needs name of the index!")
       | Some _ =>
           if isUndefined (index_values params)
           then Some (AdapterError "getOneByIndex() needs at least one value.")
           else None
       end;
     stores := stores;
     mode := None;
     body := fun w _ =>
       exec invoke w (ObjectStore store) in
       exec invoke w (Index (default "" (index params))) in
       exec invoke w (Get (index_values params)) in
       ret Pending;
     on_event := fun _ e p l =>
       match e with
       | ReqError 0 errorEvt => (reject (EngineEvent errorEvt) p, l)
       | ReqSuccess 0 result => (resolve (JVal (fn result)) p, l)
       | _ => (p, l)
       end;
     settled := fun p => p |}.

(** *** [removeObjectByKey], [storeObjects], [clearStore] *)

(** The code of these three is that of the TypeScript file, under the name
    [removeObjectByKey] for the first. *)
Definition removeObjectByKey (stores : scope) (store : string) (keyRange : value)
  : method :=
  removeObjectsByKey stores store keyRange.

Definition storeObjects (store : string) (data : list value) : method :=
  storeObjects store data.

Definition clearStore (store : string) : method :=
  clearStore store.

(** *** [updateObjectByIndex] *)

(** [cursor.value], read off the result of the [get]: a TypeError ([None])
    when there is no record, [undefined] when what was found has no such
    property. *)
Definition value_property (result : value) : option value :=
  match result with
  | VUndefined | VNull => None
  | VObj fields => Some (default VUndefined (get_field "value" fields))
  | _ => Some VUndefined
  end.

(** [puts]: the object the handlers of each put request hold, request k + 1
    at place k.  The promises [updateOne] returns are never settled: the
    handlers of the put call the [resolve] and [reject] of [promiseA]. *)
Record update_state : Type := {
  puts : list value;
  promiseA : promise jsresult;
  promiseB : promise unit;
  returned : promise jsresult
}.

Definition updateOne (w : browser) (params : list PutParams) (oldValue : value)
    (s : update_state) (l : list action) : update_state * list action :=
  match assign_params params oldValue with
  | None => (s, l)
  | Some o =>
      match invoke w (Put o) l with
      | (inl _, l') => (s, l')
      | (inr _, l') =>
          ({| puts := puts s ++ [o];
              promiseA := promiseA s;
              promiseB := promiseB s;
              returned := returned s |}, l')
      end
  end.

Definition settle_A (f : promise jsresult -> promise jsresult) (s : update_state)
  : update_state :=
  {| puts := puts s;
     promiseA := f (promiseA s);
     promiseB := promiseB s;
     returned := returned s |}.

(** The handlers of the lookup, of the put requests and of the transaction.
    At the end of the cursor, [Promise.all(promises)] resolves only if
    [promises] is empty. *)
Definition update_handlers (w : browser) (params : list PutParams)
    (allMatches : bool) (e : event) (s : update_state) (l : list action)
  : update_state * list action :=
  match e with
  | CursorAt 0 v => if allMatches then updateOne w params v s l else (s, l)
  | CursorEnd 0 =>
      if allMatches
      then match puts s with
           | [] => (settle_A (resolve (JArr [])) s, l)
           | _ :: _ => (s, l)
           end
      else (s, l)
  | ReqSuccess 0 result =>
      if allMatches then (s, l)
      else match value_property result with
           | Some v => updateOne w params v s l
           | None => (s, l)
           end
  | ReqSuccess (S k) _ =>
      match puts s !! k with
      | Some o => (settle_A (resolve (JVal o)) s, l)
      | None => (s, l)
      end
  | ReqError (S k) evt =>
      match puts s !! k with
      | Some _ => (settle_A (reject (EngineEvent evt)) s, l)
      | None => (s, l)
      end
  | TxComplete =>
      ({| puts := puts s;
          promiseA := promiseA s;
          promiseB := resolve tt (promiseB s);
          returned := returned s |}, l)
  | _ => (s, l)
  end.

(** [Promise.all([promiseA, promiseB]).then(values => values[0])] *)
Definition update_reactions (s : update_state) : update_state :=
  {| puts := puts s;
     promiseA := promiseA s;
     promiseB := promiseB s;
     returned :=
       follow (returned s) (then_ fst (promise_both (promiseA s) (promiseB s))) |}.

(** [updateObjectByIndex(store, index, params, allMatches)]: [index] is what
    is looked up in the store itself. *)
Definition updateObjectByIndex (store : string) (index : value)
    (params : list PutParams) (allMatches : option bool) : method :=
  let all := false_by_default allMatches in
  {| mstate := update_state;
     precheck :=
       match params with
       | [] => Some (AdapterError "updateByIndex() needs at least one PutParams")
       | _ :: _ =>
           if isUndefined index
           then Some (AdapterError "updateByProperty() needs index of the value!")
           else None
       end;
     stores := OneStore store;
     mode := Some "readwrite";
     body := fun w _ =>
       exec invoke w (ObjectStore store) in
       exec invoke w (if all then OpenCursor index None else Get index) in
       ret {| puts := []; promiseA := Pending; promiseB := Pending;
              returned := Pending |};
     on_event := fun w e s l =>
       let (s', l') := update_handlers w params all e s l in
       (update_reactions s', l');
     settled := returned |}.

(** *** The operations of the compiled service *)

(** All of them but two: [getObjectsByIndex], which rejects with a bare
    string and asks for the direction [null], and [replaceObjectByKey], which
    writes to the console when the add succeeds; the rejection reasons, the
    directions and the actions above have nothing to stand for these. *)
Inductive operation : Type :=
| GetObjectByKey (stores : scope) (store : string) (params : GetParams)
| GetObjects (stores : scope) (store : string) (params : option GetParams)
| GetObjectByIndex (stores : scope) (store : string) (params : IndexParams)
| RemoveObjectByKey (stores : scope) (store : string) (keyRange : value)
| UpdateObjectByIndex (store : string) (index : value) (params : list PutParams)
    (allMatches : option bool)
| StoreObjects (store : string) (data : list value)
| ClearStore (store : string).

Definition method_of (op : operation) : method :=
  match op with
  | GetObjectByKey stores store params => getObjectByKey stores store params
  | GetObjects stores store params => getObjects stores store params
  | GetObjectByIndex stores store params => getObjectByIndex stores store params
  | RemoveObjectByKey stores store keyRange => removeObjectByKey stores store keyRange
  | UpdateObjectByIndex store index params allMatches =>
      updateObjectByIndex store index params allMatches
  | StoreObjects store data => storeObjects store data
  | ClearStore store => clearStore store
  end.

End Compiled.

(** ** Vocabulary of the statements *)

(** An open request exists, with the handlers of [_init_] on it. *)
Definition has_open_request {B} (f : flight B) : bool :=
  match at_stage f with
  | Refused _ => false
  | _ => true
  end.

(** The body has run: the transaction and its requests exist. *)
Definition is_running {B} (f : flight B) : bool :=
  match at_stage f with
  | Running _ _ => true
  | _ => false
  end.

(** Success and complete events of a transaction and its requests. *)
Definition is_success_event (e : event) : bool :=
  match e with
  | TxComplete | ReqSuccess _ _ | CursorAt _ _ | CursorEnd _ => true
  | _ => false
  end.

(** Error events, of the open request, the transaction or a request. *)
Definition is_error_event (e : event) : bool :=
  match e with
  | OpenError _ | TxError _ | ReqError _ _ => true
  | _ => false
  end.

(** A rejection that carries an error event of the engine, untouched. *)
Definition is_forwarded_event (r : reason) : bool :=
  match r with
  | EngineEvent _ => true
  | _ => false
  end.


(** The engine calls of the body of an operation, when none throws. *)
Definition body_calls (op : operation) : list action :=
  match op with
  | GetObjectByKey _ store keyRange _ => [ObjectStore store; Get keyRange]
  | GetObjects _ store keyRange reverse _ =>
      [ObjectStore store;
       OpenCursor keyRange (getObjects_direction (false_by_default reverse))]
  | GetObjectsByIndex _ store index range reverse _ =>
      [ObjectStore store; Index index;
       OpenCursor range (getObjectsByIndex_direction (false_by_default reverse))]
  | RemoveObjectsByKey _ store range => [ObjectStore store; Delete range]
  | ReplaceObjectByKey store key _ => [ObjectStore store; Delete key]
  | UpdateObjectsByIndex store index indexVal _ allMatches =>
      [ObjectStore store; Index (default "" index);
       if false_by_default allMatches then OpenCursor indexVal None else Get indexVal]
  | StoreObjects store data => ObjectStore store :: map Add data
  | ClearStore store => [ObjectStore store; Clear]
  end.

(** The state the body leaves its handlers in. *)
Definition initial (op : operation) : mstate (method_of op) :=
  match op with
  | GetObjectByKey _ _ _ _ => Pending
  | GetObjects _ _ _ _ _ => {| res := []; cursor_promise := Pending |}
  | GetObjectsByIndex _ _ _ _ _ _ => {| res := []; cursor_promise := Pending |}
  | RemoveObjectsByKey _ _ _ => Pending
  | ReplaceObjectByKey _ _ _ => Pending
  | UpdateObjectsByIndex _ _ _ _ _ =>
      {| up_puts := []; up_gathered := [];
         up_promiseA := Pending; up_promiseB := Pending; up_returned := Pending |}
  | StoreObjects _ data =>
      store_reactions
        {| so_promiseA := Pending;
           so_adds := map (fun _ => Pending) data;
           so_promiseB := Pending;
           so_returned := Pending |}
  | ClearStore _ => Pending
  end.

(** The requests a handler of the operation may add to those of the body:
    the add of [replaceObjectByKey], the puts of [updateObjectsByIndex]. *)
Definition follow_up (op : operation) (c : action) : Prop :=
  match op with
  | ReplaceObjectByKey _ _ v => c = Add v
  | UpdateObjectsByIndex _ _ _ _ _ => exists o, c = Put o
  | _ => False
  end.

(** The argument of [getTransaction] in each operation. *)
Definition transaction_call (op : operation) (db : handle) : action :=
  Transaction db (stores (method_of op)) (mode_or_default (mode (method_of op))).

(** What one event can do to a call, case by case. *)
Inductive move (w : browser) (op : operation)
    (f : flight (mstate (method_of op))) (e : event)
  : flight (mstate (method_of op)) -> Prop :=
| move_none :
    (* an event of the open request that changes nothing, or an event of a
       transaction that does not exist *)
    on_open_request e = true \/ is_running f = false ->
    move w op f e f
| move_upgrade db :
    e = OpenUpgradeNeeded db -> has_open_request f = true ->
    move w op f e
      {| this := this f;
         log := log f ++ request_onupgradeneeded (this f) db;
         at_stage := at_stage f |}
| move_blocked :
    e = OpenBlocked -> has_open_request f = true ->
    move w op f e
      {| this := this f;
         log := log f ++ request_onblocked (this f);
         at_stage := at_stage f |}
| move_open_error evt :
    e = OpenError evt -> at_stage f = Opening ->
    move w op f e
      {| this := this f; log := log f; at_stage := Failed (EngineEvent evt) |}
| move_connected db :
    e = OpenSuccess db -> at_stage f = Opening ->
    move w op f e
      {| this := this f;
         log := log f ++ transaction_call op db :: body_calls op;
         at_stage :=
           Running {| tx_db := db; tx_stores := stores (method_of op);
                      tx_mode := mode_or_default (mode (method_of op)) |}
                   (initial op) |}
| move_thrown db ex pre post :
    e = OpenSuccess db -> at_stage f = Opening ->
    transaction_call op db :: body_calls op = pre ++ post -> pre <> [] ->
    move w op f e
      {| this := this f; log := log f ++ pre; at_stage := Failed (Thrown ex) |}
| move_handled tx b :
    on_open_request e = false -> at_stage f = Running tx b ->
    move w op f e
      {| this := this f;
         log := snd (react w (method_of op) (b, log f) e);
         at_stage := Running tx (fst (react w (method_of op) (b, log f) e)) |}.

(** The calls a handler of a method may make: none opens or closes a
    connection or starts a transaction, and a request is a follow-up. *)
Definition handler_call (op : operation) (c : action) : Prop :=
  is_open c = false /\ is_close c = false /\ is_transaction c = false
  /\ (is_request c = true -> follow_up op c).

(** The calls of the bodies open and close nothing, and start no transaction. *)
Definition inner_call (c : action) : Prop :=
  is_open c = false /\ is_close c = false /\ is_transaction c = false.

(** The call [_init_] makes before anything else, when the call gets to it. *)
Definition opening_calls (svc : IDBService) (w : browser) (op : operation) : list action :=
  if reaches_open w op then [Open (this_database svc) (this_version svc)] else [].

(** What the log of a call holds besides, at each stage: callbacks only while
    the open request is pending; one transaction on the connection the open
    request delivered, the requests of the body and the follow-ups once the
    method runs; the calls made up to the one that threw, when one did. *)
Definition stage_shape (w : browser) (op : operation) (tr : list event)
    (st : stage (mstate (method_of op))) (rest : list action) : Prop :=
  match st with
  | Refused _ => rest = []
  | Opening =>
      reaches_open w op = true
      /\ transactions rest = [] /\ requests rest = []
  | Failed _ =>
      reaches_open w op = true
      /\ ((transactions rest = [] /\ requests rest = [])
          \/ exists db post,
              In (OpenSuccess db) tr
              /\ transactions rest = [transaction_call op db]
              /\ requests (body_calls op) = requests rest ++ post)
  | Running tx _ =>
      reaches_open w op = true
      /\ tx = {| tx_db := tx_db tx; tx_stores := stores (method_of op);
                 tx_mode := mode_or_default (mode (method_of op)) |}
      /\ In (OpenSuccess (tx_db tx)) tr
      /\ transactions rest = [transaction_call op (tx_db tx)]
      /\ exists later,
          requests rest = requests (body_calls op) ++ later
          /\ Forall (follow_up op) later
  end.

Definition log_shape (svc : IDBService) (w : browser) (op : operation)
    (tr : list event) (f : flight (mstate (method_of op))) : Prop :=
  exists rest,
    log f = opening_calls svc w op ++ rest
    /\ Forall (fun c => is_open c = false /\ is_close c = false) rest
    /\ stage_shape w op tr (at_stage f) rest.

Definition is_rejected {A} (p : promise A) : Prop := exists r, p = Rejected r.

(** What holds of the promises of [storeObjects] after the events [tr]:
    [promiseB] and the promise returned are rejected or up to date with the
    promises they are made from; there is one add promise per element; an add
    promise is resolved only after a success event of its request, and
    [promiseA] only after the complete event, with [data]. *)
Definition store_inv (data : list value) (tr : list event) (s : store_state) : Prop :=
  (is_rejected (so_promiseB s) \/ so_promiseB s = promise_all (so_adds s))
  /\ (is_rejected (so_returned s)
      \/ so_returned s
         = then_ (fun values => array_of (fst values))
             (promise_both (so_promiseA s) (so_promiseB s)))
  /\ length (so_adds s) = length data
  /\ (forall i, so_adds s !! i = Some (Resolved tt) ->
                exists r, In (ReqSuccess i r) tr)
  /\ (forall x, so_promiseA s = Resolved x -> x = data /\ In TxComplete tr).

(** With no error event so far, nothing is rejected, and what has fired has
    resolved its promise. *)
Definition store_clean (data : list value) (tr : list event) (s : store_state) : Prop :=
  Forall (fun e => is_error_event e = false) tr ->
  (In TxComplete tr -> so_promiseA s = Resolved data)
  /\ (so_promiseA s = Pending \/ so_promiseA s = Resolved data)
  /\ (forall i r, In (ReqSuccess i r) tr -> i < length (so_adds s) ->
                  so_adds s !! i = Some (Resolved tt))
  /\ (forall i r, so_adds s !! i <> Some (Rejected r))
  /\ (forall r, so_promiseB s <> Rejected r)
  /\ (forall r, so_returned s <> Rejected r).

(** The event that hands a record to [updateOne]: a cursor on it when all
    matches are asked for, the success of the index lookup otherwise. *)
Definition found_by (all : bool) (v : value) : event :=
  if all then CursorAt 0 v else ReqSuccess 0 v.

(** What holds of the promises of [updateObjectsByIndex] after the events
    [tr]: every promise of [updateOne] belongs to a record an event handed
    over, with [params] assigned, and resolves with that object only;
    [promiseA] is never rejected and resolves with one such object, or with
    the array of the first few when all matches are asked for; [promiseB] is
    never rejected; the promise returned is pending, or resolved with the
    one-element array of what [promiseA] resolved with. *)
Definition update_inv (params : list PutParams) (all : bool) (tr : list event)
    (s : update_state) : Prop :=
  Forall (fun vp =>
            (exists v, In (found_by all v) tr /\ assign_params params v = Some (fst vp))
            /\ forall o, snd vp = Resolved o -> o = fst vp)
         (up_puts s)
  /\ (forall x, up_promiseA s = Resolved x ->
                if all
                then exists n, x = array_of (map fst (take n (up_puts s)))
                else exists o, x = JVal o /\ In o (map fst (up_puts s)))
  /\ (forall r, up_promiseA s <> Rejected r)
  /\ (forall r, up_promiseB s <> Rejected r)
  /\ (up_returned s = Pending
      \/ exists x, up_promiseA s = Resolved x /\ up_returned s = Resolved (JArr [x])).

(** A call opens a connection of its own: its log holds exactly one [open],
    with the name and version of the service. *)
Definition opens_a_connection (svc : IDBService) {B} (f : flight B) : Prop :=
  opens (log f) = [Open (this_database svc) (this_version svc)].





(** The reactions of [updateObjectsByIndex] have run: [promiseA] has taken
    what was found for it, and the promise returned follows
    [Promise.all([promiseA, promiseB])]. *)
Definition update_fresh (all : bool) (s : update_state) : Prop :=
  (forall x, update_found all s = Some x -> up_promiseA s <> Pending)
  /\ up_returned s
     = then_ (fun values => JArr [fst values])
         (promise_both (up_promiseA s) (up_promiseB s)).

(** A rejection resolves nothing. *)
Definition no_newly_resolved {A} (after before : promise A) : Prop :=
  forall a, after = Resolved a -> before = Resolved a.






(** The records the cursor of request 0 was on, in the order of the events. *)
Definition visited_by (tr : list event) : list value :=
  List.flat_map (fun e => match e with CursorAt 0 v => [v] | _ => [] end) tr.



(** A success event of the delete request, request 0. *)
Definition delete_succeeded (e : event) : bool :=
  match e with
  | ReqSuccess 0 _ => true
  | _ => false
  end.

(** The value of the last of [params] that names [name], if one does. *)
Fixpoint last_assigned (name : string) (params : list PutParams) : option value :=
  match params with
  | [] => None
  | p :: rest =>
      match last_assigned name rest with
      | Some v => Some v
      | None => if String.eqb (param_name p) name then Some (param_value p) else None
      end
  end.

(** [undefined] and [null]: what has no properties at all. *)
Definition is_nullish (v : value) : bool :=
  match v with VUndefined | VNull => true | _ => false end.

Definition is_primitive (v : value) : bool :=
  match v with VBool _ | VNum _ | VStr _ => true | _ => false end.

(** The state of [updateObjectsByIndex] while no record has been handed to
    [updateOne] with success. *)
Definition update_idle (s : update_state) : Prop :=
  up_puts s = [] /\ up_gathered s = []
  /\ up_promiseA s = Pending /\ up_returned s = Pending
  /\ forall r, up_promiseB s <> Rejected r.

(** The operations that resolve with the array their cursor loop fills. *)
Definition is_cursor_operation (op : operation) : bool :=
  match op with
  | GetObjects _ _ _ _ _ | GetObjectsByIndex _ _ _ _ _ _ => true
  | _ => false
  end.

(** A settled promise seen again after an event: rejected with the same
    reason, or resolved; with the same value unless the operation is a cursor
    loop and the event put its cursor on one more record. *)
Definition settled_stays (op : operation) (e : event)
    (before after : promise jsresult) : Prop :=
  (forall r, before = Rejected r -> after = Rejected r)
  /\ (forall x, before = Resolved x ->
                exists y, after = Resolved y
                          /\ (is_cursor_operation op = false \/ visited_by [e] = [] ->
                              y = x)).

(** The events of the open request that only call back: upgrade-needed and
    blocked. *)
Definition is_callback_event (e : event) : bool :=
  match e with
  | OpenUpgradeNeeded _ | OpenBlocked => true
  | _ => false
  end.

(** A promise seen again after a handler ran: it was pending, or it is what
    it was. *)
Definition settled_or_same {A} (before after : promise A) : Prop :=
  before = Pending \/ after = before.

(** What holds of the promises of the compiled [updateObjectByIndex] after
    the events [tr]: [promiseA] is resolved by the success of a put, with the
    object that was put, or with an empty array at the end of a cursor that
    was on no record; it is rejected by the error event of a put;
    [promiseB] waits for the complete event and is never rejected; the
    promise returned follows the two. *)
Definition compiled_update_inv (all : bool) (tr : list event)
    (s : Compiled.update_state) : Prop :=
  (forall x, Compiled.promiseA s = Resolved x ->
             (exists k r o, In (ReqSuccess (S k) r) tr
                            /\ Compiled.puts s !! k = Some o /\ x = JVal o)
             \/ (all = true /\ In (CursorEnd 0) tr /\ x = JArr []))
  /\ (forall r, Compiled.promiseA s = Rejected r ->
                exists k evt, r = EngineEvent evt /\ In (ReqError (S k) evt) tr)
  /\ (forall u, Compiled.promiseB s = Resolved u -> In TxComplete tr)
  /\ (forall r, Compiled.promiseB s <> Rejected r)
  /\ Compiled.returned s
     = then_ fst (promise_both (Compiled.promiseA s) (Compiled.promiseB s)).

(** The objects the compiled [updateOne] puts over the events [tr], in
    order: one for each record handed to it on which the assignments go
    through.  With [allMatches] the records are those the cursor was on;
    without, the [value] property of what the [get] found. *)
Definition compiled_put_objects (all : bool) (params : list PutParams)
    (tr : list event) : list value :=
  omap (fun e =>
          match e with
          | CursorAt 0 v => if all then assign_params params v else None
          | ReqSuccess 0 result =>
              if all then None
              else match Compiled.value_property result with
                   | Some v => assign_params params v
                   | None => None
                   end
          | _ => None
          end) tr.

(** Under an engine whose calls do not throw, the puts of the compiled
    [updateObjectByIndex] are those objects, and [promiseA] is resolved with
    the object of a put whose request then succeeded, or with an empty array
    at an end of the cursor before which nothing was put. *)
Definition compiled_update_pinned (all : bool) (params : list PutParams)
    (tr : list event) (s : Compiled.update_state) : Prop :=
  Compiled.puts s = compiled_put_objects all params tr
  /\ forall x, Compiled.promiseA s = Resolved x ->
               (exists tr1 k r tr2 o,
                   tr = tr1 ++ ReqSuccess (S k) r :: tr2
                   /\ compiled_put_objects all params tr1 !! k = Some o
                   /\ x = JVal o)
               \/ (all = true
                   /\ exists tr1 tr2,
                       tr = tr1 ++ CursorEnd 0 :: tr2
                       /\ compiled_put_objects true params tr1 = []
                       /\ x = JArr []).

(** ** Sanity checks on concrete runs *)

Definition sample_config : IDBServiceConfig :=
  {| database := "notes";
     version := 2;
     onUpgradeNeeded := fun db => db;
     onVersionChange := None;
     onBlocked := None |}.

Definition sample_service : IDBService := constructor sample_config.

Example getObjectByKey_sample :
  let f := perform sample_service calm_browser
             (GetObjectByKey (OneStore "n") "n" (VNum 1) None)
             [OpenUpgradeNeeded 7; OpenSuccess 7; ReqSuccess 0 (VStr "a")] in
  log f = [Open "notes" 2; OnVersionChange 7; OnUpgradeNeeded 7;
           Transaction 7 (OneStore "n") "readonly"; ObjectStore "n"; Get (VNum 1)]
  /\ outcome f = Resolved (JVal (VStr "a")).
Proof. split; reflexivity. Qed.

Example replaceObjectByKey_sample :
  let f := perform sample_service calm_browser
             (ReplaceObjectByKey "n" (VNum 1) (VStr "b"))
             [OpenSuccess 7; ReqSuccess 0 VUndefined; ReqSuccess 1 (VNum 1); TxComplete] in
  log f = [Open "notes" 2; Transaction 7 (OneStore "n") "readwrite";
           ObjectStore "n"; Delete (VNum 1); ObjectStore "n"; Add (VStr "b")]
  /\ outcome f = Resolved (JVal (VStr "b")).
Proof. split; reflexivity. Qed.

Example updateObjectsByIndex_sample :
  let f := perform sample_service calm_browser
             (UpdateObjectsByIndex "n" (Some "by_tag") (VStr "x")
                [{| param_index := None; param_name := "done"; param_value := VBool true |}]
                None)
             [OpenSuccess 7; ReqSuccess 0 (VObj [("tag", VStr "x")]);
              ReqSuccess 1 (VNum 1); TxComplete] in
  log f = [Open "notes" 2; Transaction 7 (OneStore "n") "readwrite";
           ObjectStore "n"; Index "by_tag"; Get (VStr "x");
           Put (VObj [("tag", VStr "x"); ("done", VBool true)])]
  /\ outcome f = Resolved (JArr [JVal (VObj [("tag", VStr "x"); ("done", VBool true)])]).
Proof. split; reflexivity. Qed.

Example storeObjects_sample :
  let f := perform sample_service calm_browser
             (StoreObjects "n" [VNum 1; VNum 2])
             [OpenSuccess 7; ReqSuccess 0 (VNum 1); ReqSuccess 1 (VNum 2); TxComplete] in
  log f = [Open "notes" 2; Transaction 7 (OneStore "n") "readwrite";
           ObjectStore "n"; Add (VNum 1); Add (VNum 2)]
  /\ outcome f = Resolved (array_of [VNum 1; VNum 2]).
Proof. split; reflexivity. Qed.


(** ** General facts about flights *)

Lemma run_snoc svc w m tr e :
  run svc w m (tr ++ [e]) = step w m (run svc w m tr) e.
Proof. unfold run. rewrite fold_left_app. reflexivity. Qed.

Lemma perform_snoc svc w op tr e :
  perform svc w op (tr ++ [e]) = step w (method_of op) (perform svc w op tr) e.
Proof. apply run_snoc. Qed.

Lemma perform_app svc w op tr1 tr2 :
  perform svc w op (tr1 ++ tr2)
  = fold_left (step w (method_of op)) tr2 (perform svc w op tr1).
Proof. unfold perform, run. apply fold_left_app. Qed.

(** Induction along the events of a call. *)
Lemma perform_ind svc w op (P : list event -> flight (mstate (method_of op)) -> Prop) :
  P [] (start svc w (method_of op)) ->
  (forall tr e, P tr (perform svc w op tr) ->
                P (tr ++ [e]) (step w (method_of op) (perform svc w op tr) e)) ->
  forall tr, P tr (perform svc w op tr).
Proof.
  intros H0 Hstep tr. induction tr as [|e tr IH] using rev_ind.
  - exact H0.
  - rewrite perform_snoc. apply Hstep, IH.
Qed.

Lemma invoke_log w c l : snd (invoke w c l) = l ++ [c].
Proof. unfold invoke. destruct (throws w l c); reflexivity. Qed.

Lemma invoke_cases w c l :
  invoke w c l = (inr tt, l ++ [c]) \/ exists ex, invoke w c l = (inl ex, l ++ [c]).
Proof. unfold invoke. destruct (throws w l c); eauto. Qed.

Lemma invoke_calm w c l : calm w -> invoke w c l = (inr tt, l ++ [c]).
Proof. intros [_ H]. unfold invoke. rewrite H. reflexivity. Qed.

Lemma invoke_each_calm w cs l :
  calm w -> invoke_each w cs l = (inr tt, l ++ cs).
Proof.
  intros Hw. revert l. induction cs as [|c cs IH]; intros l; simpl.
  - unfold ret. rewrite app_nil_r. reflexivity.
  - unfold bind. rewrite invoke_calm by assumption.
    rewrite IH, <- app_assoc. reflexivity.
Qed.

(** A run of calls goes through, or stops at the first that throws. *)
Lemma invoke_each_cases w cs l :
  invoke_each w cs l = (inr tt, l ++ cs)
  \/ exists ex pre post,
      invoke_each w cs l = (inl ex, l ++ pre) /\ cs = pre ++ post /\ pre <> [].
Proof.
  revert l. induction cs as [|c cs IH]; intros l; simpl.
  - left. unfold ret. rewrite app_nil_r. reflexivity.
  - unfold bind. destruct (invoke_cases w c l) as [H|[ex H]]; rewrite H.
    + destruct (IH (l ++ [c])) as [H'|(ex & pre & post & H' & -> & Hne)]; rewrite H'.
      * left. rewrite <- app_assoc. reflexivity.
      * right. exists ex, (c :: pre), post. rewrite <- app_assoc. repeat split. discriminate.
    + right. exists ex, [c], cs. repeat split. discriminate.
Qed.

Lemma keyRange_or_undefined k : (if isUndefined k then VUndefined else k) = k.
Proof. destruct k; reflexivity. Qed.

(** Every body is a straight run of engine calls. *)
Lemma body_straight op w tx l :
  body (method_of op) w tx l
  = (exec invoke_each w (body_calls op) in ret (initial op)) l.
Proof.
  destruct op; simpl; rewrite ?keyRange_or_undefined; unfold bind, ret;
    repeat match goal with
           | |- context [invoke w ?c ?l] =>
               destruct (invoke_cases w c l) as [Hi|[? Hi]]; rewrite Hi; clear Hi
           end; try reflexivity.
  all: destruct (invoke_each w _ _) as [[?|[]] ?]; reflexivity.
Qed.

Lemma body_cases op w tx l :
  body (method_of op) w tx l = (inr (initial op), l ++ body_calls op)
  \/ exists ex pre post,
      body (method_of op) w tx l = (inl ex, l ++ pre)
      /\ body_calls op = pre ++ post /\ pre <> [].
Proof.
  rewrite body_straight. unfold bind, ret.
  destruct (invoke_each_cases w (body_calls op) l)
    as [H|(ex & pre & post & H & Heq & Hne)]; rewrite H; eauto 8.
Qed.

(** The reactions to a successful open: the transaction, then the body. *)
Lemma on_connected_cases op w db l :
  on_connected w (method_of op) db l
  = (Running {| tx_db := db; tx_stores := stores (method_of op);
                tx_mode := mode_or_default (mode (method_of op)) |} (initial op),
     l ++ transaction_call op db :: body_calls op)
  \/ exists ex pre post,
      on_connected w (method_of op) db l = (Failed (Thrown ex), l ++ pre)
      /\ transaction_call op db :: body_calls op = pre ++ post /\ pre <> [].
Proof.
  unfold on_connected, getTransaction_then, bind, ret, transaction_call.
  destruct (invoke_cases w (Transaction db (stores (method_of op))
                              (mode_or_default (mode (method_of op)))) l)
    as [H|[ex H]]; rewrite H.
  - match goal with |- context [body _ w ?tx ?l'] =>
      destruct (body_cases op w tx l') as [Hb|(ex & pre & post & Hb & Heq & Hne)];
        rewrite Hb end.
    + left. rewrite <- app_assoc. reflexivity.
    + right. exists ex, (Transaction db (stores (method_of op))
                           (mode_or_default (mode (method_of op))) :: pre), post.
      rewrite <- app_assoc, Heq. repeat split. discriminate.
  - right. exists ex, [Transaction db (stores (method_of op))
                         (mode_or_default (mode (method_of op)))], (body_calls op).
    repeat split. discriminate.
Qed.

(** The reactions to a successful open are one run of calls: the transaction,
    then the calls of the body. *)
Lemma on_connected_straight op w db l :
  on_connected w (method_of op) db l
  = match invoke_each w (transaction_call op db :: body_calls op) l with
    | (inl e, l') => (Failed (Thrown e), l')
    | (inr _, l') =>
        (Running {| tx_db := db; tx_stores := stores (method_of op);
                    tx_mode := mode_or_default (mode (method_of op)) |} (initial op), l')
    end.
Proof.
  unfold on_connected, getTransaction_then, transaction_call. simpl. unfold bind, ret.
  destruct (invoke w (Transaction db (stores (method_of op))
                        (mode_or_default (mode (method_of op)))) l) as [[e|[]] l1];
    [reflexivity|].
  rewrite body_straight. unfold bind, ret.
  destruct (invoke_each w (body_calls op) l1) as [[e|[]] l2]; reflexivity.
Qed.

(** No step touches the service object. *)
Lemma step_this w m f e : this (step w m f e) = this f.
Proof.
  unfold step. destruct (on_open_request e), (at_stage f); try reflexivity.
  - destruct (open_request_event (this f) e Pending (log f)) as [[|db|r] l]; try reflexivity.
    destruct (on_connected w m db l); reflexivity.
  - destruct (open_request_event (this f) e (Rejected r) (log f)); reflexivity.
  - destruct (open_request_event (this f) e (Resolved (tx_db tx)) (log f)); reflexivity.
  - destruct (on_event m w e b (log f)); reflexivity.
Qed.

Lemma start_this svc w m : this (start svc w m) = svc.
Proof.
  unfold start. destruct (precheck m); [reflexivity|].
  destruct (_init_ svc w []) as [[|db|r] l]; reflexivity.
Qed.

Lemma perform_this svc w op tr : this (perform svc w op tr) = svc.
Proof.
  apply (perform_ind svc w op (fun _ f => this f = svc)).
  - apply start_this.
  - intros tr' e IH. rewrite step_this. exact IH.
Qed.

(** Every step is one of the moves. *)
Lemma step_moves w op f e : move w op f e (step w (method_of op) f e).
Proof.
  unfold step. destruct f as [svc l st]. simpl.
  destruct (on_open_request e) eqn:He.
  - destruct st as [r| |r|tx b]; simpl.
    + apply move_none. left. exact He.
    + destruct e; try discriminate; simpl.
      * apply (move_open_error w op {| this := svc; log := l; at_stage := Opening |}
                 (OpenError evt) evt); reflexivity.
      * destruct (on_connected_cases op w db l)
          as [H|(ex & pre & post & H & Heq & Hne)]; rewrite H.
        -- apply (move_connected w op {| this := svc; log := l; at_stage := Opening |}
                    (OpenSuccess db) db); reflexivity.
        -- apply (move_thrown w op {| this := svc; log := l; at_stage := Opening |}
                    (OpenSuccess db) db ex pre post); auto.
      * apply (move_upgrade w op {| this := svc; log := l; at_stage := Opening |}
                 (OpenUpgradeNeeded db) db); reflexivity.
      * apply (move_blocked w op {| this := svc; log := l; at_stage := Opening |}
                 OpenBlocked); reflexivity.
    + destruct e; try discriminate; simpl; try (apply move_none; left; reflexivity).
      * apply (move_upgrade w op {| this := svc; log := l; at_stage := Failed r |}
                 (OpenUpgradeNeeded db) db); reflexivity.
      * apply (move_blocked w op {| this := svc; log := l; at_stage := Failed r |}
                 OpenBlocked); reflexivity.
    + destruct e; try discriminate; simpl; try (apply move_none; left; reflexivity).
      * apply (move_upgrade w op {| this := svc; log := l; at_stage := Running tx b |}
                 (OpenUpgradeNeeded db) db); reflexivity.
      * apply (move_blocked w op {| this := svc; log := l; at_stage := Running tx b |}
                 OpenBlocked); reflexivity.
  - destruct st as [r| |r|tx b]; simpl; try (apply move_none; right; reflexivity).
    pose proof (move_handled w op {| this := svc; log := l; at_stage := Running tx b |}
                  e tx b He eq_refl) as H.
    unfold react in H. simpl in H.
    destruct (on_event (method_of op) w e b l). exact H.
Qed.

(** The callbacks are no engine calls. *)
Lemma upgrade_calls_handler op svc db :
  Forall (handler_call op) (request_onupgradeneeded svc db).
Proof.
  unfold request_onupgradeneeded.
  destruct (onVersionChange (idbServiceConfig svc)) as [f|]; [|constructor].
  destruct (f db); repeat constructor; discriminate.
Qed.

Lemma blocked_calls_handler op svc : Forall (handler_call op) (request_onblocked svc).
Proof.
  unfold request_onblocked. destruct (onblocked svc); repeat constructor; discriminate.
Qed.

(** What the handlers of a method add to the log. *)
Lemma react_log op w b l e :
  exists added,
    snd (react w (method_of op) (b, l) e) = l ++ added
    /\ Forall (handler_call op) added.
Proof.
  assert (Hnil : exists added : list action, l = l ++ added /\ Forall (handler_call op) added)
    by (exists []; rewrite app_nil_r; split; [reflexivity | constructor]).
  unfold react. destruct op; simpl in *.
  - destruct e as [| | | | | | |[|k] ?| | |[|k] ?]; simpl; exact Hnil.
  - destruct e as [| | | | | | | |[|k] ?|[|k]|[|k] ?]; simpl; try exact Hnil.
    rewrite invoke_log. exists [Continue]. split; [reflexivity|].
    repeat constructor; discriminate.
  - destruct e as [| | | | | | | |[|k] ?|[|k]|]; simpl; try exact Hnil.
    + exists [ConsoleError evt]. split; [reflexivity|]. repeat constructor; discriminate.
    + rewrite invoke_log. exists [Continue]. split; [reflexivity|].
      repeat constructor; discriminate.
  - destruct e; simpl; exact Hnil.
  - destruct e as [| | | | | | |[|k] ?| | |]; simpl; try exact Hnil.
    unfold replace_ondeleted, bind.
    destruct (invoke_cases w (ObjectStore store) l) as [H|[ex H]]; rewrite H.
    + rewrite invoke_log, <- app_assoc. exists [ObjectStore store; Add v].
      split; [reflexivity|]. repeat constructor; try discriminate.
    + simpl. exists [ObjectStore store]. split; [reflexivity|].
      repeat constructor; discriminate.
  - assert (Hone : forall v s,
               exists added : list action,
                 snd (updateOne w params v s l) = l ++ added
                 /\ Forall (handler_call (UpdateObjectsByIndex store index indexVal
                                            params allMatches)) added).
    { intros v s. unfold updateOne. destruct (assign_params params v) as [o|]; [|exact Hnil].
      destruct (invoke_cases w (Put o) l) as [H|[ex H]]; rewrite H; simpl;
        exists [Put o]; (split; [reflexivity|]);
        repeat constructor; try discriminate; intros _; exists o; reflexivity. }
    destruct e as [| | | | | | |[|k] ?|[|k] ?|[|k]|[|k] ?]; simpl; try exact Hnil;
      destruct (false_by_default allMatches); simpl; try exact Hnil.
    + destruct (Hone result b) as [added [H1 H2]].
      destruct (updateOne w params result b l); simpl in *. eauto.
    + destruct (Hone v b) as [added [H1 H2]].
      destruct (updateOne w params v b l); simpl in *. eauto.
  - exact Hnil.
  - destruct e; simpl; exact Hnil.
Qed.

(** ** The open and upgrade protocol *)

(** C1.  When the engine fires upgrade-needed on the open request of a call,
    the adapter asks [onVersionChange] about the database and invokes
    [onUpgradeNeeded] on it if and only if the answer is [true]; a
    configuration without [onVersionChange] gets from the constructor a
    default that answers [true], so [onUpgradeNeeded] is then always
    invoked. *)
Theorem upgrade_needed_consults_version_change :
  forall (cfg : IDBServiceConfig) (w : browser) (op : operation)
         (tr : list event) (db : handle),
    has_open_request (perform (constructor cfg) w op tr) = true ->
    exists invoked : list action,
      log (perform (constructor cfg) w op (tr ++ [OpenUpgradeNeeded db]))
      = log (perform (constructor cfg) w op tr) ++ invoked
      /\ invoked = request_onupgradeneeded (constructor cfg) db
      /\ (forall f, onVersionChange cfg = Some f ->
            (In (OnUpgradeNeeded db) invoked <-> f db = true))
      /\ (onVersionChange cfg = None ->
            onVersionChange (idbServiceConfig (constructor cfg)) = Some (fun _ => true)
            /\ In (OnUpgradeNeeded db) invoked).
Proof.
  intros cfg w op tr db Hreq.
  exists (request_onupgradeneeded (constructor cfg) db).
  split; [|split; [reflexivity|split]].
  - rewrite perform_snoc.
    pose proof (perform_this (constructor cfg) w op tr) as Hthis.
    unfold has_open_request in Hreq. unfold step. simpl.
    destruct (at_stage (perform (constructor cfg) w op tr)) as [r| |r|tx b];
      try discriminate; simpl; rewrite Hthis; reflexivity.
  - intros f Hf. unfold request_onupgradeneeded. simpl. rewrite Hf.
    destruct (f db); simpl; split; intros H; try discriminate; auto.
    destruct H as [H|[]]; discriminate.
  - intros Hnone. unfold request_onupgradeneeded. simpl. rewrite Hnone.
    split; [reflexivity|]. simpl. auto.
Qed.

Lemma upgrade_needed_consults_version_change_witness :
  has_open_request (perform (constructor sample_config) calm_browser (ClearStore "n") [])
  = true
  /\ exists invoked : list action,
      log (perform (constructor sample_config) calm_browser (ClearStore "n")
             ([] ++ [OpenUpgradeNeeded 7]))
      = log (perform (constructor sample_config) calm_browser (ClearStore "n") [])
          ++ invoked
      /\ invoked = [OnVersionChange 7; OnUpgradeNeeded 7].
Proof.
  split; [reflexivity|].
  destruct (upgrade_needed_consults_version_change sample_config calm_browser
              (ClearStore "n") [] 7 eq_refl) as [invoked [H1 [H2 _]]].
  exists invoked. split; [exact H1 | exact H2].
Defined.

(** ** Reaching the body *)

(** With IndexedDB there and nothing thrown, a call that passes its prechecks
    has made one [open], and waits. *)
Lemma start_calm svc w m :
  calm w -> precheck m = None ->
  start svc w m =
    {| this := svc;
       log := [Open (this_database svc) (this_version svc)];
       at_stage := Opening |}.
Proof.
  intros Hw Hpre. unfold start, _init_. rewrite Hpre, (proj1 Hw). simpl.
  rewrite (invoke_calm _ _ _ Hw). reflexivity.
Qed.

Lemma body_calm op w tx l :
  calm w -> body (method_of op) w tx l = (inr (initial op), l ++ body_calls op).
Proof.
  intros Hw. rewrite body_straight. unfold bind, ret.
  rewrite (invoke_each_calm _ _ _ Hw). reflexivity.
Qed.

(** Then, when the open request succeeds, the transaction is asked for and
    the body runs. *)
Lemma perform_connected svc w op db tr :
  calm w -> precheck (method_of op) = None ->
  perform svc w op (OpenSuccess db :: tr) =
    fold_left (step w (method_of op)) tr
      {| this := svc;
         log := Open (this_database svc) (this_version svc)
                  :: transaction_call op db :: body_calls op;
         at_stage :=
           Running {| tx_db := db; tx_stores := stores (method_of op);
                      tx_mode := mode_or_default (mode (method_of op)) |}
                   (initial op) |}.
Proof.
  intros Hw Hpre. unfold perform, run. simpl. rewrite (start_calm _ _ _ Hw Hpre).
  unfold step at 2. simpl. unfold on_connected, getTransaction_then, bind, ret.
  rewrite (invoke_calm _ _ _ Hw). rewrite (body_calm _ _ _ _ Hw). reflexivity.
Qed.

(** A running method takes the events of its transaction and requests. *)
Lemma step_running w m (f : flight (mstate m)) tx b e :
  at_stage f = Running tx b ->
  on_open_request e = false ->
  step w m f e =
    {| this := this f;
       log := snd (react w m (b, log f) e);
       at_stage := Running tx (fst (react w m (b, log f) e)) |}.
Proof.
  intros Hst He. unfold step, react. rewrite Hst, He. simpl.
  destruct (on_event m w e b (log f)); reflexivity.
Qed.

(** ** [getObjectByKey] *)

(** C5.  Once the get request of [getObjectByKey] exists and while its promise
    is pending, a success event of the request resolves the promise with the
    cast applied to the result, which is the result itself when [_cast] is
    left out and what the function makes of it when one is supplied, and an
    error event of the request rejects it with that event. *)
Theorem getObjectByKey_settles :
  forall (svc : IDBService) (w : browser) (stores : scope) (store : string)
         (keyRange : value) (_cast : option (value -> value))
         (tr : list event) (result : value) (errorEvent : event_id),
    is_running (perform svc w (GetObjectByKey stores store keyRange _cast) tr) = true ->
    outcome (perform svc w (GetObjectByKey stores store keyRange _cast) tr) = Pending ->
    outcome (perform svc w (GetObjectByKey stores store keyRange _cast)
               (tr ++ [ReqSuccess 0 result]))
    = Resolved (JVal (cast_or_default _cast result))
    /\ (_cast = None ->
        outcome (perform svc w (GetObjectByKey stores store keyRange _cast)
                   (tr ++ [ReqSuccess 0 result]))
        = Resolved (JVal result))
    /\ (forall f,
           _cast = Some f ->
           outcome (perform svc w (GetObjectByKey stores store keyRange _cast)
                      (tr ++ [ReqSuccess 0 result]))
           = Resolved (JVal (f result)))
    /\ outcome (perform svc w (GetObjectByKey stores store keyRange _cast)
                  (tr ++ [ReqError 0 errorEvent]))
       = Rejected (EngineEvent errorEvent).
Proof.
  intros svc w stores store keyRange _cast tr result errorEvent Hrun Hpend.
  rewrite !perform_snoc.
  unfold is_running, outcome in *. unfold step.
  destruct (at_stage (perform svc w (GetObjectByKey stores store keyRange _cast) tr))
    as [r| |r|tx p]; try discriminate.
  simpl in *. subst p. simpl.
  repeat split; [intros -> | intros f ->]; reflexivity.
Qed.

Lemma getObjectByKey_settles_witness :
  let op := GetObjectByKey (OneStore "n") "n" (VNum 1) None in
  is_running (perform sample_service calm_browser op [OpenSuccess 7]) = true
  /\ outcome (perform sample_service calm_browser op [OpenSuccess 7]) = Pending
  /\ outcome (perform sample_service calm_browser op
                ([OpenSuccess 7] ++ [ReqSuccess 0 (VStr "a")]))
     = Resolved (JVal (VStr "a"))
  /\ outcome (perform sample_service calm_browser op
                ([OpenSuccess 7] ++ [ReqError 0 3]))
     = Rejected (EngineEvent 3)
  /\ outcome (perform sample_service calm_browser
                (GetObjectByKey (OneStore "n") "n" (VNum 1)
                   (Some (fun v => VObj [("row", v)])))
                ([OpenSuccess 7] ++ [ReqSuccess 0 (VStr "a")]))
     = Resolved (JVal (VObj [("row", VStr "a")])).
Proof.
  pose proof (getObjectByKey_settles sample_service calm_browser (OneStore "n") "n"
                (VNum 1) None [OpenSuccess 7] (VStr "a") 3 eq_refl eq_refl)
    as (H1 & _ & _ & H3).
  pose proof (getObjectByKey_settles sample_service calm_browser (OneStore "n") "n"
                (VNum 1) (Some (fun v => VObj [("row", v)])) [OpenSuccess 7]
                (VStr "a") 3 eq_refl eq_refl)
    as (_ & _ & Hcast & _).
  split; [reflexivity | split; [reflexivity | split; [exact H1 | split; [exact H3|]]]].
  exact (Hcast _ eq_refl).
Defined.

(** ** The shape of the log *)

Lemma body_calls_inner op : Forall inner_call (body_calls op).
Proof.
  destruct op; simpl; repeat constructor.
  - destruct (false_by_default allMatches); reflexivity.
  - destruct (false_by_default allMatches); reflexivity.
  - destruct (false_by_default allMatches); reflexivity.
  - induction data; simpl; repeat constructor; assumption.
Qed.

Lemma handler_call_inner op c : handler_call op c -> inner_call c.
Proof. intros (H1 & H2 & H3 & _). repeat split; assumption. Qed.

Lemma filter_none {A} (f : A -> bool) l :
  Forall (fun c => f c = false) l -> List.filter f l = [].
Proof.
  induction 1 as [|c l Hc _ IH]; simpl; [reflexivity|]. rewrite Hc. exact IH.
Qed.

Lemma requests_app a b : requests (a ++ b) = requests a ++ requests b.
Proof. apply List.filter_app. Qed.

Lemma transactions_app a b : transactions (a ++ b) = transactions a ++ transactions b.
Proof. apply List.filter_app. Qed.

Lemma inner_transactions l : Forall inner_call l -> transactions l = [].
Proof.
  intros H. apply filter_none. eapply List.Forall_impl; [|exact H].
  intros c (_ & _ & Hc). exact Hc.
Qed.

Lemma inner_open_close l :
  Forall inner_call l -> Forall (fun c => is_open c = false /\ is_close c = false) l.
Proof. apply List.Forall_impl. intros c (H1 & H2 & _). split; assumption. Qed.

Lemma handler_requests op l :
  Forall (handler_call op) l -> Forall (follow_up op) (requests l).
Proof.
  induction 1 as [|c l Hc _ IH]; simpl; [constructor|].
  unfold requests in *. simpl. destruct (is_request c) eqn:Hr; [|exact IH].
  constructor; [|exact IH]. destruct Hc as (_ & _ & _ & Hf). apply Hf, Hr.
Qed.

Lemma upgrade_quiet svc db :
  requests (request_onupgradeneeded svc db) = []
  /\ Forall inner_call (request_onupgradeneeded svc db).
Proof.
  unfold request_onupgradeneeded.
  destruct (onVersionChange (idbServiceConfig svc)) as [f|]; [|split; [reflexivity|constructor]].
  destruct (f db); split; try reflexivity; repeat constructor.
Qed.

Lemma blocked_quiet svc :
  requests (request_onblocked svc) = [] /\ Forall inner_call (request_onblocked svc).
Proof.
  unfold request_onblocked. destruct (onblocked svc); split; try reflexivity;
    repeat constructor.
Qed.

Lemma stage_shape_later w op tr e st rest :
  stage_shape w op tr st rest -> stage_shape w op (tr ++ [e]) st rest.
Proof.
  destruct st as [r| |r|tx b]; simpl; try tauto.
  - intros [Hr [H|(db & post & Hin & H)]]; split; auto.
    right. exists db, post. rewrite in_app_iff. tauto.
  - intros (Hr & Htx & Hin & H). repeat split; try tauto.
    rewrite in_app_iff. tauto.
Qed.

(** Callbacks leave the shape as it is, wherever an open request exists. *)
Lemma stage_shape_callbacks w op tr st rest cb :
  requests cb = [] -> Forall inner_call cb ->
  match st with Refused _ => False | _ => True end ->
  stage_shape w op tr st rest -> stage_shape w op tr st (rest ++ cb).
Proof.
  intros Hq Hi Hst. unfold stage_shape.
  rewrite requests_app, transactions_app, Hq, (inner_transactions _ Hi), !app_nil_r.
  destruct st; [destruct Hst | | |]; tauto.
Qed.

Lemma start_log_shape svc w op : log_shape svc w op [] (start svc w (method_of op)).
Proof.
  unfold log_shape, opening_calls.
  destruct (reaches_open w op) eqn:Hr; pose proof Hr as Hr'; unfold reaches_open in Hr';
    unfold start, _init_;
    destruct (precheck (method_of op)) as [r|]; try discriminate; simpl;
    try (exists []; repeat split; auto; fail).
  - rewrite Hr'. simpl.
    destruct (invoke_cases w (Open (this_database svc) (this_version svc)) [])
      as [H|[ex H]]; rewrite H; simpl; exists []; repeat split; auto.
  - rewrite Hr'. simpl. exists []. repeat split; auto.
Qed.

Lemma step_log_shape svc w op tr f e :
  log_shape svc w op tr f ->
  log_shape svc w op (tr ++ [e]) (step w (method_of op) f e).
Proof.
  intros (rest & Hlog & Hrest & Hst).
  apply (stage_shape_later w op tr e) in Hst.
  destruct (step_moves w op f e)
    as [Hnone|db He Hreq| He Hreq |evt He Hopen|db He Hopen
       |db ex pre post He Hopen Hpre Hne|tx b He Hrun]; unfold log_shape; simpl.
  - exists rest. repeat split; assumption.
  - destruct (upgrade_quiet (this f) db) as [Hq Hi].
    exists (rest ++ request_onupgradeneeded (this f) db).
    rewrite Hlog, app_assoc. split; [reflexivity|]. split.
    { apply Forall_app. split; [assumption | apply inner_open_close, Hi]. }
    apply stage_shape_callbacks; try assumption.
    unfold has_open_request in Hreq. destruct (at_stage f); try discriminate; exact I.
  - destruct (blocked_quiet (this f)) as [Hq Hi].
    exists (rest ++ request_onblocked (this f)).
    rewrite Hlog, app_assoc. split; [reflexivity|]. split.
    { apply Forall_app. split; [assumption | apply inner_open_close, Hi]. }
    apply stage_shape_callbacks; try assumption.
    unfold has_open_request in Hreq. destruct (at_stage f); try discriminate; exact I.
  - rewrite Hopen in Hst. exists rest. simpl in *. repeat split; try tauto.
  - rewrite Hopen in Hst. destruct Hst as (Hr & Ht & Hq).
    pose proof (body_calls_inner op) as Hb.
    exists (rest ++ transaction_call op db :: body_calls op).
    rewrite Hlog, app_assoc. split; [reflexivity|]. split.
    { apply Forall_app. split; [assumption|]. constructor; [split; reflexivity|].
      apply inner_open_close, Hb. }
    split; [assumption|]. split; [reflexivity|]. split.
    { rewrite in_app_iff, He. right. left. reflexivity. }
    split.
    { rewrite transactions_app, Ht. simpl. unfold transactions at 1. simpl.
      fold (transactions (body_calls op)). rewrite (inner_transactions _ Hb). reflexivity. }
    exists []. rewrite requests_app, Hq, app_nil_r. simpl. split; [reflexivity|constructor].
  - rewrite Hopen in Hst. destruct Hst as (Hr & Ht & Hq).
    pose proof (body_calls_inner op) as Hb.
    destruct pre as [|c pre']; [congruence|]. simpl in Hpre. injection Hpre as <- Hbody.
    rewrite Hbody in Hb. apply Forall_app in Hb. destruct Hb as [Hb1 Hb2].
    exists (rest ++ transaction_call op db :: pre').
    rewrite Hlog, app_assoc. split; [reflexivity|]. split.
    { apply Forall_app. split; [assumption|]. constructor; [split; reflexivity|].
      apply inner_open_close, Hb1. }
    split; [assumption|]. right. exists db, (requests post). split.
    { rewrite in_app_iff, He. right. left. reflexivity. }
    split.
    { rewrite transactions_app, Ht. simpl. unfold transactions at 1. simpl.
      fold (transactions pre'). rewrite (inner_transactions _ Hb1). reflexivity. }
    rewrite Hbody, !requests_app, Hq. reflexivity.
  - rewrite Hrun in Hst. destruct Hst as (Hr & Htx & Hin & Ht & later & Hq & Hlater).
    destruct (react_log op w b (log f) e) as (added & Hadd & Hcalls).
    rewrite Hadd. exists (rest ++ added). rewrite Hlog, app_assoc.
    split; [reflexivity|].
    assert (Hinner : Forall inner_call added)
      by (eapply List.Forall_impl; [|exact Hcalls]; apply handler_call_inner).
    split.
    { apply Forall_app. split; [assumption | apply inner_open_close, Hinner]. }
    split; [assumption|]. split; [assumption|]. split; [assumption|].
    split.
    { rewrite transactions_app, Ht, (inner_transactions _ Hinner). reflexivity. }
    exists (later ++ requests added). rewrite requests_app, Hq, app_assoc.
    split; [reflexivity|]. apply Forall_app. split; [assumption|].
    apply handler_requests, Hcalls.
Qed.

Lemma perform_log_shape svc w op tr : log_shape svc w op tr (perform svc w op tr).
Proof.
  apply (perform_ind svc w op (log_shape svc w op)).
  - apply start_log_shape.
  - intros tr' e IH. apply step_log_shape, IH.
Qed.

(** ** Outcomes along a call *)

(** Once the body has run, the method stays on its transaction. *)
Lemma step_stays_running w m (f : flight (mstate m)) tx b e :
  at_stage f = Running tx b ->
  exists b', at_stage (step w m f e) = Running tx b'.
Proof.
  intros Hst. unfold step. rewrite Hst. destruct (on_open_request e).
  - destruct (open_request_event _ _ _ _). eauto.
  - destruct (on_event m w e b (log f)). eauto.
Qed.

Lemma fold_stays_running w m tr : forall (f : flight (mstate m)) tx b,
  at_stage f = Running tx b ->
  exists b', at_stage (fold_left (step w m) tr f) = Running tx b'.
Proof.
  induction tr as [|e tr IH]; intros f tx b Hst; simpl; [eauto|].
  destruct (step_stays_running w m f tx b e Hst) as [b' Hb'].
  eapply IH, Hb'.
Qed.

(** With nothing thrown, the success of the open request starts the method
    on the connection it delivers. *)
Lemma connected_running svc w op db tr :
  calm w -> precheck (method_of op) = None ->
  exists b,
    at_stage (perform svc w op (OpenSuccess db :: tr))
    = Running {| tx_db := db; tx_stores := stores (method_of op);
                 tx_mode := mode_or_default (mode (method_of op)) |} b.
Proof.
  intros Hw Hpre. rewrite (perform_connected _ _ _ _ _ Hw Hpre).
  eapply fold_stays_running. reflexivity.
Qed.

Lemma promise_all_pending {A} {B} (l : list B) :
  @promise_all A (map (fun _ => Pending) l) = Resolved [] /\ l = []
  \/ @promise_all A (map (fun _ => Pending) l) = Pending.
Proof.
  induction l as [|x l IH]; simpl; [left; split; reflexivity|].
  right. destruct IH as [[-> _]| ->]; reflexivity.
Qed.

(** The promise a body returns is pending. *)
Lemma initial_pending op : settled (method_of op) (initial op) = Pending.
Proof.
  destruct op; try reflexivity. simpl.
  destruct (@promise_all_pending unit _ data) as [[-> _]| ->]; reflexivity.
Qed.

(** What one event does to the promise of a call. *)
Lemma outcome_moves w op (f : flight (mstate (method_of op))) e :
  outcome (step w (method_of op) f e) = outcome f
  \/ (outcome f = Pending
      /\ ((exists evt, e = OpenError evt
                       /\ outcome (step w (method_of op) f e) = Rejected (EngineEvent evt))
          \/ (exists db, e = OpenSuccess db
                         /\ (outcome (step w (method_of op) f e) = Pending
                             \/ exists ex, outcome (step w (method_of op) f e)
                                           = Rejected (Thrown ex)))))
  \/ (exists tx b,
        on_open_request e = false /\ at_stage f = Running tx b
        /\ outcome (step w (method_of op) f e)
           = settled (method_of op) (fst (react w (method_of op) (b, log f) e))).
Proof.
  destruct (step_moves w op f e)
    as [Hnone|db He Hreq| He Hreq |evt He Hopen|db He Hopen
       |db ex pre post He Hopen Hpre Hne|tx b He Hrun]; unfold outcome; simpl; auto.
  - right. left. rewrite Hopen. eauto.
  - right. left. rewrite Hopen. split; [reflexivity|]. right. exists db. split; [assumption|].
    left. apply initial_pending.
  - right. left. rewrite Hopen. eauto 8.
  - right. right. eauto.
Qed.

Lemma requests_opening svc w op : requests (opening_calls svc w op) = [].
Proof. unfold opening_calls. destruct (reaches_open w op); reflexivity. Qed.

Lemma transactions_opening svc w op : transactions (opening_calls svc w op) = [].
Proof. unfold opening_calls. destruct (reaches_open w op); reflexivity. Qed.

(** The requests and the transaction of a running method. *)
Lemma running_requests svc w op tr tx b :
  at_stage (perform svc w op tr) = Running tx b ->
  In (OpenSuccess (tx_db tx)) tr
  /\ transactions (log (perform svc w op tr)) = [transaction_call op (tx_db tx)]
  /\ exists later,
      requests (log (perform svc w op tr)) = requests (body_calls op) ++ later
      /\ Forall (follow_up op) later.
Proof.
  intros Hst. destruct (perform_log_shape svc w op tr) as (rest & Hlog & _ & Hshape).
  rewrite Hst in Hshape. destruct Hshape as (_ & _ & Hin & Ht & later & Hq & Hl).
  rewrite Hlog, transactions_app, requests_app, transactions_opening, requests_opening.
  simpl. eauto.
Qed.

(** ** [removeObjectsByKey] *)

Lemma removeObjectsByKey_resolved_after_complete svc w stores store range tr :
  forall x,
    outcome (perform svc w (RemoveObjectsByKey stores store range) tr) = Resolved x ->
    x = JVal VUndefined /\ In TxComplete tr.
Proof.
  apply (perform_ind svc w (RemoveObjectsByKey stores store range)
           (fun tr f => forall x, outcome f = Resolved x ->
                                  x = JVal VUndefined /\ In TxComplete tr)).
  - unfold outcome, start. simpl. destruct (_init_ svc w []) as [[|db|r] l]; discriminate.
  - intros tr' e IH x. rewrite in_app_iff.
    destruct (outcome_moves w (RemoveObjectsByKey stores store range)
                (perform svc w (RemoveObjectsByKey stores store range) tr') e)
      as [H|[[Hp [(evt & He & H)|(db & He & [H|[ex H]])]]|(tx & b & He & Hst & H)]];
      rewrite H; try discriminate.
    + intros Hx. destruct (IH x Hx). tauto.
    + unfold outcome in IH. rewrite Hst in IH. simpl in *.
      destruct e; simpl; try discriminate He;
        try (intros Hx; destruct (IH x Hx); tauto).
      * destruct b; simpl; intros Hx; try discriminate.
        -- injection Hx as <-. split; [reflexivity|]. right. left. reflexivity.
        -- destruct (IH x Hx). tauto.
      * destruct b; simpl; intros Hx; try discriminate.
        destruct (IH x Hx). tauto.
Qed.

(** C7.  [removeObjectsByKey] makes one request, a delete of the range it was
    given, in one read-write transaction.  Its promise is resolved only with
    no value and only once the complete event of the transaction has fired;
    while it is pending, the complete event resolves it and an error event of
    the transaction rejects it with that event. *)
Theorem removeObjectsByKey_waits_for_completion :
  forall (svc : IDBService) (w : browser) (stores : scope) (store : string)
         (range : value) (db : handle),
    calm w ->
    (forall tr,
        requests (log (perform svc w (RemoveObjectsByKey stores store range)
                         (OpenSuccess db :: tr)))
        = [Delete range]
        /\ transactions (log (perform svc w (RemoveObjectsByKey stores store range)
                                (OpenSuccess db :: tr)))
           = [Transaction db stores "readwrite"])
    /\ (forall tr x,
          outcome (perform svc w (RemoveObjectsByKey stores store range) tr) = Resolved x ->
          x = JVal VUndefined /\ In TxComplete tr)
    /\ (forall tr,
          outcome (perform svc w (RemoveObjectsByKey stores store range)
                     (OpenSuccess db :: tr)) = Pending ->
          outcome (perform svc w (RemoveObjectsByKey stores store range)
                     ((OpenSuccess db :: tr) ++ [TxComplete]))
          = Resolved (JVal VUndefined)
          /\ forall errorEvt,
              outcome (perform svc w (RemoveObjectsByKey stores store range)
                         ((OpenSuccess db :: tr) ++ [TxError errorEvt]))
              = Rejected (EngineEvent errorEvt))
    /\ outcome (perform svc w (RemoveObjectsByKey stores store range) [OpenSuccess db])
       = Pending.
Proof.
  intros svc w stores store range db Hw.
  split; [|split; [|split]].
  - intros tr.
    destruct (connected_running svc w (RemoveObjectsByKey stores store range) db tr
                Hw eq_refl) as [b Hst].
    destruct (running_requests _ _ _ _ _ _ Hst) as (_ & Ht & later & Hq & Hl).
    rewrite Ht, Hq. simpl in *. split; [|reflexivity].
    destruct later as [|c later]; [reflexivity|]. inversion Hl as [|? ? []].
  - intros tr x. apply removeObjectsByKey_resolved_after_complete.
  - intros tr Hp.
    destruct (connected_running svc w (RemoveObjectsByKey stores store range) db tr
                Hw eq_refl) as [b Hst].
    split; [|intros errorEvt]; rewrite perform_snoc;
      unfold outcome in *; unfold step; rewrite Hst in *; simpl in *; subst b;
      reflexivity.
  - rewrite (perform_connected svc w (RemoveObjectsByKey stores store range) db []
               Hw eq_refl). reflexivity.
Qed.

Lemma removeObjectsByKey_waits_for_completion_witness :
  calm calm_browser
  /\ requests (log (perform sample_service calm_browser
                      (RemoveObjectsByKey (OneStore "n") "n" (VNum 1))
                      (OpenSuccess 7 :: [TxComplete])))
     = [Delete (VNum 1)]
  /\ outcome (perform sample_service calm_browser
                (RemoveObjectsByKey (OneStore "n") "n" (VNum 1))
                ((OpenSuccess 7 :: []) ++ [TxComplete]))
     = Resolved (JVal VUndefined).
Proof.
  assert (Hw : calm calm_browser) by (split; reflexivity).
  destruct (removeObjectsByKey_waits_for_completion sample_service calm_browser
              (OneStore "n") "n" (VNum 1) 7 Hw) as (H1 & _ & H3 & _).
  split; [exact Hw|]. split.
  - exact (proj1 (H1 [TxComplete])).
  - exact (proj1 (H3 [] eq_refl)).
Defined.

(** ** [getObjects] *)

Lemma getObjects_visits svc w stores store keyRange reverse _cast tx vs : forall s l,
  fold_left (step w (getObjects stores store keyRange reverse _cast))
    (map (CursorAt 0) vs)
    {| this := svc; log := l; at_stage := Running tx s |}
  = {| this := svc;
       log := l ++ repeat Continue (length vs);
       at_stage :=
         Running tx {| res := res s ++ map (cast_or_default _cast) vs;
                       cursor_promise := cursor_promise s |} |}.
Proof.
  induction vs as [|v vs IH]; intros s l; simpl.
  - rewrite !app_nil_r. destruct s; reflexivity.
  - unfold step at 2. simpl. rewrite invoke_log, IH. simpl.
    rewrite <- !app_assoc. reflexivity.
Qed.

(** C4.  Whatever records the cursor of [getObjects] visits: while it is on
    records the promise is pending and the cursor is advanced after each;
    when it is exhausted the promise resolves with the array of the values
    visited, in the order visited, each through the cast (the values
    themselves when [_cast] is left out, what the function makes of each when
    one is supplied); and an error event of the cursor request rejects the
    promise instead, with that event. *)
Theorem getObjects_collects :
  forall (svc : IDBService) (w : browser) (stores : scope) (store : string)
         (keyRange : value) (reverse : option bool) (_cast : option (value -> value))
         (db : handle) (visited : list value),
    calm w ->
    outcome (perform svc w (GetObjects stores store keyRange reverse _cast)
               (OpenSuccess db :: map (CursorAt 0) visited))
    = Pending
    /\ log (perform svc w (GetObjects stores store keyRange reverse _cast)
              (OpenSuccess db :: map (CursorAt 0) visited))
       = [Open (this_database svc) (this_version svc);
          Transaction db stores "readonly";
          ObjectStore store;
          OpenCursor keyRange (getObjects_direction (false_by_default reverse))]
         ++ repeat Continue (length visited)
    /\ outcome (perform svc w (GetObjects stores store keyRange reverse _cast)
                  (OpenSuccess db :: map (CursorAt 0) visited ++ [CursorEnd 0]))
       = Resolved (array_of (map (cast_or_default _cast) visited))
    /\ (_cast = None ->
        outcome (perform svc w (GetObjects stores store keyRange reverse _cast)
                   (OpenSuccess db :: map (CursorAt 0) visited ++ [CursorEnd 0]))
        = Resolved (array_of visited))
    /\ (forall f,
           _cast = Some f ->
           outcome (perform svc w (GetObjects stores store keyRange reverse _cast)
                      (OpenSuccess db :: map (CursorAt 0) visited ++ [CursorEnd 0]))
           = Resolved (array_of (map f visited)))
    /\ forall errorEvt,
        outcome (perform svc w (GetObjects stores store keyRange reverse _cast)
                   (OpenSuccess db :: map (CursorAt 0) visited ++ [ReqError 0 errorEvt]))
        = Rejected (EngineEvent errorEvt).
Proof.
  intros svc w stores store keyRange reverse _cast db visited Hw.
  assert (Hrun : perform svc w (GetObjects stores store keyRange reverse _cast)
                   (OpenSuccess db :: map (CursorAt 0) visited)
                 = {| this := svc;
                      log := [Open (this_database svc) (this_version svc);
                              Transaction db stores "readonly";
                              ObjectStore store;
                              OpenCursor keyRange
                                (getObjects_direction (false_by_default reverse))]
                             ++ repeat Continue (length visited);
                      at_stage :=
                        Running {| tx_db := db; tx_stores := stores;
                                   tx_mode := "readonly" |}
                                {| res := map (cast_or_default _cast) visited;
                                   cursor_promise := Pending |} |}).
  { rewrite (perform_connected svc w (GetObjects stores store keyRange reverse _cast)
               db _ Hw eq_refl).
    simpl. apply (getObjects_visits svc w stores store keyRange reverse _cast). }
  assert (Hend : outcome (perform svc w (GetObjects stores store keyRange reverse _cast)
                            (OpenSuccess db :: map (CursorAt 0) visited ++ [CursorEnd 0]))
                 = Resolved (array_of (map (cast_or_default _cast) visited))).
  { rewrite app_comm_cons, perform_snoc, Hrun. reflexivity. }
  split; [rewrite Hrun; reflexivity|].
  split; [rewrite Hrun; reflexivity|].
  split; [exact Hend|].
  split; [|split].
  - intros ->. rewrite Hend. simpl. unfold cast. rewrite map_id. reflexivity.
  - intros f ->. rewrite Hend. reflexivity.
  - intros errorEvt. rewrite app_comm_cons, perform_snoc, Hrun. reflexivity.
Qed.

Lemma getObjects_collects_witness :
  calm calm_browser
  /\ outcome (perform sample_service calm_browser
                (GetObjects (OneStore "n") "n" VUndefined None None)
                (OpenSuccess 7 :: map (CursorAt 0) [VNum 3; VNum 2; VNum 1]
                   ++ [CursorEnd 0]))
     = Resolved (array_of [VNum 3; VNum 2; VNum 1])
  /\ outcome (perform sample_service calm_browser
                (GetObjects (OneStore "n") "n" VUndefined None
                   (Some (fun v => VObj [("row", v)])))
                (OpenSuccess 7 :: map (CursorAt 0) [VNum 3; VNum 2] ++ [CursorEnd 0]))
     = Resolved (array_of [VObj [("row", VNum 3)]; VObj [("row", VNum 2)]]).
Proof.
  assert (Hw : calm calm_browser) by (split; reflexivity).
  split; [exact Hw|]. split.
  - exact (proj1 (proj2 (proj2 (getObjects_collects sample_service calm_browser
                                  (OneStore "n") "n" VUndefined None None 7
                                  [VNum 3; VNum 2; VNum 1] Hw)))).
  - destruct (getObjects_collects sample_service calm_browser (OneStore "n") "n"
                VUndefined None (Some (fun v => VObj [("row", v)])) 7
                [VNum 3; VNum 2] Hw) as (_ & _ & _ & _ & Hcast & _).
    exact (Hcast _ eq_refl).
Defined.

(** ** The direction of the cursors *)

(** A handler that calls [continue()] lets the engine go on. *)
Lemma continued l : existsb is_continue (drop (length l) (l ++ [Continue])) = true.
Proof. rewrite drop_app_length. reflexivity. Qed.

Ltac serve_all IH :=
  let v := fresh "v" in
  let vs := fresh "vs" in
  intros vs; induction vs as [|v vs IH]; intros s l; simpl;
  [ rewrite !app_nil_r; reflexivity
  | unfold react; simpl; rewrite invoke_log, continued, IH; simpl;
    rewrite <- !app_assoc; reflexivity ].

Lemma getObjects_served w stores store keyRange reverse _cast : forall vs s l,
  serve_cursor w (getObjects stores store keyRange reverse _cast) vs (s, l)
  = ({| res := res s ++ map (cast_or_default _cast) vs;
        cursor_promise := resolve tt (cursor_promise s) |},
     l ++ repeat Continue (length vs)).
Proof. serve_all IH. Qed.

Lemma getObjectsByIndex_served w stores store index range reverse _cast : forall vs s l,
  serve_cursor w (getObjectsByIndex stores store index range reverse _cast) vs (s, l)
  = ({| res := res s ++ map (cast_or_default _cast) vs;
        cursor_promise := resolve tt (cursor_promise s) |},
     l ++ repeat Continue (length vs)).
Proof. serve_all IH. Qed.

Lemma compiled_getObjects_served w stores store params : forall vs s l,
  serve_cursor w (Compiled.getObjects stores store params) vs (s, l)
  = ({| res := res s ++ map (Compiled.getObjects_cast params) vs;
        cursor_promise := resolve tt (cursor_promise s) |},
     l ++ repeat Continue (length vs)).
Proof. serve_all IH. Qed.

(** C8.  [getObjects] opens its cursor with ["prev"] when [reverse] is false
    or left out and with the default direction when it is true;
    [getObjectsByIndex], like the compiled [getObjects], opens its cursor with
    ["prev"] exactly when [reverse] is true.  So with the same [reverse],
    [getObjects] returns the records of the store in the order opposite to
    that of the compiled [getObjects]: against the order of their keys unless
    [reverse] is true.  [getObjectsByIndex] returns the records of the index
    in the order of the index unless [reverse] is true, and against it then;
    that is the order opposite to that of [getObjects] where the index lists
    the same records in the order of their keys. *)
Theorem getObjects_direction_is_inverted :
  forall (w : browser) (stores : scope) (store index : string) (range : value)
         (reverse : option bool) (_cast : option (value -> value))
         (tx : IDBTransaction) (records : store_records),
    calm w ->
    let fn := cast_or_default _cast in
    let params := Some {| Compiled.reverse := reverse;
                          Compiled.values := range;
                          Compiled.castOp := _cast |} in
    let typescript := getObjects stores store range reverse _cast in
    let indexed := getObjectsByIndex stores store index range reverse _cast in
    let compiled := Compiled.getObjects stores store params in
    let keys := by_key records range in
    let entries := by_index records index range in
    (reverse = Some true ->
     cursor_of w typescript tx
     = Some {| cursor_index := None; cursor_range := range; cursor_direction := None |}
     /\ cursor_of w indexed tx
        = Some {| cursor_index := Some index; cursor_range := range;
                  cursor_direction := Some prev |}
     /\ cursor_of w compiled tx
        = Some {| cursor_index := None; cursor_range := range;
                  cursor_direction := Some prev |}
     /\ traverse w typescript tx records = Resolved (array_of (map fn keys))
     /\ traverse w indexed tx records = Resolved (array_of (map fn (rev entries)))
     /\ traverse w compiled tx records = Resolved (array_of (map fn (rev keys))))
    /\ (reverse = Some false \/ reverse = None ->
        cursor_of w typescript tx
        = Some {| cursor_index := None; cursor_range := range;
                  cursor_direction := Some prev |}
        /\ cursor_of w indexed tx
           = Some {| cursor_index := Some index; cursor_range := range;
                     cursor_direction := None |}
        /\ cursor_of w compiled tx
           = Some {| cursor_index := None; cursor_range := range;
                     cursor_direction := None |}
        /\ traverse w typescript tx records = Resolved (array_of (map fn (rev keys)))
        /\ traverse w indexed tx records = Resolved (array_of (map fn entries))
        /\ traverse w compiled tx records = Resolved (array_of (map fn keys)))
    /\ (exists visited,
           traverse w typescript tx records = Resolved (array_of (map fn (rev visited)))
           /\ traverse w compiled tx records = Resolved (array_of (map fn visited)))
    /\ (entries = keys ->
        exists visited,
          traverse w typescript tx records = Resolved (array_of (map fn (rev visited)))
          /\ traverse w indexed tx records = Resolved (array_of (map fn visited))).
Proof.
  intros w stores store index range reverse _cast tx records Hw
         fn params typescript indexed compiled keys entries.
  assert (Hts : cursor_of w typescript tx
                = Some {| cursor_index := None; cursor_range := range;
                          cursor_direction :=
                            if false_by_default reverse then None else Some prev |}
                /\ traverse w typescript tx records
                   = Resolved (array_of (map fn (if false_by_default reverse
                                                 then keys else rev keys)))).
  { unfold cursor_of, traverse, typescript. simpl. unfold bind, ret.
    rewrite !(invoke_calm _ _ _ Hw). simpl. rewrite getObjects_served.
    rewrite keyRange_or_undefined. unfold getObjects_direction, cursor_visits.
    destruct (false_by_default reverse); simpl; split; reflexivity. }
  assert (Hix : cursor_of w indexed tx
                = Some {| cursor_index := Some index; cursor_range := range;
                          cursor_direction :=
                            if false_by_default reverse then Some prev else None |}
                /\ traverse w indexed tx records
                   = Resolved (array_of (map fn (if false_by_default reverse
                                                 then rev entries else entries)))).
  { unfold cursor_of, traverse, indexed. simpl. unfold bind, ret.
    rewrite !(invoke_calm _ _ _ Hw). simpl. rewrite getObjectsByIndex_served.
    unfold getObjectsByIndex_direction, cursor_visits.
    destruct (false_by_default reverse); simpl; split; reflexivity. }
  assert (Hjs : cursor_of w compiled tx
                = Some {| cursor_index := None; cursor_range := range;
                          cursor_direction :=
                            if false_by_default reverse then Some prev else None |}
                /\ traverse w compiled tx records
                   = Resolved (array_of (map fn (if false_by_default reverse
                                                 then rev keys else keys)))).
  { unfold cursor_of, traverse, compiled. simpl. unfold bind, ret.
    rewrite !(invoke_calm _ _ _ Hw). simpl. rewrite compiled_getObjects_served.
    unfold cursor_visits.
    destruct (false_by_default reverse); simpl; split; reflexivity. }
  destruct Hts as [Hts1 Hts2], Hix as [Hix1 Hix2], Hjs as [Hjs1 Hjs2].
  split; [|split; [|split]].
  - intros ->. simpl in *. repeat split; assumption.
  - intros [-> | ->]; simpl in *; repeat split; assumption.
  - exists (if false_by_default reverse then rev keys else keys).
    rewrite Hts2, Hjs2. destruct (false_by_default reverse);
      rewrite ?rev_involutive; split; reflexivity.
  - intros Hsame. exists (if false_by_default reverse then rev keys else keys).
    rewrite Hts2, Hix2, Hsame. destruct (false_by_default reverse);
      rewrite ?rev_involutive; split; reflexivity.
Qed.

Lemma getObjects_direction_is_inverted_witness :
  let tx := {| tx_db := 7; tx_stores := OneStore "n"; tx_mode := "readonly" |} in
  let records := {| by_key := fun _ => [VNum 1; VNum 2; VNum 3];
                    by_index := fun _ _ => [VNum 2; VNum 3; VNum 1] |} in
  calm calm_browser
  /\ traverse calm_browser (getObjects (OneStore "n") "n" VUndefined (Some true) None)
       tx records
     = Resolved (array_of [VNum 1; VNum 2; VNum 3])
  /\ traverse calm_browser
       (getObjectsByIndex (OneStore "n") "n" "by_tag" VUndefined (Some true) None)
       tx records
     = Resolved (array_of [VNum 1; VNum 3; VNum 2])
  /\ traverse calm_browser
       (Compiled.getObjects (OneStore "n") "n"
          (Some {| Compiled.reverse := Some true; Compiled.values := VUndefined;
                   Compiled.castOp := None |}))
       tx records
     = Resolved (array_of [VNum 3; VNum 2; VNum 1]).
Proof.
  intros tx records.
  assert (Hw : calm calm_browser) by (split; reflexivity).
  destruct (getObjects_direction_is_inverted calm_browser (OneStore "n") "n" "by_tag"
              VUndefined (Some true) None tx records Hw) as (Htrue & _).
  destruct (Htrue eq_refl) as (_ & _ & _ & H1 & H2 & H3).
  split; [exact Hw|]. split; [exact H1|]. split; [exact H2 | exact H3].
Defined.

(** With [reverse] left out, over three records that the index lists in
    another order than their keys, [getObjects] and [getObjectsByIndex] do
    not return opposite orders. *)
Lemma getObjectsByIndex_follows_the_index :
  let tx := {| tx_db := 7; tx_stores := OneStore "n"; tx_mode := "readonly" |} in
  let records := {| by_key := fun _ => [VNum 1; VNum 2; VNum 3];
                    by_index := fun _ _ => [VNum 2; VNum 3; VNum 1] |} in
  traverse calm_browser (getObjects (OneStore "n") "n" VUndefined None None) tx records
  = Resolved (array_of [VNum 3; VNum 2; VNum 1])
  /\ traverse calm_browser
       (getObjectsByIndex (OneStore "n") "n" "by_tag" VUndefined None None) tx records
     = Resolved (array_of [VNum 2; VNum 3; VNum 1])
  /\ [VNum 3; VNum 2; VNum 1] <> rev [VNum 2; VNum 3; VNum 1].
Proof.
  intros tx records. split; [reflexivity|]. split; [reflexivity|]. discriminate.
Qed.

(** ** Invariants of a running method *)

(** A property of the state of a method that holds of the state the body
    leaves, is kept when an event of the open request comes and by every
    handler, holds whenever the method runs. *)
Lemma running_invariant svc w op
    (I : list event -> mstate (method_of op) -> Prop) :
  (forall tr, I tr (initial op)) ->
  (forall tr e b, on_open_request e = true -> I tr b -> I (tr ++ [e]) b) ->
  (forall tr e b l, on_open_request e = false -> I tr b ->
                    I (tr ++ [e]) (fst (react w (method_of op) (b, l) e))) ->
  forall tr tx b, at_stage (perform svc w op tr) = Running tx b -> I tr b.
Proof.
  intros Hinit Hmono Hreact.
  apply (perform_ind svc w op
           (fun tr f => forall tx b, at_stage f = Running tx b -> I tr b)).
  - unfold start. destruct (precheck (method_of op)); [discriminate|].
    destruct (_init_ svc w []) as [[|db|r] l]; discriminate.
  - intros tr e IH tx b.
    destruct (step_moves w op (perform svc w op tr) e)
      as [Hnone|db He Hreq| He Hreq |evt He Hopen|db He Hopen
         |db ex pre post He Hopen Hpre Hne|tx' b' He Hrun]; simpl; intros Hst;
      try discriminate.
    + apply Hmono; [|eauto]. destruct Hnone as [H|H]; [exact H|].
      unfold is_running in H. rewrite Hst in H. discriminate.
    + apply Hmono; [|eauto]. rewrite He. reflexivity.
    + apply Hmono; [|eauto]. rewrite He. reflexivity.
    + injection Hst as _ <-. apply Hinit.
    + injection Hst as _ <-. eauto.
Qed.

(** ** [Promise.all] over requests that settle one at a time *)

Lemma promise_all_rejected_by {A} (l : list (promise A)) r :
  promise_all l = Rejected r -> exists j, l !! j = Some (Rejected r).
Proof.
  induction l as [|p l IH]; simpl; [discriminate|].
  destruct p as [|a|r0].
  - destruct (promise_all l) as [|vs|r1]; try discriminate.
    intros [= <-]. destruct (IH eq_refl) as [j Hj]. exists (S j). exact Hj.
  - destruct (promise_all l) as [|vs|r1]; try discriminate.
    intros [= <-]. destruct (IH eq_refl) as [j Hj]. exists (S j). exact Hj.
  - intros [= <-]. exists 0. reflexivity.
Qed.

Lemma promise_all_rejects {A} (l : list (promise A)) j r :
  l !! j = Some (Rejected r) -> exists r', promise_all l = Rejected r'.
Proof.
  revert j. induction l as [|p l IH]; intros [|j] Hj; simpl in *; try discriminate.
  - injection Hj as ->. eauto.
  - destruct (IH j Hj) as [r' ->]. destruct p; eauto.
Qed.

Lemma promise_all_resolved {A} (l : list (promise A)) vs :
  promise_all l = Resolved vs ->
  forall j p, l !! j = Some p -> exists a, p = Resolved a.
Proof.
  revert vs. induction l as [|p l IH]; intros vs; simpl; [discriminate|].
  destruct p as [|a|r]; destruct (promise_all l) as [|vs'|r']; try discriminate.
  intros _ [|j] q Hq; simpl in Hq.
  - injection Hq as <-. eauto.
  - eapply IH; eauto.
Qed.

Lemma promise_all_unresolved {A} (l : list (promise A)) :
  (forall vs, promise_all l <> Resolved vs) ->
  exists j p, l !! j = Some p /\ forall a, p <> Resolved a.
Proof.
  induction l as [|p l IH]; simpl; intros H.
  - exfalso. eapply H. reflexivity.
  - destruct p as [|a|r].
    + exists 0, Pending. split; [reflexivity|discriminate].
    + destruct IH as (j & q & Hj & Hq).
      { intros vs Hvs. rewrite Hvs in H. eapply H. reflexivity. }
      exists (S j), q. split; assumption.
    + exists 0, (Rejected r). split; [reflexivity|discriminate].
Qed.

(** Settling an element leaves an array of resolved promises alone. *)
Lemma alter_resolved {A} (f : promise A -> promise A) i (l : list (promise A)) vs :
  (forall a, f (Resolved a) = Resolved a) ->
  promise_all l = Resolved vs ->
  alter f i l = l.
Proof.
  intros Hf Hl. apply list_eq. intros j.
  destruct (decide (i = j)) as [->|Hne].
  - rewrite list_lookup_alter_eq. destruct (l !! j) as [p|] eqn:Hj; [|reflexivity].
    destruct (promise_all_resolved _ _ Hl _ _ Hj) as [a ->]. simpl. rewrite Hf. reflexivity.
  - apply list_lookup_alter_ne. exact Hne.
Qed.

(** Resolving one does not reject the whole. *)
Lemma promise_all_alter_resolve {A} (a : A) i (l : list (promise A)) :
  (forall r, promise_all l <> Rejected r) ->
  forall r, promise_all (alter (resolve a) i l) <> Rejected r.
Proof.
  intros H r Hr. destruct (promise_all_rejected_by _ _ Hr) as [j Hj].
  destruct (decide (i = j)) as [->|Hne].
  - rewrite list_lookup_alter_eq in Hj. destruct (l !! j) as [p|] eqn:Hp; [|discriminate].
    simpl in Hj. destruct p as [|b|r0]; try discriminate.
    destruct (promise_all_rejects _ _ _ Hp) as [r' Hr']. eapply H, Hr'.
  - rewrite list_lookup_alter_ne in Hj by exact Hne.
    destruct (promise_all_rejects _ _ _ Hj) as [r' Hr']. eapply H, Hr'.
Qed.

(** Rejecting a pending one rejects the whole with its reason, when none was
    rejected before. *)
Lemma promise_all_alter_reject {A} r i (l : list (promise A)) :
  (forall r', promise_all l <> Rejected r') ->
  l !! i = Some Pending ->
  promise_all (alter (reject r) i l) = Rejected r.
Proof.
  intros H Hi.
  assert (Hi' : alter (reject r) i l !! i = Some (Rejected r))
    by (rewrite list_lookup_alter_eq, Hi; reflexivity).
  destruct (promise_all_rejects _ _ _ Hi') as [r' Hr']. rewrite Hr'. f_equal.
  destruct (promise_all_rejected_by _ _ Hr') as [j Hj].
  destruct (decide (i = j)) as [->|Hne].
  - rewrite Hi' in Hj. injection Hj as ->. reflexivity.
  - rewrite list_lookup_alter_ne in Hj by exact Hne.
    destruct (promise_all_rejects _ _ _ Hj) as [r'' Hr'']. exfalso. eapply H, Hr''.
Qed.

(** Rejecting one leaves the whole pending or rejects it with that reason,
    when none was rejected before. *)
Lemma promise_all_alter_reject_any {A} r i (l : list (promise A)) :
  promise_all l = Pending ->
  promise_all (alter (reject r) i l) = Pending
  \/ promise_all (alter (reject r) i l) = Rejected r.
Proof.
  intros H. destruct (l !! i) as [[|a|r0]|] eqn:Hi.
  - right. apply promise_all_alter_reject; [|exact Hi]. intros r'. rewrite H. discriminate.
  - left. replace (alter (reject r) i l) with l; [exact H|].
    apply list_eq. intros j. destruct (decide (i = j)) as [->|Hne].
    + rewrite list_lookup_alter_eq, Hi. reflexivity.
    + rewrite list_lookup_alter_ne by exact Hne. reflexivity.
  - destruct (promise_all_rejects _ _ _ Hi) as [r' Hr']. rewrite Hr' in H. discriminate.
  - left. replace (alter (reject r) i l) with l; [exact H|].
    apply list_eq. intros j. destruct (decide (i = j)) as [->|Hne].
    + rewrite list_lookup_alter_eq, Hi. reflexivity.
    + rewrite list_lookup_alter_ne by exact Hne. reflexivity.
Qed.

(** ** [storeObjects] *)

Lemma lookup_all_pending {A B} (l : list B) i (p : promise A) :
  map (fun _ => Pending) l !! i = Some p -> p = Pending.
Proof.
  revert i. induction l as [|x l IH]; intros [|i]; simpl; try discriminate.
  - intros [= <-]. reflexivity.
  - apply IH.
Qed.

Lemma store_inv_initial store data tr : store_inv data tr (initial (StoreObjects store data)).
Proof.
  unfold store_inv. simpl. repeat split; auto.
  - rewrite length_map. reflexivity.
  - intros i Hi. apply lookup_all_pending in Hi. discriminate.
  - discriminate.
  - discriminate.
Qed.

Lemma store_inv_later data tr e s :
  on_open_request e = true -> store_inv data tr s -> store_inv data (tr ++ [e]) s.
Proof.
  intros _ (K1 & K2 & K3 & K4 & K5). repeat split; auto.
  - intros i Hi. destruct (K4 i Hi) as [r Hr]. exists r. rewrite in_app_iff. tauto.
  - apply K5. assumption.
  - rewrite in_app_iff. left. apply K5 with x. assumption.
Qed.

(** The reactions bring [promiseB] and the promise returned up to date. *)
Lemma store_reactions_up_to_date pA adds pB ret pA' adds' :
  (is_rejected pB \/ pB = promise_all adds) ->
  (is_rejected ret
   \/ ret = then_ (fun values => array_of (fst values)) (promise_both pA pB)) ->
  (forall vs, promise_all adds = Resolved vs -> adds' = adds) ->
  (forall x, pA = Resolved x -> pA' = pA) ->
  let s' := store_reactions
              {| so_promiseA := pA'; so_adds := adds';
                 so_promiseB := pB; so_returned := ret |} in
  (is_rejected (so_promiseB s') \/ so_promiseB s' = promise_all (so_adds s'))
  /\ (is_rejected (so_returned s')
      \/ so_returned s'
         = then_ (fun values => array_of (fst values))
             (promise_both (so_promiseA s') (so_promiseB s'))).
Proof.
  intros K1 K2 Hadds HpA. simpl.
  assert (HpB : forall vs, pB = Resolved vs -> follow pB (promise_all adds') = pB).
  { intros vs ->. reflexivity. }
  split.
  - destruct K1 as [[r ->]| ->]; [left; eexists; reflexivity|].
    destruct (promise_all adds) as [|vs|r] eqn:Hall; simpl.
    + right. reflexivity.
    + right. rewrite (Hadds vs eq_refl). symmetry. exact Hall.
    + left. eexists; reflexivity.
  - destruct K2 as [[r ->]| ->]; [left; eexists; reflexivity|].
    destruct pA as [|x|r]; [| rewrite (HpA x eq_refl) |];
      destruct pB as [|vs|r']; simpl;
      try (right; reflexivity); left; eexists; reflexivity.
Qed.

(** Every handler keeps the invariant. *)
Lemma store_inv_react w store data tr e s l :
  store_inv data tr s ->
  store_inv data (tr ++ [e])
    (fst (react w (storeObjects store data) (s, l) e)).
Proof.
  intros (K1 & K2 & K3 & K4 & K5).
  change (fst (react w (storeObjects store data) (s, l) e))
    with (store_reactions (store_handlers data e s)).
  destruct s as [pA adds pB ret]. simpl in K1, K2, K3, K4, K5.
  assert (Hkeep : forall (f : promise unit -> promise unit) i,
             (forall a, f (Resolved a) = Resolved a) ->
             forall vs, promise_all adds = Resolved vs -> alter f i adds = adds).
  { intros f i Hf vs Hvs. eapply alter_resolved; eauto. }
  assert (Hlater : forall i, adds !! i = Some (Resolved tt) ->
                             exists r, In (ReqSuccess i r) (tr ++ [e])).
  { intros i Hi. destruct (K4 i Hi) as [r Hr]. exists r. rewrite in_app_iff. tauto. }
  assert (HpA : forall x, pA = Resolved x -> x = data /\ In TxComplete (tr ++ [e])).
  { intros x Hx. destruct (K5 x Hx). rewrite in_app_iff. tauto. }
  unfold store_inv.
  destruct e; unfold store_handlers; cbn [so_promiseA so_adds so_promiseB so_returned];
    match goal with
    | |- context [store_reactions {| so_promiseA := ?a; so_adds := ?b;
                                     so_promiseB := _; so_returned := _ |}] =>
        destruct (store_reactions_up_to_date pA adds pB ret a b K1 K2) as [K1' K2']
    end;
    try (intros; reflexivity);
    try (intros x ->; reflexivity);
    try (apply Hkeep; intros; reflexivity);
    simpl in K1', K2'; (split; [exact K1'|]); (split; [exact K2'|]);
    simpl; rewrite ?length_alter; (split; [exact K3|]); (split; [|]); auto.
  - (* complete *)
    intros x Hx. destruct pA; simpl in Hx; try discriminate.
    + injection Hx as <-. split; [reflexivity|]. rewrite in_app_iff. right. left. reflexivity.
    + apply HpA. exact Hx.
  - (* transaction error *)
    intros x Hx. destruct pA; simpl in Hx; try discriminate. apply HpA. exact Hx.
  - (* request success *)
    intros i Hi. destruct (decide (req = i)) as [->|Hne].
    + exists result. rewrite in_app_iff. right. left. reflexivity.
    + rewrite list_lookup_alter_ne in Hi by exact Hne. apply Hlater, Hi.
  - (* request error *)
    intros i Hi. destruct (decide (req = i)) as [->|Hne].
    + rewrite list_lookup_alter_eq in Hi. destruct (adds !! i) as [[|[]|r]|] eqn:Ha;
        simpl in Hi; try discriminate. apply Hlater, Ha.
    + rewrite list_lookup_alter_ne in Hi by exact Hne. apply Hlater, Hi.
Qed.

Lemma storeObjects_invariant svc w store data tr tx s :
  at_stage (perform svc w (StoreObjects store data) tr) = Running tx s ->
  store_inv data tr s.
Proof.
  apply (running_invariant svc w (StoreObjects store data) (store_inv data)).
  - apply store_inv_initial.
  - apply store_inv_later.
  - intros tr' e b l _. apply store_inv_react.
Qed.

Lemma promise_all_all_resolved {A} (l : list (promise A)) :
  (forall j, j < length l -> exists a, l !! j = Some (Resolved a)) ->
  exists vs, promise_all l = Resolved vs.
Proof.
  induction l as [|p l IH]; intros H; simpl; [eauto|].
  destruct (H 0) as [a Ha]; [simpl; lia|]. simpl in Ha. injection Ha as ->.
  destruct IH as [vs ->]; [|eauto].
  intros j Hj. apply (H (S j)). simpl. lia.
Qed.

(** The same, for the events that follow a successful open with nothing
    thrown: the method runs, and the property holds of those events. *)
Lemma connected_invariant svc w op db
    (I : list event -> mstate (method_of op) -> Prop) :
  calm w -> precheck (method_of op) = None ->
  I [] (initial op) ->
  (forall tr e b, on_open_request e = true -> I tr b -> I (tr ++ [e]) b) ->
  (forall tr e b l, on_open_request e = false -> I tr b ->
                    I (tr ++ [e]) (fst (react w (method_of op) (b, l) e))) ->
  forall tr,
    exists b,
      at_stage (perform svc w op (OpenSuccess db :: tr))
      = Running {| tx_db := db; tx_stores := stores (method_of op);
                   tx_mode := mode_or_default (mode (method_of op)) |} b
      /\ I tr b.
Proof.
  intros Hw Hpre Hinit Hmono Hreact tr.
  induction tr as [|e tr IH] using rev_ind.
  - rewrite (perform_connected svc w op db [] Hw Hpre). simpl. eauto.
  - destruct IH as (b & Hst & Hb). rewrite app_comm_cons, perform_snoc.
    destruct (on_open_request e) eqn:He.
    + exists b. split; [|apply Hmono; assumption].
      unfold step. rewrite He, Hst. destruct (open_request_event _ _ _ _). reflexivity.
    + rewrite (step_running _ _ _ _ _ _ Hst He). simpl. eauto.
Qed.

Lemma store_clean_react w store data tr e s l :
  on_open_request e = false ->
  store_inv data tr s -> store_clean data tr s ->
  store_clean data (tr ++ [e]) (fst (react w (storeObjects store data) (s, l) e)).
Proof.
  intros He (K1 & K2 & K3 & K4 & K5) Hclean Hfree.
  apply Forall_app in Hfree. destruct Hfree as [Hfree Hfe].
  inversion Hfe as [|? ? Hnoerr _]; subst.
  destruct (Hclean Hfree) as (C1 & C2 & C3 & C4 & C5 & C6).
  change (fst (react w (storeObjects store data) (s, l) e))
    with (store_reactions (store_handlers data e s)).
  destruct s as [pA adds pB ret]. simpl in *.
  assert (Hadds : forall adds' : list (promise unit),
             (forall i r, adds' !! i <> Some (Rejected r)) ->
             forall r, follow pB (promise_all adds') <> Rejected r).
  { intros adds' Hno r Hr. destruct pB as [|vs|r0]; simpl in Hr; try discriminate.
    - apply promise_all_rejected_by in Hr. destruct Hr as [j Hj]. eapply Hno, Hj.
    - eapply C5. reflexivity. }
  assert (Hret : forall (pA' : promise (list value)) (pB' : promise (list unit)),
             (forall r, pA' <> Rejected r) -> (forall r, pB' <> Rejected r) ->
             forall r, follow ret (then_ (fun values => array_of (fst values))
                                     (promise_both pA' pB')) <> Rejected r).
  { intros pA' pB' HA HB r Hr. destruct ret as [|x|r0]; simpl in Hr; try discriminate.
    - destruct pA' as [|x|r1]; [| |exfalso; eapply HA; reflexivity];
        destruct pB' as [|vs|r2]; try discriminate; exfalso; eapply HB; reflexivity.
    - eapply C6. reflexivity. }
  assert (HpA : forall r, pA <> Rejected r)
    by (intros r; destruct C2 as [-> | ->]; discriminate).
  assert (Hin : forall e0, In e0 (tr ++ [e]) -> In e0 tr \/ e0 = e).
  { intros e0. rewrite in_app_iff. simpl. intros [H|[H|[]]]; auto. }
  destruct e; try discriminate; simpl in *.
  - (* complete *)
    assert (HA : resolve data pA = Resolved data) by (destruct C2 as [-> | ->]; reflexivity).
    rewrite HA.
    split; [reflexivity|]. split; [right; reflexivity|].
    split; [intros i r H; destruct (Hin _ H) as [H'|H']; [eauto | discriminate]|].
    split; [exact C4|]. split; [apply Hadds, C4|].
    apply Hret; [discriminate | apply Hadds, C4].
  - (* abort *)
    split; [intros H; destruct (Hin _ H) as [H'|H']; [auto | discriminate]|].
    split; [exact C2|].
    split; [intros i r H; destruct (Hin _ H) as [H'|H']; [eauto | discriminate]|].
    split; [exact C4|]. split; [apply Hadds, C4|].
    apply Hret; [exact HpA | apply Hadds, C4].
  - (* request success *)
    assert (Hno : forall i r, alter (resolve tt) req adds !! i <> Some (Rejected r)).
    { intros i r Hi. destruct (decide (req = i)) as [->|Hne].
      - rewrite list_lookup_alter_eq in Hi. destruct (adds !! i) as [[|[]|r0]|] eqn:Ha;
          simpl in Hi; try discriminate. eapply C4, Ha.
      - rewrite list_lookup_alter_ne in Hi by exact Hne. eapply C4, Hi. }
    split; [intros H; destruct (Hin _ H) as [H'|H']; [auto | discriminate]|].
    split; [exact C2|].
    split; [|split; [exact Hno|split; [apply Hadds, Hno|]]].
    + rewrite length_alter. intros i r H Hi. destruct (Hin _ H) as [H'|H'].
      * destruct (decide (req = i)) as [->|Hne].
        -- rewrite list_lookup_alter_eq, (C3 i r H' Hi). reflexivity.
        -- rewrite list_lookup_alter_ne by exact Hne. eauto.
      * injection H' as -> _. rewrite list_lookup_alter_eq.
        destruct (lookup_lt_is_Some_2 adds req Hi) as [p Hp]. rewrite Hp. simpl.
        destruct p as [|[]|r0]; try reflexivity. exfalso. eapply C4, Hp.
    + apply Hret; [exact HpA | apply Hadds, Hno].
  - (* cursor events: no handler *)
    split; [intros H; destruct (Hin _ H) as [H'|H']; [auto | discriminate]|].
    split; [exact C2|].
    split; [intros i r H; destruct (Hin _ H) as [H'|H']; [eauto | discriminate]|].
    split; [exact C4|]. split; [apply Hadds, C4|].
    apply Hret; [exact HpA | apply Hadds, C4].
  - split; [intros H; destruct (Hin _ H) as [H'|H']; [auto | discriminate]|].
    split; [exact C2|].
    split; [intros i r H; destruct (Hin _ H) as [H'|H']; [eauto | discriminate]|].
    split; [exact C4|]. split; [apply Hadds, C4|].
    apply Hret; [exact HpA | apply Hadds, C4].
Qed.

Lemma store_clean_initial store data :
  store_clean data [] (initial (StoreObjects store data)).
Proof.
  intros _. simpl.
  assert (Hall : forall r, promise_all (map (fun _ => Pending) data)
                           <> (Rejected r : promise (list unit))).
  { intros r Hr. apply promise_all_rejected_by in Hr. destruct Hr as [j Hj].
    apply lookup_all_pending in Hj. discriminate. }
  split; [intros []|].
  split; [left; reflexivity|].
  split; [intros i r []|].
  split; [intros i r H; apply lookup_all_pending in H; discriminate|].
  split; [exact Hall|].
  intros r. destruct (promise_all (map (fun _ => Pending) data)) as [|vs|r'] eqn:Hp;
    simpl; try discriminate. exfalso. eapply Hall. reflexivity.
Qed.

Lemma store_clean_later data tr e s :
  on_open_request e = true -> store_clean data tr s -> store_clean data (tr ++ [e]) s.
Proof.
  intros He Hclean Hfree. apply Forall_app in Hfree. destruct Hfree as [Hfree _].
  destruct (Hclean Hfree) as (C1 & C2 & C3 & C4 & C5 & C6).
  assert (Hin : forall e0, on_open_request e0 = false -> In e0 (tr ++ [e]) -> In e0 tr).
  { intros e0 H0. rewrite in_app_iff. simpl. intros [H|[H|[]]]; [exact H|].
    subst e0. rewrite He in H0. discriminate. }
  split; [intros H; apply C1; apply Hin; [reflexivity | exact H]|].
  split; [exact C2|].
  split; [intros i r H; apply (C3 i r); apply Hin; [reflexivity | exact H]|].
  auto.
Qed.

(** After a successful open with nothing thrown, both invariants hold of the
    events that follow. *)
Lemma storeObjects_connected svc w store data db tr :
  calm w ->
  exists s,
    at_stage (perform svc w (StoreObjects store data) (OpenSuccess db :: tr))
    = Running {| tx_db := db; tx_stores := OneStore store; tx_mode := "readwrite" |} s
    /\ store_inv data tr s /\ store_clean data tr s.
Proof.
  intros Hw.
  apply (connected_invariant svc w (StoreObjects store data) db
           (fun tr s => store_inv data tr s /\ store_clean data tr s) Hw eq_refl).
  - split; [apply store_inv_initial | apply store_clean_initial].
  - intros tr' e b He [H1 H2]. split.
    + apply store_inv_later; assumption.
    + apply store_clean_later; assumption.
  - intros tr' e b l He [H1 H2]. split.
    + apply store_inv_react; assumption.
    + apply store_clean_react; assumption.
Qed.

Lemma requests_adds data : requests (map Add data) = map Add data.
Proof. induction data as [|d data IH]; simpl; [reflexivity|]. f_equal. exact IH. Qed.

(** C6.  [storeObjects] makes one add request per element of [data], in the
    order of the array, in one read-write transaction.  Its promise is
    resolved only with [data], and only once the complete event of the
    transaction and a success event of every add request have fired; with
    no error event, it is resolved as soon as they all have.  While it is
    pending, an error event of an add request that has not succeeded, or of
    the transaction before it completes, rejects it with that event. *)
Theorem storeObjects_waits_for_all :
  forall (svc : IDBService) (w : browser) (store : string) (data : list value)
         (db : handle),
    calm w ->
    (forall tr,
        requests (log (perform svc w (StoreObjects store data) (OpenSuccess db :: tr)))
        = map Add data
        /\ transactions
             (log (perform svc w (StoreObjects store data) (OpenSuccess db :: tr)))
           = [Transaction db (OneStore store) "readwrite"])
    /\ (forall tr x,
          outcome (perform svc w (StoreObjects store data) tr) = Resolved x ->
          x = array_of data
          /\ In TxComplete tr
          /\ forall i, i < length data -> exists r, In (ReqSuccess i r) tr)
    /\ (forall tr,
          Forall (fun e => is_error_event e = false) tr ->
          In TxComplete tr ->
          (forall i, i < length data -> exists r, In (ReqSuccess i r) tr) ->
          outcome (perform svc w (StoreObjects store data) (OpenSuccess db :: tr))
          = Resolved (array_of data))
    /\ (forall tr,
          outcome (perform svc w (StoreObjects store data) (OpenSuccess db :: tr))
          = Pending ->
          (forall i errEvt,
              i < length data -> (forall r, ~ In (ReqSuccess i r) tr) ->
              outcome (perform svc w (StoreObjects store data)
                         ((OpenSuccess db :: tr) ++ [ReqError i errEvt]))
              = Rejected (EngineEvent errEvt))
          /\ (forall errEvt,
                 ~ In TxComplete tr ->
                 outcome (perform svc w (StoreObjects store data)
                            ((OpenSuccess db :: tr) ++ [TxError errEvt]))
                 = Rejected (EngineEvent errEvt))).
Proof.
  intros svc w store data db Hw.
  split; [|split; [|split]].
  - intros tr.
    destruct (connected_running svc w (StoreObjects store data) db tr Hw eq_refl)
      as [b Hst].
    destruct (running_requests _ _ _ _ _ _ Hst) as (_ & Ht & later & Hq & Hl).
    rewrite Ht, Hq. simpl in *. split; [|reflexivity].
    destruct later as [|c later]; [|inversion Hl as [|? ? []]].
    rewrite app_nil_r. apply requests_adds.
  - intros tr x Hx. unfold outcome in Hx.
    destruct (at_stage (perform svc w (StoreObjects store data) tr)) as [r| |r|tx s] eqn:Hst;
      try discriminate.
    destruct (storeObjects_invariant _ _ _ _ _ _ _ Hst) as (K1 & K2 & K3 & K4 & K5).
    simpl in Hx. destruct K2 as [[r Hr]|K2]; [rewrite Hr in Hx; discriminate|].
    rewrite Hx in K2.
    destruct (so_promiseA s) as [|d|r] eqn:HA; try discriminate;
      destruct (so_promiseB s) as [|vs|r'] eqn:HB; try discriminate.
    injection K2 as ->. destruct (K5 d eq_refl) as [-> Hdone].
    split; [reflexivity|]. split; [exact Hdone|].
    intros i Hi. destruct K1 as [[r Hr]|K1]; [discriminate|].
    rewrite <- K3 in Hi. destruct (lookup_lt_is_Some_2 _ i Hi) as [p Hp].
    destruct (promise_all_resolved _ _ (eq_sym K1) _ _ Hp) as [[] ->].
    apply K4, Hp.
  - intros tr Hfree Hdone Hall.
    destruct (storeObjects_connected svc w store data db tr Hw)
      as (s & Hst & (K1 & K2 & K3 & K4 & K5) & Hclean).
    destruct (Hclean Hfree) as (C1 & C2 & C3 & C4 & C5 & C6).
    unfold outcome. rewrite Hst. simpl.
    destruct K2 as [[r Hr]|K2]; [exfalso; eapply C6, Hr|].
    destruct K1 as [[r Hr]|K1]; [exfalso; eapply C5, Hr|].
    rewrite K2, (C1 Hdone), K1.
    destruct (promise_all_all_resolved (so_adds s)) as [vs ->]; [|reflexivity].
    intros j Hj. rewrite K3 in Hj. destruct (Hall j Hj) as [r Hr].
    exists tt. apply (C3 j r Hr). rewrite K3. exact Hj.
  - intros tr Hpend.
    destruct (storeObjects_connected svc w store data db tr Hw)
      as (s & Hst & (K1 & K2 & K3 & K4 & K5) & _).
    unfold outcome in Hpend. rewrite Hst in Hpend. simpl in Hpend.
    destruct K2 as [[r Hr]|K2]; [rewrite Hr in Hpend; discriminate|].
    rewrite Hpend in K2.
    assert (HA : forall r, so_promiseA s <> Rejected r).
    { intros r Hr. rewrite Hr in K2. discriminate. }
    assert (HB : forall r, so_promiseB s <> Rejected r).
    { intros r Hr. rewrite Hr in K2. destruct (so_promiseA s); discriminate. }
    destruct K1 as [[r Hr]|K1]; [exfalso; eapply HB, Hr|].
    split.
    + intros i errEvt Hi Hnot.
      rewrite perform_snoc, (step_running _ _ _ _ _ (ReqError i errEvt) Hst eq_refl).
      unfold outcome, react. simpl.
      rewrite <- K3 in Hi. destruct (lookup_lt_is_Some_2 _ i Hi) as [p Hp].
      assert (Hpp : p = Pending).
      { destruct p as [|[]|r]; [reflexivity| |].
        - destruct (K4 i Hp) as [r Hr]. exfalso. eapply Hnot, Hr.
        - destruct (promise_all_rejects _ _ _ Hp) as [r' Hr'].
          exfalso. eapply HB. rewrite K1. exact Hr'. }
      subst p.
      assert (HBp : so_promiseB s = Pending).
      { destruct (so_promiseB s) as [|vs|r] eqn:Hb; [reflexivity| |exfalso; eapply HB; eauto].
        destruct (promise_all_resolved _ _ (eq_sym K1) _ _ Hp) as [a Ha]. discriminate. }
      rewrite HBp, Hpend. simpl.
      rewrite promise_all_alter_reject; [| |exact Hp].
      * destruct (so_promiseA s) as [|d|r]; [reflexivity|reflexivity|].
        exfalso; eapply HA; eauto.
      * intros r'. rewrite <- K1, HBp. discriminate.
    + intros errEvt Hnot.
      rewrite perform_snoc, (step_running _ _ _ _ _ (TxError errEvt) Hst eq_refl).
      unfold outcome, react. simpl. rewrite Hpend. simpl.
      destruct (so_promiseA s) as [|d|r] eqn:Ha.
      * reflexivity.
      * destruct (K5 d eq_refl) as [_ Hin]. contradiction.
      * exfalso; eapply HA; eauto.
Qed.

Lemma storeObjects_waits_for_all_witness :
  calm calm_browser
  /\ requests (log (perform sample_service calm_browser
                      (StoreObjects "n" [VNum 1; VNum 2])
                      (OpenSuccess 7 :: [TxComplete])))
     = [Add (VNum 1); Add (VNum 2)]
  /\ outcome (perform sample_service calm_browser (StoreObjects "n" [VNum 1; VNum 2])
                (OpenSuccess 7 :: [ReqSuccess 1 (VNum 2); TxComplete; ReqSuccess 0 (VNum 1)]))
     = Resolved (array_of [VNum 1; VNum 2]).
Proof.
  assert (Hw : calm calm_browser) by (split; reflexivity).
  destruct (storeObjects_waits_for_all sample_service calm_browser "n"
              [VNum 1; VNum 2] 7 Hw) as (H1 & _ & H3 & _).
  split; [exact Hw|]. split; [exact (proj1 (H1 [TxComplete]))|].
  apply H3.
  - repeat constructor.
  - simpl. auto.
  - intros [|[|i]] Hi; simpl in Hi.
    + exists (VNum 1). simpl. auto.
    + exists (VNum 2). simpl. auto.
    + lia.
Defined.

(** ** [updateObjectsByIndex] *)

Lemma visited_by_snoc tr e :
  visited_by (tr ++ [e])
  = visited_by tr ++ match e with CursorAt 0 v => [v] | _ => [] end.
Proof. unfold visited_by. rewrite List.flat_map_app. simpl. rewrite app_nil_r. reflexivity. Qed.

Lemma visited_by_cursor vs : visited_by (map (CursorAt 0) vs) = vs.
Proof. induction vs as [|v vs IH]; simpl; [reflexivity|]. f_equal. exact IH. Qed.

Lemma first_resolved_in {A} (ps : list (promise A)) a :
  first_resolved ps = Some a -> In (Resolved a) ps.
Proof.
  induction ps as [|p ps IH]; simpl; [discriminate|].
  destruct p as [|b|r]; auto. intros [= ->]. auto.
Qed.

(** An array of promises that each resolve with the object they are paired
    with resolves with those objects. *)
Lemma promise_all_paired (l : list (value * promise value)) os :
  Forall (fun vp => forall o, snd vp = Resolved o -> o = fst vp) l ->
  promise_all (map snd l) = Resolved os -> os = map fst l.
Proof.
  intros Hl. revert os. induction Hl as [|[o p] l Hp _ IH]; intros os; simpl.
  - intros [= <-]. reflexivity.
  - destruct p as [|o'|r]; destruct (promise_all (map snd l)) as [|os'|r'];
      try discriminate.
    intros [= <-]. rewrite (Hp o' eq_refl), (IH os' eq_refl). reflexivity.
Qed.

Lemma map_fst_alter {A B} (f : A * B -> A * B) k (l : list (A * B)) :
  (forall x, fst (f x) = fst x) -> map fst (alter f k l) = map fst l.
Proof.
  intros Hf. revert k. induction l as [|x l IH]; intros [|k]; simpl; try reflexivity.
  - rewrite Hf. reflexivity.
  - f_equal. apply IH.
Qed.

Lemma take_alter_fst {A B} (f : A * B -> A * B) k n (l : list (A * B)) :
  (forall x, fst (f x) = fst x) ->
  map fst (take n (alter f k l)) = map fst (take n l).
Proof.
  intros Hf. revert k n. induction l as [|x l IH]; intros [|k] [|n]; simpl; try reflexivity.
  - rewrite Hf. reflexivity.
  - f_equal. apply IH.
Qed.

(** A prefix of an array is a prefix of the longer array. *)
Lemma take_grown {A} n (l extra : list A) :
  exists n', take n' (l ++ extra) = take n l.
Proof.
  exists (length (take n l)). rewrite take_app_le by (rewrite length_take; lia).
  rewrite length_take. destruct (decide (n <= length l)).
  - rewrite Nat.min_l by lia. reflexivity.
  - rewrite Nat.min_r by lia. rewrite !take_ge by lia. reflexivity.
Qed.

Lemma update_inv_initial store index indexVal params allMatches tr :
  update_inv params (false_by_default allMatches) tr
    (initial (UpdateObjectsByIndex store index indexVal params allMatches)).
Proof.
  unfold update_inv. simpl. repeat split; try discriminate; auto.
Qed.

Lemma update_inv_later params all tr e s :
  update_inv params all tr s -> update_inv params all (tr ++ [e]) s.
Proof.
  intros (U1 & U2 & U3 & U4 & U5). repeat split; auto.
  eapply List.Forall_impl; [|exact U1]. intros vp [(v & Hv & Ha) Hp]. split; [|exact Hp].
  exists v. rewrite in_app_iff. tauto.
Qed.

(** [updateOne] adds at most one promise, for the record it was handed. *)
Lemma updateOne_inv w params all tr e v s l :
  e = found_by all v ->
  update_inv params all (tr ++ [e]) s ->
  update_inv params all (tr ++ [e]) (fst (updateOne w params v s l)).
Proof.
  intros He Hinv. unfold updateOne.
  destruct (assign_params params v) as [o|] eqn:Ho; [|exact Hinv].
  destruct (invoke w (Put o) l) as [[ex|[]] l']; [exact Hinv|].
  destruct Hinv as (U1 & U2 & U3 & U4 & U5). simpl.
  split; [|split; [|auto]].
  - apply Forall_app. split; [exact U1|]. constructor; [|constructor].
    simpl. split; [|discriminate]. exists v. rewrite in_app_iff, He. simpl. auto.
  - intros x Hx. specialize (U2 x Hx). destruct all.
    + destruct U2 as [n ->]. destruct (take_grown n (up_puts s) [(o, Pending : promise value)]) as [n' Hn'].
      exists n'. simpl. rewrite Hn'. reflexivity.
    + destruct U2 as (o' & -> & Hin). exists o'. split; [reflexivity|].
      simpl. rewrite map_app, in_app_iff. auto.
Qed.

Lemma In_lookup {A} (x : A) (l : list A) : In x l <-> exists j, l !! j = Some x.
Proof. rewrite <- list_elem_of_In. apply list_elem_of_lookup. Qed.

Lemma update_handlers_inv w params all tr e s l :
  update_inv params all tr s ->
  update_inv params all (tr ++ [e]) (fst (update_handlers w params all e s l)).
Proof.
  intros Hinv. apply (update_inv_later params all tr e) in Hinv.
  destruct e as [| | | | | | |[|k] v|[|k] v|[|k]|[|k] evt]; simpl; try exact Hinv.
  - (* complete *)
    destruct Hinv as (U1 & U2 & U3 & U4 & U5). repeat split; auto.
    simpl. intros r. destruct (up_promiseB s); simpl; try discriminate.
    intros Hr. eapply U4, Hr.
  - destruct all; [exact Hinv|]. apply updateOne_inv; [reflexivity | exact Hinv].
  - (* a put request succeeded *)
    destruct Hinv as (U1 & U2 & U3 & U4 & U5). simpl. split; [|split; [|auto]].
    + apply List.Forall_forall. intros vp Hvp. simpl in Hvp.
      apply In_lookup in Hvp. destruct Hvp as [j Hj].
      assert (Hall : forall vp', up_puts s !! j = Some vp' ->
                       (exists v0, In (found_by all v0) (tr ++ [ReqSuccess (S k) v])
                                   /\ assign_params params v0 = Some (fst vp'))
                       /\ forall o, snd vp' = Resolved o -> o = fst vp').
      { intros vp' Hvp'. rewrite List.Forall_forall in U1. apply U1.
        apply In_lookup. eauto. }
      destruct (decide (k = j)) as [->|Hne].
      * rewrite list_lookup_alter_eq in Hj.
        destruct (up_puts s !! j) as [[o p]|] eqn:Hp; [|discriminate].
        simpl in Hj. injection Hj as <-. destruct (Hall _ eq_refl) as [H1 H2].
        simpl in *. split; [exact H1|]. destruct p; simpl; auto. intros o' [= <-]. reflexivity.
      * rewrite list_lookup_alter_ne in Hj by exact Hne. apply Hall, Hj.
    + intros x Hx. specialize (U2 x Hx). destruct all.
      * destruct U2 as [n ->]. exists n. simpl. rewrite take_alter_fst; reflexivity.
      * destruct U2 as (o' & -> & Hin). exists o'. split; [reflexivity|].
        simpl. rewrite map_fst_alter; [exact Hin | reflexivity].
  - destruct all; [|exact Hinv]. apply updateOne_inv; [reflexivity | exact Hinv].
  - (* the cursor is at its end *)
    destruct all; [|exact Hinv]. destruct Hinv as (U1 & U2 & U3 & U4 & U5).
    repeat split; auto.
  - (* a put request failed *)
    destruct Hinv as (U1 & U2 & U3 & U4 & U5). simpl. split; [|split; [|auto]].
    + apply List.Forall_forall. intros vp Hvp. simpl in Hvp.
      apply In_lookup in Hvp. destruct Hvp as [j Hj].
      assert (Hall : forall vp', up_puts s !! j = Some vp' ->
                       (exists v0, In (found_by all v0) (tr ++ [ReqError (S k) evt])
                                   /\ assign_params params v0 = Some (fst vp'))
                       /\ forall o, snd vp' = Resolved o -> o = fst vp').
      { intros vp' Hvp'. rewrite List.Forall_forall in U1. apply U1.
        apply In_lookup. eauto. }
      destruct (decide (k = j)) as [->|Hne].
      * rewrite list_lookup_alter_eq in Hj.
        destruct (up_puts s !! j) as [[o p]|] eqn:Hp; [|discriminate].
        simpl in Hj. injection Hj as <-. destruct (Hall _ eq_refl) as [H1 H2].
        simpl in *. split; [exact H1|]. destruct p; simpl; auto. discriminate.
      * rewrite list_lookup_alter_ne in Hj by exact Hne. apply Hall, Hj.
    + intros x Hx. specialize (U2 x Hx). destruct all.
      * destruct U2 as [n ->]. exists n. simpl. rewrite take_alter_fst; reflexivity.
      * destruct U2 as (o' & -> & Hin). exists o'. split; [reflexivity|].
        simpl. rewrite map_fst_alter; [exact Hin | reflexivity].
Qed.

(** What a reaction resolves [promiseA] with is such an object, or such an
    array. *)
Lemma update_found_inv params all tr s x :
  update_inv params all tr s ->
  update_found all s = Some x ->
  if all
  then exists n, x = array_of (map fst (take n (up_puts s)))
  else exists o, x = JVal o /\ In o (map fst (up_puts s)).
Proof.
  intros (U1 & _) Hx. unfold update_found in Hx.
  assert (Hpair : Forall (fun vp : value * promise value =>
                            forall o, snd vp = Resolved o -> o = fst vp) (up_puts s)).
  { eapply List.Forall_impl; [|exact U1]. intros vp [_ H]. exact H. }
  destruct all.
  - match type of Hx with
    | option_map _ ?t = _ => destruct t as [os|] eqn:Hos; [|discriminate]
    end.
    injection Hx as <-. apply first_resolved_in in Hos. apply in_map_iff in Hos.
    destruct Hos as (n & Hn & _). exists n. f_equal.
    apply promise_all_paired; [|exact Hn]. apply Forall_take, Hpair.
  - match type of Hx with
    | option_map _ ?t = _ => destruct t as [o|] eqn:Ho; [|discriminate]
    end.
    injection Hx as <-. apply first_resolved_in in Ho. apply in_map_iff in Ho.
    destruct Ho as ([o' p] & Hp & Hin). simpl in Hp. subst p.
    exists o. split; [reflexivity|]. apply in_map_iff. exists (o', Resolved o).
    split; [|exact Hin]. simpl. symmetry.
    rewrite List.Forall_forall in Hpair. apply (Hpair _ Hin). reflexivity.
Qed.

Lemma resolve_resolved {A} (a x : A) (p : promise A) :
  resolve a p = Resolved x -> (p = Pending /\ x = a) \/ p = Resolved x.
Proof. destruct p; simpl; intros H; try discriminate; [injection H as <-|]; auto. Qed.

Lemma resolve_rejected {A} (a : A) (p : promise A) r :
  resolve a p = Rejected r -> p = Rejected r.
Proof. destruct p; simpl; intros H; try discriminate; auto. Qed.

Lemma update_reactions_inv params all tr s :
  update_inv params all tr s -> update_inv params all tr (update_reactions all s).
Proof.
  intros Hinv. pose proof (fun x => update_found_inv params all tr s x Hinv) as Hfound.
  destruct Hinv as (U1 & U2 & U3 & U4 & U5). unfold update_inv, update_reactions.
  cbn [up_puts up_gathered up_promiseA up_promiseB up_returned].
  set (pA := match update_found all s with
             | Some x => resolve x (up_promiseA s)
             | None => up_promiseA s
             end).
  assert (HA : forall x, pA = Resolved x ->
                         if all
                         then exists n, x = array_of (map fst (take n (up_puts s)))
                         else exists o, x = JVal o /\ In o (map fst (up_puts s))).
  { intros x. unfold pA. destruct (update_found all s) as [y|] eqn:Hy; [|apply U2].
    intros Hx. apply resolve_resolved in Hx. destruct Hx as [[_ ->]|Hx].
    - apply Hfound. reflexivity.
    - apply U2, Hx. }
  assert (HA' : forall r, pA <> Rejected r).
  { intros r. unfold pA. destruct (update_found all s); [|apply U3].
    intros Hr. apply resolve_rejected in Hr. eapply U3, Hr. }
  assert (Hkeep : forall x, up_promiseA s = Resolved x -> pA = Resolved x).
  { intros x Hx. unfold pA. rewrite Hx. destruct (update_found all s); reflexivity. }
  split; [exact U1|]. split; [exact HA|]. split; [exact HA'|]. split; [exact U4|].
  destruct U5 as [Hp|(x & Hx & Hr)].
  - rewrite Hp. simpl. destruct pA as [|x|r] eqn:HpA; simpl.
    + left. destruct (up_promiseB s) as [|[]|r] eqn:HB; try reflexivity.
      exfalso. eapply U4. reflexivity.
    + destruct (up_promiseB s) as [|[]|r] eqn:HB; simpl.
      * left. reflexivity.
      * right. eauto.
      * exfalso. eapply U4. reflexivity.
    + exfalso. eapply HA'. reflexivity.
  - right. exists x. rewrite Hr. split; [apply Hkeep, Hx | reflexivity].
Qed.

Lemma update_inv_react w store index indexVal params allMatches tr e s l :
  update_inv params (false_by_default allMatches) tr s ->
  update_inv params (false_by_default allMatches) (tr ++ [e])
    (fst (react w (updateObjectsByIndex store index indexVal params allMatches) (s, l) e)).
Proof.
  intros Hinv. unfold react. simpl.
  pose proof (update_handlers_inv w params (false_by_default allMatches) tr e s l Hinv) as H.
  destruct (update_handlers w params (false_by_default allMatches) e s l) as [s' l'].
  simpl in *. apply update_reactions_inv, H.
Qed.

Lemma updateObjectsByIndex_invariant svc w store index indexVal params allMatches tr tx s :
  at_stage (perform svc w (UpdateObjectsByIndex store index indexVal params allMatches) tr)
  = Running tx s ->
  update_inv params (false_by_default allMatches) tr s.
Proof.
  apply (running_invariant svc w
           (UpdateObjectsByIndex store index indexVal params allMatches)
           (update_inv params (false_by_default allMatches))).
  - apply update_inv_initial.
  - intros tr' e b _. apply update_inv_later.
  - intros tr' e b l _. apply update_inv_react.
Qed.



Lemma split_later {A} (tr tr1 tr2 : list A) x e :
  tr = tr1 ++ x :: tr2 -> tr ++ [e] = tr1 ++ x :: (tr2 ++ [e]).
Proof. intros ->. rewrite <- app_assoc. reflexivity. Qed.






(** ** Connections are never kept *)

Lemma opens_app a b : opens (a ++ b) = opens a ++ opens b.
Proof. apply List.filter_app. Qed.

Lemma closes_app a b : closes (a ++ b) = closes a ++ closes b.
Proof. apply List.filter_app. Qed.

Lemma opens_opening svc w op :
  opens (opening_calls svc w op) = opening_calls svc w op
  /\ closes (opening_calls svc w op) = [].
Proof. unfold opening_calls. destruct (reaches_open w op); split; reflexivity. Qed.

Lemma transaction_in l c :
  In c l -> is_transaction c = true -> In c (transactions l).
Proof. intros Hin Hc. apply filter_In. split; assumption. Qed.

(** The log of one call: its [open] first, if it gets there, and no other;
    no [close]; a transaction only on the connection its own open request
    delivered. *)
Lemma perform_connection svc w op tr :
  (exists rest,
      log (perform svc w op tr) = opening_calls svc w op ++ rest /\ opens rest = [])
  /\ opens (log (perform svc w op tr)) = opening_calls svc w op
  /\ closes (log (perform svc w op tr)) = []
  /\ forall db stores mode,
      In (Transaction db stores mode) (log (perform svc w op tr)) ->
      In (OpenSuccess db) tr.
Proof.
  destruct (perform_log_shape svc w op tr) as (rest & Hlog & Hrest & Hshape).
  destruct (opens_opening svc w op) as [Ho Hc].
  assert (Hopens : opens rest = []).
  { apply filter_none. eapply List.Forall_impl; [|exact Hrest]. intros c [H _]. exact H. }
  assert (Hcloses : closes rest = []).
  { apply filter_none. eapply List.Forall_impl; [|exact Hrest]. intros c [_ H]. exact H. }
  split; [eauto|].
  rewrite Hlog, opens_app, closes_app, Ho, Hc, Hopens, Hcloses, app_nil_r.
  split; [reflexivity|]. split; [reflexivity|].
  intros db stores mode Hin. apply in_app_iff in Hin. destruct Hin as [Hin|Hin].
  - unfold opening_calls in Hin. destruct (reaches_open w op); [|destruct Hin].
    destruct Hin as [Hin|[]]. discriminate.
  - apply transaction_in in Hin; [|reflexivity].
    unfold stage_shape in Hshape.
    destruct (at_stage (perform svc w op tr)) as [r| |r|tx b].
    + subst rest. destruct Hin.
    + destruct Hshape as (_ & Ht & _). rewrite Ht in Hin. destruct Hin.
    + destruct Hshape as (_ & [[Ht _]|(db' & post & Hdb & Ht & _)]);
        rewrite Ht in Hin; [destruct Hin|].
      destruct Hin as [Hin|[]]. unfold transaction_call in Hin. injection Hin as <- _ _.
      exact Hdb.
    + destruct Hshape as (_ & _ & Hdb & Ht & _). rewrite Ht in Hin.
      destruct Hin as [Hin|[]]. unfold transaction_call in Hin. injection Hin as <- _ _.
      exact Hdb.
Qed.

Lemma session_connections svc w calls :
  _db (fst (session svc w calls)) = _db svc
  /\ fst (session svc w calls) = svc
  /\ length (opens (snd (session svc w calls)))
     = length (List.filter (fun call => reaches_open w (fst call)) calls)
  /\ closes (snd (session svc w calls)) = [].
Proof.
  induction calls as [|[op tr] calls IH]; simpl; [auto|].
  rewrite perform_this. destruct (session svc w calls) as [svc' l] eqn:Hs. simpl in *.
  destruct IH as (IH1 & IH2 & IH3 & IH4).
  destruct (perform_connection svc w op tr) as (_ & Ho & Hc & _).
  rewrite opens_app, closes_app, Ho, Hc, IH4, length_app, IH3.
  repeat split; auto.
  unfold opening_calls. destruct (reaches_open w op); reflexivity.
Qed.

(** C10, as the code has it.  Every public operation that passes its own
    argument checks, in a browser that has IndexedDB, opens a connection of
    its own: the first thing it does is one [indexedDB.open] with the name
    and the version of the service, and it makes no other; an operation
    stopped by its checks, or a browser without IndexedDB, makes none.  The
    transaction is started on the connection that this open request
    delivered.  No operation closes a connection or touches [_db], which
    stays as the constructor left it; so over any sequence of calls there is
    one [open] per call that gets that far, and no [close]. *)
Theorem every_call_opens_its_own_connection :
  forall (cfg : IDBServiceConfig) (w : browser),
    (forall op tr,
        (exists rest,
            log (perform (constructor cfg) w op tr)
            = (if reaches_open w op
               then [Open (database cfg) (version cfg)]
               else []) ++ rest
            /\ opens rest = [])
        /\ closes (log (perform (constructor cfg) w op tr)) = []
        /\ (forall db stores mode,
               In (Transaction db stores mode) (log (perform (constructor cfg) w op tr)) ->
               In (OpenSuccess db) tr)
        /\ _db (this (perform (constructor cfg) w op tr)) = None)
    /\ (forall calls,
           length (opens (snd (session (constructor cfg) w calls)))
           = length (List.filter (fun call => reaches_open w (fst call)) calls)
           /\ closes (snd (session (constructor cfg) w calls)) = []
           /\ _db (fst (session (constructor cfg) w calls)) = None).
Proof.
  intros cfg w. split.
  - intros op tr.
    destruct (perform_connection (constructor cfg) w op tr) as (Hlog & _ & Hc & Htx).
    split; [exact Hlog|]. split; [exact Hc|]. split; [exact Htx|].
    rewrite perform_this. reflexivity.
  - intros calls.
    destruct (session_connections (constructor cfg) w calls) as (H1 & _ & H3 & H4).
    split; [exact H3|]. split; [exact H4|]. rewrite H1. reflexivity.
Qed.

(** [replaceObjectByKey] without a key is rejected by its check before
    [getTransaction] is called: no connection is opened. *)
Lemma replaceObjectByKey_without_key_opens_nothing :
  ~ opens_a_connection sample_service
      (perform sample_service calm_browser
         (ReplaceObjectByKey "n" VUndefined (VStr "b")) [OpenSuccess 7])
  /\ log (perform sample_service calm_browser
            (ReplaceObjectByKey "n" VUndefined (VStr "b")) [OpenSuccess 7]) = []
  /\ outcome (perform sample_service calm_browser
                (ReplaceObjectByKey "n" VUndefined (VStr "b")) [OpenSuccess 7])
     = Rejected (AdapterError "updateByIndex() needs a key value!").
Proof.
  split; [|split; reflexivity].
  unfold opens_a_connection. simpl. discriminate.
Qed.

(** ** Where rejections come from *)
















(** ** When promises settle *)

Lemma update_handlers_frame w params all e s l :
  up_promiseA (fst (update_handlers w params all e s l)) = up_promiseA s
  /\ up_returned (fst (update_handlers w params all e s l)) = up_returned s
  /\ (up_promiseB (fst (update_handlers w params all e s l)) = up_promiseB s
      \/ up_promiseB (fst (update_handlers w params all e s l))
         = resolve tt (up_promiseB s)).
Proof.
  assert (Hone : forall v,
             up_promiseA (fst (updateOne w params v s l)) = up_promiseA s
             /\ up_returned (fst (updateOne w params v s l)) = up_returned s
             /\ (up_promiseB (fst (updateOne w params v s l)) = up_promiseB s
                 \/ up_promiseB (fst (updateOne w params v s l))
                    = resolve tt (up_promiseB s))).
  { intros v. unfold updateOne. destruct (assign_params params v); [|auto].
    destruct (invoke w _ l) as [[?|[]] ?]; simpl; auto. }
  destruct e as [| | | | | | |[|k] v|[|k] v|[|k]|[|k] evt]; simpl; auto;
    destruct all; simpl; auto.
Qed.

Lemma update_fresh_react w store index indexVal params allMatches e s l :
  update_fresh (false_by_default allMatches) s ->
  update_fresh (false_by_default allMatches)
    (fst (react w (updateObjectsByIndex store index indexVal params allMatches) (s, l) e)).
Proof.
  intros [F1 F2]. unfold react. simpl.
  destruct (update_handlers_frame w params (false_by_default allMatches) e s l)
    as (HA & HR & HB).
  destruct (update_handlers w params (false_by_default allMatches) e s l) as [s' l'].
  simpl in *. unfold update_fresh, update_reactions.
  cbn [up_puts up_gathered up_promiseA up_promiseB up_returned].
  change (update_found (false_by_default allMatches)
            {| up_puts := up_puts s'; up_gathered := up_gathered s';
               up_promiseA := match update_found (false_by_default allMatches) s' with
                              | Some x => resolve x (up_promiseA s')
                              | None => up_promiseA s'
                              end;
               up_promiseB := up_promiseB s';
               up_returned := _ |})
    with (update_found (false_by_default allMatches) s').
  split.
  - intros x Hx. rewrite Hx. destruct (up_promiseA s'); discriminate.
  - rewrite HR, F2, HA.
    destruct HB as [HB|HB]; rewrite HB;
      destruct (update_found (false_by_default allMatches) s') as [x|];
      destruct (up_promiseA s) as [|a|r]; simpl;
      destruct (up_promiseB s) as [|[]|r']; reflexivity.
Qed.

Lemma promise_all_no_newly_resolved {A} (after before : list (promise A)) :
  Forall2 no_newly_resolved after before ->
  no_newly_resolved (promise_all after) (promise_all before).
Proof.
  induction 1 as [|p q ps qs Hpq _ IH]; intros vs; simpl; [auto|].
  destruct p as [|a|r]; destruct (promise_all ps) as [|vs'|r']; try discriminate.
  intros [= <-]. rewrite (Hpq a eq_refl), (IH vs' eq_refl). reflexivity.
Qed.

Lemma first_resolved_no_newly_resolved {A} (after before : list (promise A)) a :
  Forall2 no_newly_resolved after before ->
  first_resolved after = Some a -> exists y, first_resolved before = Some y.
Proof.
  induction 1 as [|p q ps qs Hpq _ IH]; simpl; [discriminate|].
  destruct p as [|b|r].
  - intros H. destruct q; eauto.
  - intros _. rewrite (Hpq b eq_refl). eauto.
  - intros H. destruct q; eauto.
Qed.

Lemma rejected_puts k r (puts : list (value * promise value)) :
  Forall2 no_newly_resolved
    (map snd (alter (fun vp => (fst vp, reject r (snd vp))) k puts))
    (map snd puts).
Proof.
  revert k. induction puts as [|[o p] puts IH]; intros k; simpl; [constructor|].
  destruct k as [|k]; simpl.
  - constructor.
    + intros a. destruct p; simpl; auto; discriminate.
    + clear IH. induction puts; simpl; constructor; auto. intros b Hb. exact Hb.
  - constructor; [intros b Hb; exact Hb | apply IH].
Qed.

Lemma rejected_puts_take k r n (puts : list (value * promise value)) :
  Forall2 no_newly_resolved
    (map snd (take n (alter (fun vp => (fst vp, reject r (snd vp))) k puts)))
    (map snd (take n puts)).
Proof.
  rewrite <- !firstn_map. apply Forall2_take, rejected_puts.
Qed.

(** After the failure of a put request, a reaction finds something for
    [promiseA] only if one did before. *)
Lemma update_found_after_reject all k r puts gathered pA pB ret x :
  update_found all
    {| up_puts := alter (fun vp => (fst vp, reject r (snd vp))) k puts;
       up_gathered := gathered;
       up_promiseA := pA; up_promiseB := pB; up_returned := ret |} = Some x ->
  exists y,
    update_found all
      {| up_puts := puts; up_gathered := gathered;
         up_promiseA := pA; up_promiseB := pB; up_returned := ret |} = Some y.
Proof.
  unfold update_found. cbn [up_puts up_gathered]. destruct all.
  - match goal with
    | |- option_map _ ?t = _ -> _ => destruct t as [os|] eqn:Hos; [|discriminate]
    end.
    intros _.
    destruct (first_resolved_no_newly_resolved
                (map (fun n => promise_all
                                 (map snd (take n (alter (fun vp => (fst vp, reject r (snd vp)))
                                                     k puts)))) gathered)
                (map (fun n => promise_all (map snd (take n puts))) gathered) os)
      as [y Hy]; [|exact Hos|rewrite Hy; simpl; eauto].
    clear Hos. induction gathered as [|n gathered IH]; simpl; constructor; [|exact IH].
    apply promise_all_no_newly_resolved, rejected_puts_take.
  - match goal with
    | |- option_map _ ?t = _ -> _ => destruct t as [o|] eqn:Ho; [|discriminate]
    end.
    intros _.
    destruct (first_resolved_no_newly_resolved _ _ o (rejected_puts k r puts) Ho)
      as [y Hy].
    rewrite Hy. simpl. eauto.
Qed.

Lemma follow_self {A} (p : promise A) : follow p p = p.
Proof. destruct p; reflexivity. Qed.

Lemma resolve_settled {A} (a : A) (p : promise A) : p <> Pending -> resolve a p = p.
Proof. destruct p; simpl; congruence. Qed.

(** An event that is neither a success nor a complete event leaves the
    promise of [updateObjectsByIndex] as it is. *)
Lemma update_react_split w store index indexVal params allMatches e s l :
  fst (react w (updateObjectsByIndex store index indexVal params allMatches) (s, l) e)
  = update_reactions (false_by_default allMatches)
      (fst (update_handlers w params (false_by_default allMatches) e s l)).
Proof.
  unfold react. simpl.
  destruct (update_handlers w params (false_by_default allMatches) e s l). reflexivity.
Qed.

Lemma update_unmoved w store index indexVal params allMatches e s l :
  on_open_request e = false -> is_success_event e = false ->
  update_fresh (false_by_default allMatches) s ->
  up_returned
    (fst (react w (updateObjectsByIndex store index indexVal params allMatches) (s, l) e))
  = up_returned s.
Proof.
  intros He Hs [F1 F2]. rewrite update_react_split.
  assert (Hsame : forall s' : update_state,
             up_promiseA s' = up_promiseA s -> up_promiseB s' = up_promiseB s ->
             up_returned s' = up_returned s ->
             (forall x, update_found (false_by_default allMatches) s' = Some x ->
                        exists y, update_found (false_by_default allMatches) s = Some y) ->
             up_returned (update_reactions (false_by_default allMatches) s')
             = up_returned s).
  { intros s' HA HB HR Hfound. unfold update_reactions. simpl.
    rewrite HA, HB, HR.
    destruct (update_found (false_by_default allMatches) s') as [x|] eqn:Hx.
    - destruct (Hfound x eq_refl) as [y Hy]. rewrite (resolve_settled x); [|eauto].
      rewrite <- F2. apply follow_self.
    - rewrite <- F2. apply follow_self. }
  destruct e as [| | | | | | | | | |[|k] evt]; try discriminate;
    cbn [update_handlers fst]; apply Hsame; eauto.
  destruct s as [puts gathered pA pB ret].
  cbn [up_puts up_gathered up_promiseA up_promiseB up_returned].
  intros x Hx. eapply update_found_after_reject. exact Hx.
Qed.

Lemma update_fresh_running svc w store index indexVal params allMatches tr tx s :
  at_stage (perform svc w (UpdateObjectsByIndex store index indexVal params allMatches) tr)
  = Running tx s ->
  update_fresh (false_by_default allMatches) s.
Proof.
  apply (running_invariant svc w
           (UpdateObjectsByIndex store index indexVal params allMatches)
           (fun _ s => update_fresh (false_by_default allMatches) s)).
  - intros _. split; [|reflexivity]. unfold update_found. simpl.
    destruct (false_by_default allMatches); discriminate.
  - auto.
  - intros tr' e b l _. apply update_fresh_react.
Qed.

(** The promise returned by [storeObjects] is resolved at success and
    complete events only, and rejected at error events only. *)
Lemma store_settles data tr e s :
  store_inv data tr s -> so_returned s = Pending ->
  (forall x, so_returned (store_reactions (store_handlers data e s)) = Resolved x ->
             is_success_event e = true)
  /\ (forall r, so_returned (store_reactions (store_handlers data e s)) = Rejected r ->
                is_error_event e = true).
Proof.
  intros (K1 & K2 & _) Hp. destruct s as [pA adds pB ret]. simpl in *. subst ret.
  destruct K2 as [[r Hr]|K2]; [discriminate|].
  assert (HA : forall r, pA <> Rejected r).
  { intros r ->. discriminate. }
  assert (HB : forall r, pB <> Rejected r).
  { intros r ->. destruct pA; discriminate. }
  assert (HAB : forall d vs, pA = Resolved d -> pB = Resolved vs -> False).
  { intros d vs -> ->. discriminate. }
  destruct K1 as [[r Hr]|K1]; [exfalso; eapply HB, Hr|].
  assert (Hsame : follow pB (promise_all adds) = pB) by (rewrite <- K1; apply follow_self).
  assert (Hall : forall r, promise_all adds <> Rejected r) by (rewrite <- K1; exact HB).
  unfold store_reactions, store_handlers.
  destruct e as [| | | | |evt| |i res|i v|i|i evt]; simpl; rewrite ?Hsame;
    (split; [intros x Hx; try reflexivity | intros r Hr; try reflexivity]).
  all: try (destruct pA as [|d|r0]; [| |exfalso; eapply HA; reflexivity];
            destruct pB as [|vs|r1]; simpl in *; try discriminate;
            try (exfalso; eapply HAB; reflexivity);
            exfalso; eapply HB; reflexivity).
  - (* a success of an add request does not reject *)
    pose proof (promise_all_alter_resolve tt i adds Hall) as Hno.
    destruct pB as [|vs|r1]; [| |exfalso; eapply HB; reflexivity]; simpl in Hr.
    + destruct (promise_all (alter (resolve tt) i adds)) as [|vs|r1] eqn:Hp.
      * destruct pA as [|d|r0]; try discriminate; exfalso; eapply HA; reflexivity.
      * destruct pA as [|d|r0]; try discriminate; exfalso; eapply HA; reflexivity.
      * exfalso. eapply Hno. reflexivity.
    + destruct pA as [|d|r0]; try discriminate; exfalso; eapply HA; reflexivity.
  - (* an error of an add request does not resolve *)
    destruct pB as [|vs|r1]; [| |exfalso; eapply HB; reflexivity]; simpl in Hx.
    + destruct (promise_all_alter_reject_any (EngineEvent evt) i adds (eq_sym K1)) as [Hq|Hq];
        rewrite Hq in Hx; destruct pA; discriminate.
    + destruct pA as [|d|r0]; try discriminate; exfalso; eapply HAB; reflexivity.
Qed.

Lemma then_pending {A B} (f : A -> B) (p : promise A) :
  then_ f p = Pending -> p = Pending.
Proof. destruct p; simpl; intros H; try discriminate; reflexivity. Qed.

(** The handlers of a running method resolve its promise at success and
    complete events only, and reject it at error events only. *)
Lemma react_settles svc w op tr tx b e l :
  at_stage (perform svc w op tr) = Running tx b ->
  on_open_request e = false ->
  settled (method_of op) b = Pending ->
  (forall x, settled (method_of op) (fst (react w (method_of op) (b, l) e)) = Resolved x ->
             is_success_event e = true)
  /\ (forall r, settled (method_of op) (fst (react w (method_of op) (b, l) e)) = Rejected r ->
                is_error_event e = true).
Proof.
  intros Hst He Hp.
  destruct op as [stores store keyRange _cast|stores store keyRange rev _cast
                 |stores store index range rev _cast|stores store range|store key v
                 |store index indexVal params allMatches|store data|store].
  - simpl in *. subst b. unfold react. simpl.
    destruct e as [| | | | | | |[|k] ?| | |[|k] evt]; simpl; split; intros; 
      try discriminate; reflexivity.
  - simpl in *. apply then_pending in Hp. unfold react, cursor_settled. simpl.
    destruct e as [| | | | | | | |[|k] ?|[|k]|[|k] evt]; simpl; rewrite ?Hp; simpl;
      split; intros; try discriminate; reflexivity.
  - simpl in *. apply then_pending in Hp. unfold react, cursor_settled. simpl.
    destruct e as [| | | | |evt| | |[|k] ?|[|k]|]; simpl; rewrite ?Hp; simpl;
      split; intros; try discriminate; reflexivity.
  - simpl in *. subst b. unfold react. simpl.
    destruct e; simpl; split; intros; try discriminate; reflexivity.
  - simpl in *. subst b. unfold react. simpl.
    destruct e as [| | | | | | |[|k] ?| | |]; simpl; split; intros;
      try discriminate; reflexivity.
  - pose proof (update_fresh_running _ _ _ _ _ _ _ _ _ _ Hst) as Hfresh.
    pose proof (updateObjectsByIndex_invariant _ _ _ _ _ _ _ _ _ _ Hst) as Hinv.
    apply (update_inv_react w store index indexVal params allMatches tr e b l) in Hinv.
    destruct Hinv as (_ & _ & _ & _ & U5).
    change (up_returned b = Pending) in Hp.
    split.
    + intros x Hx. destruct (is_success_event e) eqn:Hs; [reflexivity|].
      change (up_returned
                (fst (react w (updateObjectsByIndex store index indexVal params allMatches)
                        (b, l) e)) = Resolved x) in Hx.
      pose proof (eq_trans
                    (eq_sym (update_unmoved w store index indexVal params allMatches
                               e b l He Hs Hfresh)) Hx) as Hcontra.
      rewrite Hp in Hcontra. discriminate.
    + intros r Hr.
      change (up_returned
                (fst (react w (updateObjectsByIndex store index indexVal params allMatches)
                        (b, l) e)) = Rejected r) in Hr.
      destruct U5 as [U5|(x & _ & U5)];
        pose proof (eq_trans (eq_sym U5) Hr) as Hcontra; discriminate.
  - pose proof (storeObjects_invariant _ _ _ _ _ _ _ Hst) as Hinv.
    apply (store_settles data tr e b Hinv Hp).
  - simpl in *. subst b. unfold react. simpl.
    destruct e; simpl; split; intros; try discriminate; reflexivity.
Qed.

(** While the promise of a call is pending, an event resolves it only if it
    is a success or complete event, and rejects it only if it is an error
    event, or the success of the open request followed by an engine call
    that throws. *)
Lemma settles_at_matching_events svc w op tr e :
  outcome (perform svc w op tr) = Pending ->
  (forall x, outcome (perform svc w op (tr ++ [e])) = Resolved x ->
             is_success_event e = true)
  /\ (forall r, outcome (perform svc w op (tr ++ [e])) = Rejected r ->
                is_error_event e = true
                \/ exists db ex, e = OpenSuccess db /\ r = Thrown ex).
Proof.
  intros Hp. rewrite perform_snoc.
  destruct (outcome_moves w op (perform svc w op tr) e)
    as [H|[[_ [(evt & He & H)|(db & He & [H|[ex H]])]]|(tx & b & He & Hst & H)]];
    rewrite H.
  - rewrite Hp. split; intros; discriminate.
  - subst e. split; intros; [discriminate|]. left. reflexivity.
  - split; intros; discriminate.
  - subst e. split; [intros; discriminate|]. intros r [= <-]. right. eauto.
  - unfold outcome in Hp. rewrite Hst in Hp.
    destruct (react_settles svc w op tr tx b e (log (perform svc w op tr)) Hst He Hp)
      as [H1 H2].
    split; [exact H1|]. intros r Hr. left. eapply H2, Hr.
Qed.






(** ** The cursor of [updateObjectsByIndex] *)

Lemma update_react_never_continues w store index indexVal params allMatches b l e :
  exists added,
    snd (react w (method_of (UpdateObjectsByIndex store index indexVal params allMatches))
           (b, l) e) = l ++ added
    /\ Forall (fun c => is_continue c = false) added.
Proof.
  assert (Hnil : exists added : list action,
             l = l ++ added /\ Forall (fun c => is_continue c = false) added)
    by (exists []; rewrite app_nil_r; split; [reflexivity | constructor]).
  assert (Hone : forall v s,
             exists added : list action,
               snd (updateOne w params v s l) = l ++ added
               /\ Forall (fun c => is_continue c = false) added).
  { intros v s. unfold updateOne. destruct (assign_params params v) as [o|]; [|exact Hnil].
    destruct (invoke_cases w (Put o) l) as [H|[ex H]]; rewrite H; simpl;
      exists [Put o]; (split; [reflexivity|]); repeat constructor. }
  unfold react. simpl.
  destruct e as [| | | | | | |[|k] ?|[|k] ?|[|k]|[|k] ?]; simpl; try exact Hnil;
    destruct (false_by_default allMatches); simpl; try exact Hnil.
  - destruct (Hone result b) as [added [H1 H2]].
    destruct (updateOne w params result b l); simpl in *. eauto.
  - destruct (Hone v b) as [added [H1 H2]].
    destruct (updateOne w params v b l); simpl in *. eauto.
Qed.

Lemma update_gathered_kept w params e s l :
  e <> CursorEnd 0 ->
  up_gathered (fst (update_handlers w params true e s l)) = up_gathered s.
Proof.
  intros He.
  assert (Hone : forall v, up_gathered (fst (updateOne w params v s l)) = up_gathered s).
  { intros v. unfold updateOne. destruct (assign_params params v); [|reflexivity].
    destruct (invoke w _ l) as [[?|[]] ?]; reflexivity. }
  destruct e as [| | | | | | |[|k] v|[|k] v|[|k]|[|k] evt]; simpl; auto.
  contradiction.
Qed.

(** With [allMatches], the success handler of the cursor updates the record
    under the cursor and returns: no handler of [updateObjectsByIndex] ever
    calls [continue()].  An engine fires the next success event of a cursor
    only once [continue()] was called, so a cursor that is on a record gets
    that one event and no other, the end of the cursor never comes, and as
    long as it does not the promise stays pending, whatever else happens: the
    success of the puts and the completion of the transaction included. *)
Theorem updateObjectsByIndex_never_advances_its_cursor :
  forall (svc : IDBService) (w : browser) (store : string) (index : option string)
         (indexVal : value) (params : list PutParams) (allMatches : option bool),
    let op := UpdateObjectsByIndex store index indexVal params allMatches in
    (forall tr, Forall (fun c => is_continue c = false) (log (perform svc w op tr)))
    /\ (forall v vs s l,
           serve_cursor w (method_of op) (v :: vs) (s, l)
           = react w (method_of op) (s, l) (CursorAt 0 v))
    /\ (calm w -> precheck (method_of op) = None ->
        false_by_default allMatches = true ->
        forall db tr,
          ~ In (CursorEnd 0) tr ->
          outcome (perform svc w op (OpenSuccess db :: tr)) = Pending).
Proof.
  intros svc w store index indexVal params allMatches op.
  split; [|split].
  - apply (perform_ind svc w op
             (fun _ f => Forall (fun c => is_continue c = false) (log f))).
    + unfold start, _init_. destruct (precheck (method_of op)); [constructor|].
      destruct (indexedDB w); [|constructor]. unfold bind.
      destruct (invoke_cases w (Open (this_database svc) (this_version svc)) [])
        as [H|[ex H]]; rewrite H; simpl; repeat constructor.
    + intros tr e IH.
      destruct (step_moves w op (perform svc w op tr) e)
        as [Hnone|db He Hreq| He Hreq |evt He Hopen|db He Hopen
           |db ex pre post He Hopen Hpre Hne|tx' b' He Hrun]; cbn [log]; try exact IH.
      * apply Forall_app. split; [exact IH|].
        unfold request_onupgradeneeded.
        destruct (onVersionChange _) as [f|]; [destruct (f db)|]; repeat constructor.
      * apply Forall_app. split; [exact IH|].
        unfold request_onblocked. destruct (onblocked _); repeat constructor.
      * apply Forall_app. split; [exact IH|]. unfold op. simpl.
        destruct (false_by_default allMatches); repeat constructor.
      * apply Forall_app. split; [exact IH|].
        assert (Hall : Forall (fun c => is_continue c = false)
                         (transaction_call op db :: body_calls op))
          by (unfold op; simpl; destruct (false_by_default allMatches);
              repeat constructor).
        rewrite Hpre in Hall. apply Forall_app in Hall. tauto.
      * destruct (update_react_never_continues w store index indexVal params allMatches
                    b' (log (perform svc w op tr)) e) as (added & Hlog & Hadded).
        fold op in Hlog. rewrite Hlog.
        apply Forall_app. split; [exact IH | exact Hadded].
  - intros v vs s l. cbn [serve_cursor].
    destruct (update_react_never_continues w store index indexVal params allMatches
                s l (CursorAt 0 v)) as (added & Hlog & Hadded).
    cbn [snd]. fold op in Hlog. rewrite Hlog, drop_app_length.
    replace (existsb is_continue added) with false; [reflexivity|].
    clear Hlog. induction Hadded as [|c added Hc _ IH]; simpl; [reflexivity|].
    rewrite Hc. exact IH.
  - intros Hw Hpre Hall db tr Hend. subst op.
    destruct (connected_invariant svc w
                (UpdateObjectsByIndex store index indexVal params allMatches) db
                (fun tr s => ~ In (CursorEnd 0) tr ->
                             up_gathered s = [] /\ up_promiseA s = Pending)
                Hw Hpre) with (tr := tr) as (s & Hst & Hs).
    + intros _. split; reflexivity.
    + intros tr0 e b _ IH Hno. apply IH. intros Hin. apply Hno, in_app_iff. auto.
    + intros tr0 e b l He IH Hno.
      destruct IH as [Hg HA]; [intros Hin; apply Hno, in_app_iff; auto|].
      unfold react. cbn [method_of updateObjectsByIndex on_event fst snd].
      rewrite Hall.
      assert (Hne : e <> CursorEnd 0)
        by (intros ->; apply Hno, in_app_iff; right; left; reflexivity).
      pose proof (update_gathered_kept w params e b l Hne) as Hg'.
      destruct (update_handlers_frame w params true e b l) as (HA' & _).
      destruct (update_handlers w params true e b l) as [s' l']. cbn [fst] in *.
      unfold update_reactions, update_found. cbn [up_gathered up_promiseA].
      rewrite Hg', Hg. cbn. rewrite HA', HA. split; reflexivity.
    + destruct (Hs Hend) as [_ HA]. unfold outcome. rewrite Hst.
      destruct (updateObjectsByIndex_invariant svc w store index indexVal params
                  allMatches _ _ _ Hst) as (_ & _ & _ & _ & [Hp|(x & Hx & _)]).
      * exact Hp.
      * simpl in Hx. rewrite HA in Hx. discriminate.
Qed.

Lemma updateObjectsByIndex_never_advances_its_cursor_witness :
  let op := UpdateObjectsByIndex "n" (Some "by_tag") (VStr "x")
              [{| param_index := None; param_name := "done"; param_value := VBool true |}]
              (Some true) in
  calm calm_browser
  /\ log (perform sample_service calm_browser op
            [OpenSuccess 7; CursorAt 0 (VObj [("tag", VStr "x")]);
             ReqSuccess 1 (VNum 1); TxComplete])
     = [Open "notes" 2; Transaction 7 (OneStore "n") "readwrite"; ObjectStore "n";
        Index "by_tag"; OpenCursor (VStr "x") None;
        Put (VObj [("tag", VStr "x"); ("done", VBool true)])]
  /\ outcome (perform sample_service calm_browser op
                (OpenSuccess 7 :: [CursorAt 0 (VObj [("tag", VStr "x")]);
                                   ReqSuccess 1 (VNum 1); TxComplete]))
     = Pending.
Proof.
  intros op.
  assert (Hw : calm calm_browser) by (split; [reflexivity | intros; reflexivity]).
  split; [exact Hw|]. split; [reflexivity|].
  apply (proj2 (proj2 (updateObjectsByIndex_never_advances_its_cursor sample_service
                         calm_browser "n" (Some "by_tag") (VStr "x")
                         [{| param_index := None; param_name := "done";
                             param_value := VBool true |}] (Some true)))
           Hw eq_refl eq_refl 7).
  intros [H|[H|[H|[]]]]; discriminate H.
Defined.

(** ** Calls that never get a connection *)

(** A call rejected at once has no open request: no event reaches it. *)
Lemma refused_step w m (f : flight (mstate m)) r e :
  at_stage f = Refused r -> step w m f e = f.
Proof.
  intros Hst. unfold step. rewrite Hst. destruct (on_open_request e); reflexivity.
Qed.

Lemma refused_run w m tr : forall (f : flight (mstate m)) r,
  at_stage f = Refused r -> fold_left (step w m) tr f = f.
Proof.
  induction tr as [|e tr IH]; intros f r Hst; simpl; [reflexivity|].
  rewrite (refused_step w m f r e Hst). eapply IH, Hst.
Qed.

Lemma refused_perform svc w op tr r :
  at_stage (start svc w (method_of op)) = Refused r ->
  perform svc w op tr = start svc w (method_of op).
Proof. intros Hst. unfold perform, run. eapply refused_run, Hst. Qed.

(** Without [window.indexedDB] an operation that passes its own checks is
    rejected by [_init_] with the adapter's error, whatever the engine does
    afterwards, and nothing is called: neither [open] nor a callback. *)
Theorem without_indexedDB_nothing_is_called :
  forall (svc : IDBService) (w : browser) (op : operation) (tr : list event),
    indexedDB w = false ->
    precheck (method_of op) = None ->
    outcome (perform svc w op tr)
    = Rejected (AdapterError "Browser kit does not support indexedDB")
    /\ log (perform svc w op tr) = [].
Proof.
  intros svc w op tr Hw Hpre.
  assert (Hstart : start svc w (method_of op)
                   = {| this := svc; log := [];
                        at_stage :=
                          Refused (AdapterError "Browser kit does not support indexedDB") |}).
  { unfold start, _init_. rewrite Hpre, Hw. reflexivity. }
  rewrite (refused_perform svc w op tr
             (AdapterError "Browser kit does not support indexedDB"))
    by (rewrite Hstart; reflexivity).
  rewrite Hstart. split; reflexivity.
Qed.

Lemma without_indexedDB_nothing_is_called_witness :
  outcome (perform sample_service {| indexedDB := false; throws := fun _ _ => None |}
             (ClearStore "n") [OpenSuccess 7; TxComplete])
  = Rejected (AdapterError "Browser kit does not support indexedDB")
  /\ log (perform sample_service {| indexedDB := false; throws := fun _ _ => None |}
            (ClearStore "n") [OpenSuccess 7; TxComplete]) = [].
Proof.
  apply without_indexedDB_nothing_is_called; reflexivity.
Defined.

(** When [indexedDB.open] throws, the operation is rejected with the string
    ["ERROR: " + e] made by the catch of [_init_]; [open] is the only call
    made, and no event changes that. *)
Theorem open_throwing_is_reported_as_a_string :
  forall (svc : IDBService) (w : browser) (op : operation) (tr : list event) (e : exn),
    indexedDB w = true ->
    throws w [] (Open (this_database svc) (this_version svc)) = Some e ->
    precheck (method_of op) = None ->
    outcome (perform svc w op tr) = Rejected (OpenFailure ("ERROR: " +:+ e))
    /\ log (perform svc w op tr) = [Open (this_database svc) (this_version svc)].
Proof.
  intros svc w op tr e Hw Hthrows Hpre.
  assert (Hstart : start svc w (method_of op)
                   = {| this := svc;
                        log := [Open (this_database svc) (this_version svc)];
                        at_stage := Refused (OpenFailure ("ERROR: " +:+ e)) |}).
  { unfold start, _init_, invoke. rewrite Hpre, Hw, Hthrows. reflexivity. }
  rewrite (refused_perform svc w op tr (OpenFailure ("ERROR: " +:+ e)))
    by (rewrite Hstart; reflexivity).
  rewrite Hstart. split; reflexivity.
Qed.

Lemma open_throwing_is_reported_as_a_string_witness :
  outcome (perform sample_service
             {| indexedDB := true;
                throws := fun _ c => if is_open c then Some "TypeError" else None |}
             (StoreObjects "n" [VNum 1]) [OpenSuccess 7; TxComplete])
  = Rejected (OpenFailure "ERROR: TypeError")
  /\ log (perform sample_service
            {| indexedDB := true;
               throws := fun _ c => if is_open c then Some "TypeError" else None |}
            (StoreObjects "n" [VNum 1]) [OpenSuccess 7; TxComplete])
     = [Open "notes" 2].
Proof.
  apply (open_throwing_is_reported_as_a_string sample_service
           {| indexedDB := true;
              throws := fun _ c => if is_open c then Some "TypeError" else None |}
           (StoreObjects "n" [VNum 1]) [OpenSuccess 7; TxComplete] "TypeError");
    reflexivity.
Defined.

(** ** The argument checks *)

(** [replaceObjectByKey] called with an undefined key is rejected by its own
    check, in any browser and whatever the engine fires: [getTransaction] is
    never called, so nothing is opened, deleted or added. *)
Theorem replaceObjectByKey_requires_a_key :
  forall (svc : IDBService) (w : browser) (store : string) (v : value)
         (tr : list event),
    outcome (perform svc w (ReplaceObjectByKey store VUndefined v) tr)
    = Rejected (AdapterError "updateByIndex() needs a key value!")
    /\ log (perform svc w (ReplaceObjectByKey store VUndefined v) tr) = [].
Proof.
  intros svc w store v tr.
  rewrite (refused_perform svc w (ReplaceObjectByKey store VUndefined v) tr
             (AdapterError "updateByIndex() needs a key value!")) by reflexivity.
  split; reflexivity.
Qed.

(** [updateObjectsByIndex] checks [params] first and [index] second: with no
    params it is rejected with the first error even when the index is missing
    too, with params and no index with the second.  In both cases nothing is
    called, in any browser and whatever the engine fires. *)
Theorem updateObjectsByIndex_checks_its_arguments :
  forall (svc : IDBService) (w : browser) (store : string) (indexVal : value)
         (allMatches : option bool) (tr : list event),
    (forall index,
        outcome (perform svc w (UpdateObjectsByIndex store index indexVal [] allMatches) tr)
        = Rejected (AdapterError "updateByIndex() needs at least one PutParams")
        /\ log (perform svc w (UpdateObjectsByIndex store index indexVal [] allMatches) tr)
           = [])
    /\ (forall param params,
           outcome (perform svc w
                      (UpdateObjectsByIndex store None indexVal (param :: params) allMatches)
                      tr)
           = Rejected (AdapterError "updateByProperty() needs index of the value!")
           /\ log (perform svc w
                     (UpdateObjectsByIndex store None indexVal (param :: params) allMatches)
                     tr)
              = []).
Proof.
  intros svc w store indexVal allMatches tr. split.
  - intros index.
    rewrite (refused_perform svc w (UpdateObjectsByIndex store index indexVal [] allMatches)
               tr (AdapterError "updateByIndex() needs at least one PutParams"))
      by reflexivity.
    split; reflexivity.
  - intros param params.
    rewrite (refused_perform svc w
               (UpdateObjectsByIndex store None indexVal (param :: params) allMatches)
               tr (AdapterError "updateByProperty() needs index of the value!"))
      by reflexivity.
    split; reflexivity.
Qed.

(** ** When the open request fails *)

(** Once the promise of [_init_] is rejected, the callbacks of the open
    request are all that is left. *)
Lemma failed_step w m (f : flight (mstate m)) r e :
  at_stage f = Failed r ->
  at_stage (step w m f e) = Failed r
  /\ requests (log (step w m f e)) = requests (log f)
  /\ transactions (log (step w m f e)) = transactions (log f).
Proof.
  intros Hst. unfold step. rewrite Hst.
  destruct e; simpl; try (rewrite Hst; auto); auto.
  - destruct (upgrade_quiet (this f) db) as [Hq Hi].
    rewrite requests_app, transactions_app, Hq, (inner_transactions _ Hi), !app_nil_r. auto.
  - destruct (blocked_quiet (this f)) as [Hq Hi].
    rewrite requests_app, transactions_app, Hq, (inner_transactions _ Hi), !app_nil_r. auto.
Qed.

Lemma failed_run w m tr : forall (f : flight (mstate m)) r,
  at_stage f = Failed r ->
  at_stage (fold_left (step w m) tr f) = Failed r
  /\ requests (log (fold_left (step w m) tr f)) = requests (log f)
  /\ transactions (log (fold_left (step w m) tr f)) = transactions (log f).
Proof.
  induction tr as [|e tr IH]; intros f r Hst; simpl; [auto|].
  destruct (failed_step w m f r e Hst) as (H1 & H2 & H3).
  destruct (IH _ _ H1) as (K1 & K2 & K3). rewrite K2, K3. auto.
Qed.

(** While the open request is pending the log holds no transaction and no
    request. *)
Lemma opening_quiet svc w op tr :
  at_stage (perform svc w op tr) = Opening ->
  requests (log (perform svc w op tr)) = []
  /\ transactions (log (perform svc w op tr)) = [].
Proof.
  intros Hst. destruct (perform_log_shape svc w op tr) as (rest & Hlog & _ & Hshape).
  rewrite Hst in Hshape. destruct Hshape as (_ & Ht & Hq).
  rewrite Hlog, requests_app, transactions_app, requests_opening, transactions_opening,
    Ht, Hq. auto.
Qed.

(** While the open request is pending, an error event on it rejects the
    promise of the operation with that event; whatever the engine fires
    afterwards, a late success included, the promise stays rejected with it,
    no transaction is started and no request is made. *)
Theorem open_error_is_final :
  forall (svc : IDBService) (w : browser) (op : operation) (tr : list event)
         (evt : event_id) (later : list event),
    at_stage (perform svc w op tr) = Opening ->
    outcome (perform svc w op (tr ++ OpenError evt :: later))
    = Rejected (EngineEvent evt)
    /\ transactions (log (perform svc w op (tr ++ OpenError evt :: later))) = []
    /\ requests (log (perform svc w op (tr ++ OpenError evt :: later))) = [].
Proof.
  intros svc w op tr evt later Hst.
  destruct (opening_quiet svc w op tr Hst) as [Hq Ht].
  rewrite perform_app. simpl.
  assert (Hfail : step w (method_of op) (perform svc w op tr) (OpenError evt)
                  = {| this := this (perform svc w op tr);
                       log := log (perform svc w op tr);
                       at_stage := Failed (EngineEvent evt) |}).
  { unfold step. rewrite Hst. reflexivity. }
  rewrite Hfail.
  destruct (failed_run w (method_of op) later
              {| this := this (perform svc w op tr);
                 log := log (perform svc w op tr);
                 at_stage := Failed (EngineEvent evt) |} (EngineEvent evt) eq_refl)
    as (K1 & K2 & K3).
  unfold outcome. rewrite K1, K2, K3. simpl. auto.
Qed.

Lemma open_error_is_final_witness :
  at_stage (perform sample_service calm_browser (StoreObjects "n" [VNum 1])
              [OpenBlocked])
  = Opening
  /\ outcome (perform sample_service calm_browser (StoreObjects "n" [VNum 1])
                ([OpenBlocked] ++ OpenError 3 :: [OpenSuccess 7; TxComplete]))
     = Rejected (EngineEvent 3)
  /\ transactions (log (perform sample_service calm_browser (StoreObjects "n" [VNum 1])
                          ([OpenBlocked] ++ OpenError 3 :: [OpenSuccess 7; TxComplete])))
     = [].
Proof.
  split; [reflexivity|].
  destruct (open_error_is_final sample_service calm_browser (StoreObjects "n" [VNum 1])
              [OpenBlocked] 3 [OpenSuccess 7; TxComplete] eq_refl) as (H1 & H2 & _).
  split; [exact H1 | exact H2].
Defined.

(** ** The callbacks of the open request *)

(** A blocked event, on an open request that exists, calls the client's
    [onBlocked] when the configuration has one and nothing otherwise.  Neither
    it nor an upgrade-needed event settles anything: the call stays where it
    was, with the same promise, and the transaction is started by the success
    event only. *)
Theorem blocked_and_upgrade_events_settle_nothing :
  forall (cfg : IDBServiceConfig) (w : browser) (op : operation) (tr : list event),
    has_open_request (perform (constructor cfg) w op tr) = true ->
    log (perform (constructor cfg) w op (tr ++ [OpenBlocked]))
    = log (perform (constructor cfg) w op tr)
        ++ match onBlocked cfg with Some _ => [OnBlocked] | None => [] end
    /\ at_stage (perform (constructor cfg) w op (tr ++ [OpenBlocked]))
       = at_stage (perform (constructor cfg) w op tr)
    /\ forall db,
        at_stage (perform (constructor cfg) w op (tr ++ [OpenUpgradeNeeded db]))
        = at_stage (perform (constructor cfg) w op tr).
Proof.
  intros cfg w op tr Hreq.
  assert (Hblocked : request_onblocked (constructor cfg)
                     = match onBlocked cfg with Some _ => [OnBlocked] | None => [] end).
  { unfold request_onblocked, constructor. simpl. destruct (onBlocked cfg); reflexivity. }
  pose proof (perform_this (constructor cfg) w op tr) as Hthis.
  unfold has_open_request in Hreq.
  split; [|split; [|intros db]]; rewrite perform_snoc; unfold step; simpl;
    destruct (at_stage (perform (constructor cfg) w op tr)) as [r| |r|tx b];
    try discriminate; simpl; rewrite ?Hthis, ?Hblocked; reflexivity.
Qed.

Lemma blocked_and_upgrade_events_settle_nothing_witness :
  has_open_request (perform sample_service calm_browser (ClearStore "n") []) = true
  /\ log (perform sample_service calm_browser (ClearStore "n") ([] ++ [OpenBlocked]))
     = [Open "notes" 2]
  /\ at_stage (perform sample_service calm_browser (ClearStore "n")
                 ([] ++ [OpenUpgradeNeeded 7]))
     = Opening.
Proof.
  split; [reflexivity|].
  destruct (blocked_and_upgrade_events_settle_nothing sample_config calm_browser
              (ClearStore "n") [] eq_refl) as (H1 & _ & H3).
  split; [exact H1 | exact (H3 7)].
Defined.

(** ** Engine calls that throw *)

(** A run of calls stops at the first that throws. *)
Lemma invoke_each_throws w ex c post : forall pre l,
  (forall i c', pre !! i = Some c' -> throws w (l ++ take i pre) c' = None) ->
  throws w (l ++ pre) c = Some ex ->
  invoke_each w (pre ++ c :: post) l = (inl ex, l ++ pre ++ [c]).
Proof.
  induction pre as [|c0 pre IH]; intros l Hpre Hc; simpl.
  - unfold bind, invoke. rewrite app_nil_r in Hc. rewrite Hc. reflexivity.
  - unfold bind, invoke.
    pose proof (Hpre 0 c0 eq_refl) as H0. simpl in H0. rewrite app_nil_r in H0.
    rewrite H0. rewrite (IH (l ++ [c0])).
    + rewrite <- app_assoc. reflexivity.
    + intros i c' Hi. rewrite <- app_assoc. apply (Hpre (S i) c'). exact Hi.
    + rewrite <- app_assoc. exact Hc.
Qed.

(** When [db.transaction] or a call of the body throws, the calls before it
    have been made, those after it are not, and the promise of the operation
    is rejected with what was thrown.  No event changes that afterwards, and
    none adds a request or a transaction. *)
Theorem engine_exceptions_reject :
  forall (svc : IDBService) (w : browser) (op : operation) (tr : list event)
         (db : handle) (pre : list action) (c : action) (post : list action)
         (ex : exn) (later : list event),
    at_stage (perform svc w op tr) = Opening ->
    transaction_call op db :: body_calls op = pre ++ c :: post ->
    (forall i c', pre !! i = Some c' ->
                  throws w (log (perform svc w op tr) ++ take i pre) c' = None) ->
    throws w (log (perform svc w op tr) ++ pre) c = Some ex ->
    log (perform svc w op (tr ++ [OpenSuccess db]))
    = log (perform svc w op tr) ++ pre ++ [c]
    /\ outcome (perform svc w op (tr ++ OpenSuccess db :: later)) = Rejected (Thrown ex)
    /\ requests (log (perform svc w op (tr ++ OpenSuccess db :: later)))
       = requests (pre ++ [c])
    /\ transactions (log (perform svc w op (tr ++ OpenSuccess db :: later)))
       = transactions (pre ++ [c]).
Proof.
  intros svc w op tr db pre c post ex later Hst Hcalls Hpre Hc.
  destruct (opening_quiet svc w op tr Hst) as [Hq Ht].
  assert (Hstep : step w (method_of op) (perform svc w op tr) (OpenSuccess db)
                  = {| this := this (perform svc w op tr);
                       log := log (perform svc w op tr) ++ pre ++ [c];
                       at_stage := Failed (Thrown ex) |}).
  { unfold step. rewrite Hst. simpl. rewrite on_connected_straight, Hcalls.
    rewrite (invoke_each_throws w ex c post pre _ Hpre Hc). reflexivity. }
  split.
  - rewrite perform_snoc, Hstep. reflexivity.
  - rewrite perform_app. simpl. rewrite Hstep.
    destruct (failed_run w (method_of op) later
                {| this := this (perform svc w op tr);
                   log := log (perform svc w op tr) ++ pre ++ [c];
                   at_stage := Failed (Thrown ex) |} (Thrown ex) eq_refl)
      as (K1 & K2 & K3).
    unfold outcome. rewrite K1, K2, K3. simpl.
    rewrite requests_app, transactions_app, Hq, Ht. auto.
Qed.

Lemma engine_exceptions_reject_witness :
  let w := {| indexedDB := true;
              throws := fun _ c => match c with
                                   | ObjectStore _ => Some "NotFoundError"
                                   | _ => None
                                   end |} in
  outcome (perform sample_service w (StoreObjects "n" [VNum 1])
             ([] ++ OpenSuccess 7 :: [TxComplete]))
  = Rejected (Thrown "NotFoundError")
  /\ requests (log (perform sample_service w (StoreObjects "n" [VNum 1])
                      ([] ++ OpenSuccess 7 :: [TxComplete])))
     = [].
Proof.
  intros w.
  destruct (engine_exceptions_reject sample_service w (StoreObjects "n" [VNum 1]) [] 7
              [Transaction 7 (OneStore "n") "readwrite"] (ObjectStore "n")
              [Add (VNum 1)] "NotFoundError" [TxComplete])
    as (_ & H2 & H3 & _).
  - reflexivity.
  - reflexivity.
  - intros [|i] c' Hi; [injection Hi as <-; reflexivity | discriminate Hi].
  - reflexivity.
  - split; [exact H2 | exact H3].
Defined.

(** ** Reading and writing *)





(** ** [getObjectsByIndex] *)

Lemma getObjectsByIndex_visits svc w stores store index range reverse _cast tx vs :
  forall s l,
  fold_left (step w (getObjectsByIndex stores store index range reverse _cast))
    (map (CursorAt 0) vs)
    {| this := svc; log := l; at_stage := Running tx s |}
  = {| this := svc;
       log := l ++ repeat Continue (length vs);
       at_stage :=
         Running tx {| res := res s ++ map (cast_or_default _cast) vs;
                       cursor_promise := cursor_promise s |} |}.
Proof.
  induction vs as [|v vs IH]; intros s l; simpl.
  - rewrite !app_nil_r. destruct s; reflexivity.
  - unfold step at 2. simpl. rewrite invoke_log, IH. simpl.
    rewrite <- !app_assoc. reflexivity.
Qed.

(** What [res] holds and how the promise of the cursor got settled, on any
    events after the connection. *)
Lemma getObjectsByIndex_invariant svc w stores store index range reverse _cast db tr :
  calm w ->
  exists s,
    at_stage (perform svc w (GetObjectsByIndex stores store index range reverse _cast)
                (OpenSuccess db :: tr))
    = Running {| tx_db := db; tx_stores := stores; tx_mode := "readonly" |} s
    /\ res s = map (cast_or_default _cast) (visited_by tr)
    /\ (cursor_promise s = Resolved tt -> In (CursorEnd 0) tr)
    /\ (forall r, cursor_promise s = Rejected r ->
                  exists evt, r = EngineEvent evt /\ In (TxError evt) tr).
Proof.
  intros Hw.
  apply (connected_invariant svc w
           (GetObjectsByIndex stores store index range reverse _cast) db
           (fun tr s =>
              res s = map (cast_or_default _cast) (visited_by tr)
              /\ (cursor_promise s = Resolved tt -> In (CursorEnd 0) tr)
              /\ (forall r, cursor_promise s = Rejected r ->
                            exists evt, r = EngineEvent evt /\ In (TxError evt) tr))
           Hw eq_refl).
  - simpl. split; [reflexivity|]. split; [discriminate|]. intros r. discriminate.
  - intros tr0 e s He (H1 & H2 & H3). rewrite visited_by_snoc.
    split; [|split].
    + destruct e; try discriminate He; rewrite app_nil_r; exact H1.
    + intros Hs. apply in_app_iff. auto.
    + intros r Hr. destruct (H3 r Hr) as (evt & -> & Hin).
      exists evt. split; [reflexivity|]. apply in_app_iff. auto.
  - intros tr0 e s l He (H1 & H2 & H3). rewrite visited_by_snoc.
    assert (Hsame : res s = map (cast_or_default _cast) (visited_by tr0 ++ [])
                    /\ (cursor_promise s = Resolved tt -> In (CursorEnd 0) (tr0 ++ [e]))
                    /\ (forall r, cursor_promise s = Rejected r ->
                                  exists evt, r = EngineEvent evt
                                              /\ In (TxError evt) (tr0 ++ [e]))).
    { rewrite app_nil_r. split; [exact H1|]. split.
      - intros Hs. apply in_app_iff. auto.
      - intros r Hr. destruct (H3 r Hr) as (evt & -> & Hin).
        exists evt. split; [reflexivity|]. apply in_app_iff. auto. }
    destruct Hsame as (S1 & S2 & S3).
    unfold react. simpl.
    destruct e as [| | | | |evt| | |[|k] v|[|k]|]; simpl; try (split; [|split]; assumption).
    + split; [exact S1|]. split.
      * destruct (cursor_promise s); simpl; [discriminate|exact S2|discriminate].
      * intros r. destruct (cursor_promise s) as [| |r0] eqn:Hc; simpl.
        -- intros [= <-]. exists evt. split; [reflexivity|].
           apply in_app_iff. right. left. reflexivity.
        -- discriminate.
        -- intros [= <-]. apply S3. reflexivity.
    + split; [|split; assumption].
      rewrite H1, map_app. reflexivity.
    + split; [exact S1|]. split.
      * intros _. apply in_app_iff. right. left. reflexivity.
      * intros r. destruct (cursor_promise s) as [| |r0] eqn:Hc; simpl; try discriminate.
        intros [= <-]. apply S3. reflexivity.
Qed.

(** [getObjectsByIndex] over any events after the connection: its promise is
    resolved only once the cursor has reported its end, with the values the
    cursor was on, in that order, each through the cast; it is rejected only
    with an error event of the transaction.  While the cursor is on records
    the promise is pending and the cursor is advanced after each; the end of
    the cursor then resolves it, with the values themselves when [_cast] is
    left out and with what the function makes of each when one is supplied;
    an error event of the transaction rejects it with that event, after
    [console.error] of it.  The cursor request has no error handler: its
    error event rejects the promise when it comes to the transaction. *)
Theorem getObjectsByIndex_collects :
  forall (svc : IDBService) (w : browser) (stores : scope) (store index : string)
         (range : value) (reverse : option bool) (_cast : option (value -> value))
         (db : handle),
    calm w ->
    let op := GetObjectsByIndex stores store index range reverse _cast in
    (forall tr x,
        outcome (perform svc w op (OpenSuccess db :: tr)) = Resolved x ->
        In (CursorEnd 0) tr
        /\ x = array_of (map (cast_or_default _cast) (visited_by tr)))
    /\ (forall tr r,
           outcome (perform svc w op (OpenSuccess db :: tr)) = Rejected r ->
           exists evt, r = EngineEvent evt /\ In (TxError evt) tr)
    /\ (forall visited,
           outcome (perform svc w op (OpenSuccess db :: map (CursorAt 0) visited)) = Pending
           /\ log (perform svc w op (OpenSuccess db :: map (CursorAt 0) visited))
              = [Open (this_database svc) (this_version svc);
                 Transaction db stores "readonly";
                 ObjectStore store; Index index;
                 OpenCursor range (getObjectsByIndex_direction (false_by_default reverse))]
                ++ repeat Continue (length visited)
           /\ outcome (perform svc w op
                         (OpenSuccess db :: map (CursorAt 0) visited ++ [CursorEnd 0]))
              = Resolved (array_of (map (cast_or_default _cast) visited))
           /\ (forall evt,
                  outcome (perform svc w op
                             (OpenSuccess db :: map (CursorAt 0) visited ++ [TxError evt]))
                  = Rejected (EngineEvent evt)
                  /\ In (ConsoleError evt)
                       (log (perform svc w op
                               (OpenSuccess db :: map (CursorAt 0) visited
                                  ++ [TxError evt]))))
           /\ (_cast = None ->
               outcome (perform svc w op
                          (OpenSuccess db :: map (CursorAt 0) visited ++ [CursorEnd 0]))
               = Resolved (array_of visited))
           /\ (forall f,
                  _cast = Some f ->
                  outcome (perform svc w op
                             (OpenSuccess db :: map (CursorAt 0) visited ++ [CursorEnd 0]))
                  = Resolved (array_of (map f visited)))
           /\ (forall evt,
                  outcome (perform svc w op
                             (OpenSuccess db :: map (CursorAt 0) visited
                                ++ [ReqError 0 evt; TxError evt]))
                  = Rejected (EngineEvent evt))).
Proof.
  intros svc w stores store index range reverse _cast db Hw op.
  split; [|split].
  - intros tr x Hx.
    destruct (getObjectsByIndex_invariant svc w stores store index range reverse _cast
                db tr Hw) as (s & Hst & H1 & H2 & _).
    unfold outcome in Hx. fold op in Hst. rewrite Hst in Hx. simpl in Hx.
    unfold cursor_settled in Hx.
    destruct (cursor_promise s) as [|[]|r]; simpl in Hx; try discriminate.
    injection Hx as <-. split; [auto|]. rewrite H1. reflexivity.
  - intros tr r Hr.
    destruct (getObjectsByIndex_invariant svc w stores store index range reverse _cast
                db tr Hw) as (s & Hst & _ & _ & H3).
    unfold outcome in Hr. fold op in Hst. rewrite Hst in Hr. simpl in Hr.
    unfold cursor_settled in Hr.
    destruct (cursor_promise s) as [|[]|r0]; simpl in Hr; try discriminate.
    injection Hr as <-. apply H3. reflexivity.
  - intros visited.
    assert (Hrun : perform svc w op (OpenSuccess db :: map (CursorAt 0) visited)
                   = {| this := svc;
                        log := [Open (this_database svc) (this_version svc);
                                Transaction db stores "readonly";
                                ObjectStore store; Index index;
                                OpenCursor range
                                  (getObjectsByIndex_direction (false_by_default reverse))]
                               ++ repeat Continue (length visited);
                        at_stage :=
                          Running {| tx_db := db; tx_stores := stores;
                                     tx_mode := "readonly" |}
                                  {| res := map (cast_or_default _cast) visited;
                                     cursor_promise := Pending |} |}).
    { unfold op.
      rewrite (perform_connected svc w
                 (GetObjectsByIndex stores store index range reverse _cast) db _ Hw eq_refl).
      simpl. apply (getObjectsByIndex_visits svc w stores store index range reverse _cast). }
    split; [rewrite Hrun; reflexivity|].
    split; [rewrite Hrun; reflexivity|].
    assert (Hend : outcome (perform svc w op
                              (OpenSuccess db :: map (CursorAt 0) visited ++ [CursorEnd 0]))
                   = Resolved (array_of (map (cast_or_default _cast) visited)))
      by (rewrite app_comm_cons, perform_snoc, Hrun; reflexivity).
    split; [exact Hend|].
    split; [|split; [|split]].
    + intros evt. rewrite app_comm_cons, perform_snoc, Hrun.
      split; [reflexivity|]. unfold step. cbn [on_open_request at_stage log on_event
        method_of getObjectsByIndex].
      apply in_app_iff. right. left. reflexivity.
    + intros ->. rewrite Hend. simpl. unfold cast. rewrite map_id. reflexivity.
    + intros f ->. rewrite Hend. reflexivity.
    + intros evt.
      change (map (CursorAt 0) visited ++ [ReqError 0 evt; TxError evt])
        with (map (CursorAt 0) visited ++ [ReqError 0 evt] ++ [TxError evt]).
      rewrite app_assoc, app_comm_cons, perform_snoc, app_comm_cons, perform_snoc, Hrun.
      reflexivity.
Qed.

Lemma getObjectsByIndex_collects_witness :
  calm calm_browser
  /\ outcome (perform sample_service calm_browser
                (GetObjectsByIndex (OneStore "n") "n" "by_tag" (VStr "x") None None)
                (OpenSuccess 7 :: map (CursorAt 0) [VNum 1; VNum 2] ++ [CursorEnd 0]))
     = Resolved (array_of [VNum 1; VNum 2])
  /\ outcome (perform sample_service calm_browser
                (GetObjectsByIndex (OneStore "n") "n" "by_tag" (VStr "x") None None)
                (OpenSuccess 7 :: map (CursorAt 0) [VNum 1; VNum 2]
                   ++ [ReqError 0 3; TxError 3]))
     = Rejected (EngineEvent 3)
  /\ outcome (perform sample_service calm_browser
                (GetObjectsByIndex (OneStore "n") "n" "by_tag" (VStr "x") (Some true)
                   (Some (fun v => VObj [("row", v)])))
                (OpenSuccess 7 :: map (CursorAt 0) [VNum 2; VNum 1] ++ [CursorEnd 0]))
     = Resolved (array_of [VObj [("row", VNum 2)]; VObj [("row", VNum 1)]]).
Proof.
  assert (Hcalm : calm calm_browser) by (split; [reflexivity | intros; reflexivity]).
  split; [exact Hcalm|].
  destruct (getObjectsByIndex_collects sample_service calm_browser (OneStore "n") "n"
              "by_tag" (VStr "x") None None 7 Hcalm) as (_ & _ & H).
  destruct (H [VNum 1; VNum 2]) as (_ & _ & _ & _ & H3 & _ & H5).
  destruct (getObjectsByIndex_collects sample_service calm_browser (OneStore "n") "n"
              "by_tag" (VStr "x") (Some true) (Some (fun v => VObj [("row", v)])) 7
              Hcalm) as (_ & _ & H').
  destruct (H' [VNum 2; VNum 1]) as (_ & _ & _ & _ & _ & Hcast & _).
  split; [exact (H3 eq_refl)|]. split; [exact (H5 3) | exact (Hcast _ eq_refl)].
Defined.

(** ** [clearStore] *)

Lemma clearStore_settled_by svc w store tr tx p :
  at_stage (perform svc w (ClearStore store) tr) = Running tx p ->
  (forall x, p = Resolved x -> x = JVal VUndefined /\ In TxComplete tr)
  /\ (forall r, p = Rejected r -> exists err, r = EngineEvent err /\ In (TxError err) tr).
Proof.
  apply (running_invariant svc w (ClearStore store)
           (fun tr p =>
              (forall x, p = Resolved x -> x = JVal VUndefined /\ In TxComplete tr)
              /\ (forall r, p = Rejected r ->
                            exists err, r = EngineEvent err /\ In (TxError err) tr))).
  - intros tr0. split; intros; discriminate.
  - intros tr0 e p0 _ [H1 H2]. split.
    + intros x Hx. destruct (H1 x Hx). rewrite in_app_iff. auto.
    + intros r Hr. destruct (H2 r Hr) as (err & -> & Hin).
      exists err. rewrite in_app_iff. auto.
  - intros tr0 e p0 l _ [H1 H2].
    assert (Hsame : (forall x, p0 = Resolved x ->
                               x = JVal VUndefined /\ In TxComplete (tr0 ++ [e]))
                    /\ (forall r, p0 = Rejected r ->
                                  exists err, r = EngineEvent err
                                              /\ In (TxError err) (tr0 ++ [e]))).
    { split.
      - intros x Hx. destruct (H1 x Hx). rewrite in_app_iff. auto.
      - intros r Hr. destruct (H2 r Hr) as (err & -> & Hin).
        exists err. rewrite in_app_iff. auto. }
    unfold react. simpl. destruct e; simpl; try exact Hsame.
    + destruct p0; simpl; try exact Hsame. split; [|intros; discriminate].
      intros x [= <-]. split; [reflexivity|]. rewrite in_app_iff. right. left. reflexivity.
    + destruct p0; simpl; try exact Hsame. split; [intros; discriminate|].
      intros r [= <-]. exists evt. split; [reflexivity|].
      rewrite in_app_iff. right. left. reflexivity.
Qed.

(** [clearStore] makes one request, a clear of the store, in one read-write
    transaction on that store.  Its promise is resolved only with no value
    and only once the complete event of the transaction has fired, and
    rejected only with an error event of the transaction.  While it is
    pending, the complete event resolves it and an error event of the
    transaction rejects it with that event.  The clear request has no
    handlers: its success event settles nothing, and its error event rejects
    the promise when it comes to the transaction. *)
Theorem clearStore_waits_for_completion :
  forall (svc : IDBService) (w : browser) (store : string) (db : handle),
    calm w ->
    (forall tr,
        requests (log (perform svc w (ClearStore store) (OpenSuccess db :: tr))) = [Clear]
        /\ transactions (log (perform svc w (ClearStore store) (OpenSuccess db :: tr)))
           = [Transaction db (OneStore store) "readwrite"])
    /\ (forall tr x,
           outcome (perform svc w (ClearStore store) tr) = Resolved x ->
           x = JVal VUndefined /\ In TxComplete tr)
    /\ (forall tr r,
           outcome (perform svc w (ClearStore store) (OpenSuccess db :: tr)) = Rejected r ->
           exists err, r = EngineEvent err /\ In (TxError err) tr)
    /\ (forall tr,
           outcome (perform svc w (ClearStore store) (OpenSuccess db :: tr)) = Pending ->
           outcome (perform svc w (ClearStore store) ((OpenSuccess db :: tr) ++ [TxComplete]))
           = Resolved (JVal VUndefined)
           /\ (forall err,
                  outcome (perform svc w (ClearStore store)
                             ((OpenSuccess db :: tr) ++ [TxError err]))
                  = Rejected (EngineEvent err))
           /\ (forall req result,
                  outcome (perform svc w (ClearStore store)
                             ((OpenSuccess db :: tr) ++ [ReqSuccess req result]))
                  = Pending)
           /\ (forall req evt,
                  outcome (perform svc w (ClearStore store)
                             ((OpenSuccess db :: tr) ++ [ReqError req evt; TxError evt]))
                  = Rejected (EngineEvent evt)))
    /\ outcome (perform svc w (ClearStore store) [OpenSuccess db]) = Pending.
Proof.
  intros svc w store db Hw.
  split; [|split; [|split; [|split]]].
  - intros tr.
    destruct (connected_running svc w (ClearStore store) db tr Hw eq_refl) as [b Hst].
    destruct (running_requests _ _ _ _ _ _ Hst) as (_ & Ht & later & Hq & Hl).
    rewrite Ht, Hq. simpl in *. split; [|reflexivity].
    destruct later as [|c later]; [reflexivity|]. inversion Hl as [|? ? []].
  - intros tr x Hx. unfold outcome in Hx.
    destruct (at_stage (perform svc w (ClearStore store) tr)) as [r| |r|tx p] eqn:Hst;
      try discriminate.
    destruct (clearStore_settled_by svc w store tr tx p Hst) as [H _]. apply H, Hx.
  - intros tr r Hr.
    destruct (connected_running svc w (ClearStore store) db tr Hw eq_refl) as [p Hst].
    unfold outcome in Hr. rewrite Hst in Hr.
    destruct (clearStore_settled_by svc w store _ _ p Hst) as [_ H].
    destruct (H r Hr) as (err & -> & [Hin|Hin]); [discriminate|]. eauto.
  - intros tr Hp.
    destruct (connected_running svc w (ClearStore store) db tr Hw eq_refl) as [b Hst].
    split; [|split; [intros err|split; [intros req result|intros req evt]]];
      try (rewrite perform_snoc; unfold outcome in *; unfold step; rewrite Hst in *;
           simpl in *; subst b; reflexivity).
    change [ReqError req evt; TxError evt] with ([ReqError req evt] ++ [TxError evt]).
    rewrite app_assoc, !perform_snoc. unfold outcome in *. unfold step at 2.
    rewrite Hst in *. simpl in *. subst b. reflexivity.
  - rewrite (perform_connected svc w (ClearStore store) db [] Hw eq_refl). reflexivity.
Qed.

Lemma clearStore_waits_for_completion_witness :
  calm calm_browser
  /\ requests (log (perform sample_service calm_browser (ClearStore "n")
                      (OpenSuccess 7 :: [ReqSuccess 0 VUndefined])))
     = [Clear]
  /\ outcome (perform sample_service calm_browser (ClearStore "n")
                ((OpenSuccess 7 :: [ReqSuccess 0 VUndefined]) ++ [TxComplete]))
     = Resolved (JVal VUndefined)
  /\ outcome (perform sample_service calm_browser (ClearStore "n")
                ((OpenSuccess 7 :: []) ++ [ReqError 0 3; TxError 3]))
     = Rejected (EngineEvent 3).
Proof.
  assert (Hcalm : calm calm_browser) by (split; [reflexivity | intros; reflexivity]).
  split; [exact Hcalm|].
  destruct (clearStore_waits_for_completion sample_service calm_browser "n" 7 Hcalm)
    as (H1 & _ & _ & H4 & _).
  split; [exact (proj1 (H1 [ReqSuccess 0 VUndefined]))|].
  split; [exact (proj1 (H4 [ReqSuccess 0 VUndefined] eq_refl))|].
  exact (proj2 (proj2 (proj2 (H4 [] eq_refl))) 0 3).
Defined.

(** ** [replaceObjectByKey] *)

Lemma replaceObjectByKey_settled_by svc w store key v tr tx p :
  at_stage (perform svc w (ReplaceObjectByKey store key v) tr) = Running tx p ->
  (forall x, p = Resolved x -> x = JVal v /\ In TxComplete tr)
  /\ (forall r, p = Rejected r -> exists evt, r = EventError evt /\ In (TxError evt) tr).
Proof.
  apply (running_invariant svc w (ReplaceObjectByKey store key v)
           (fun tr p =>
              (forall x, p = Resolved x -> x = JVal v /\ In TxComplete tr)
              /\ (forall r, p = Rejected r ->
                            exists evt, r = EventError evt /\ In (TxError evt) tr))).
  - intros tr0. split; intros; discriminate.
  - intros tr0 e p0 _ [H1 H2]. split.
    + intros x Hx. destruct (H1 x Hx). rewrite in_app_iff. auto.
    + intros r Hr. destruct (H2 r Hr) as (evt & -> & Hin).
      exists evt. rewrite in_app_iff. auto.
  - intros tr0 e p0 l _ [H1 H2].
    assert (Hsame : (forall x, p0 = Resolved x -> x = JVal v /\ In TxComplete (tr0 ++ [e]))
                    /\ (forall r, p0 = Rejected r ->
                                  exists evt, r = EventError evt
                                              /\ In (TxError evt) (tr0 ++ [e]))).
    { split.
      - intros x Hx. destruct (H1 x Hx). rewrite in_app_iff. auto.
      - intros r Hr. destruct (H2 r Hr) as (evt & -> & Hin).
        exists evt. rewrite in_app_iff. auto. }
    unfold react. simpl.
    destruct e as [| | | | |evt| |[|k] ?| | |]; simpl; try exact Hsame.
    + destruct p0; simpl; try exact Hsame. split; [|intros; discriminate].
      intros x [= <-]. split; [reflexivity|]. rewrite in_app_iff. right. left. reflexivity.
    + destruct p0; simpl; try exact Hsame. split; [intros; discriminate|].
      intros r [= <-]. exists evt. split; [reflexivity|].
      rewrite in_app_iff. right. left. reflexivity.
Qed.

(** The requests of [replaceObjectByKey]: the delete, and one add for every
    success event of the delete. *)
Lemma replaceObjectByKey_requests svc w store key v db :
  calm w -> isUndefined key = false ->
  forall tr,
    requests (log (perform svc w (ReplaceObjectByKey store key v) (OpenSuccess db :: tr)))
    = Delete key :: repeat (Add v) (length (List.filter delete_succeeded tr)).
Proof.
  intros Hw Hkey.
  assert (Hpre : precheck (method_of (ReplaceObjectByKey store key v)) = None)
    by (simpl; rewrite Hkey; reflexivity).
  induction tr as [|e tr IH] using rev_ind.
  - rewrite (perform_connected svc w (ReplaceObjectByKey store key v) db [] Hw Hpre).
    reflexivity.
  - destruct (connected_running svc w (ReplaceObjectByKey store key v) db tr Hw Hpre)
      as [p Hst].
    rewrite app_comm_cons, perform_snoc, List.filter_app, length_app, repeat_app.
    simpl List.filter.
    unfold step. rewrite Hst.
    remember (log (perform svc w (ReplaceObjectByKey store key v) (OpenSuccess db :: tr)))
      as L eqn:HL in *.
    assert (Hquiet : forall cb,
               requests cb = [] ->
               requests (L ++ cb)
               = (Delete key :: repeat (Add v) (length (List.filter delete_succeeded tr)))
                   ++ []).
    { intros cb Hcb. rewrite requests_app, Hcb, IH. reflexivity. }
    destruct e as [| | | | | | |[|k] ?| | |]; simpl;
      try (rewrite <- (app_nil_r L); apply Hquiet; reflexivity).
    + apply Hquiet, upgrade_quiet.
    + apply Hquiet, blocked_quiet.
    + unfold replace_ondeleted, bind. rewrite !(invoke_calm _ _ _ Hw). simpl.
      rewrite <- app_assoc, requests_app, IH. reflexivity.
Qed.

(** [replaceObjectByKey] with a key deletes the key and, when the delete has
    succeeded, adds the value, in one read-write transaction on the store:
    the add is never requested before a success event of the delete.  Its
    promise is resolved only with the value it was given and only once the
    complete event of the transaction has fired, and rejected only with the
    [error] property of an error event of the transaction.  While it is
    pending, the complete event resolves it and an error event of the
    transaction rejects it.  The delete and the add request have no error
    handler: a success event of theirs settles nothing, and an error event
    of theirs rejects the promise when it comes to the transaction. *)
Theorem replaceObjectByKey_deletes_then_adds :
  forall (svc : IDBService) (w : browser) (store : string) (key v : value)
         (db : handle),
    calm w ->
    isUndefined key = false ->
    let op := ReplaceObjectByKey store key v in
    (forall tr,
        requests (log (perform svc w op (OpenSuccess db :: tr)))
        = Delete key :: repeat (Add v) (length (List.filter delete_succeeded tr))
        /\ transactions (log (perform svc w op (OpenSuccess db :: tr)))
           = [Transaction db (OneStore store) "readwrite"])
    /\ (forall tr x,
           outcome (perform svc w op tr) = Resolved x -> x = JVal v /\ In TxComplete tr)
    /\ (forall tr r,
           outcome (perform svc w op (OpenSuccess db :: tr)) = Rejected r ->
           exists evt, r = EventError evt /\ In (TxError evt) tr)
    /\ (forall tr,
           outcome (perform svc w op (OpenSuccess db :: tr)) = Pending ->
           outcome (perform svc w op ((OpenSuccess db :: tr) ++ [TxComplete]))
           = Resolved (JVal v)
           /\ (forall evt,
                  outcome (perform svc w op ((OpenSuccess db :: tr) ++ [TxError evt]))
                  = Rejected (EventError evt))
           /\ (forall req result,
                  outcome (perform svc w op
                             ((OpenSuccess db :: tr) ++ [ReqSuccess req result]))
                  = Pending)
           /\ (forall req evt,
                  outcome (perform svc w op
                             ((OpenSuccess db :: tr) ++ [ReqError req evt; TxError evt]))
                  = Rejected (EventError evt))).
Proof.
  intros svc w store key v db Hw Hkey op.
  assert (Hpre : precheck (method_of op) = None) by (simpl; rewrite Hkey; reflexivity).
  split; [|split; [|split]].
  - intros tr. split; [apply replaceObjectByKey_requests; assumption|].
    destruct (connected_running svc w op db tr Hw Hpre) as [b Hst].
    destruct (running_requests _ _ _ _ _ _ Hst) as (_ & Ht & _).
    rewrite Ht. reflexivity.
  - intros tr x Hx. unfold outcome in Hx.
    destruct (at_stage (perform svc w op tr)) as [r| |r|tx p] eqn:Hst; try discriminate.
    destruct (replaceObjectByKey_settled_by svc w store key v tr tx p Hst) as [H _].
    apply H, Hx.
  - intros tr r Hr.
    destruct (connected_running svc w op db tr Hw Hpre) as [p Hst].
    unfold outcome in Hr. rewrite Hst in Hr.
    destruct (replaceObjectByKey_settled_by svc w store key v _ _ p Hst) as [_ H].
    destruct (H r Hr) as (evt & -> & [Hin|Hin]); [discriminate|]. eauto.
  - intros tr Hp.
    destruct (connected_running svc w op db tr Hw Hpre) as [b Hst].
    split; [|split; [intros evt|split; [intros req result|intros req evt]]].
    1-3: rewrite perform_snoc; unfold outcome in *; unfold step; rewrite Hst in *;
      simpl in *; subst b; try reflexivity.
    + destruct req; reflexivity.
    + change [ReqError req evt; TxError evt] with ([ReqError req evt] ++ [TxError evt]).
      rewrite app_assoc, !perform_snoc. unfold outcome in *. unfold step at 2.
      rewrite Hst in *. simpl in *. subst b. reflexivity.
Qed.

Lemma replaceObjectByKey_deletes_then_adds_witness :
  calm calm_browser
  /\ requests (log (perform sample_service calm_browser
                      (ReplaceObjectByKey "n" (VNum 1) (VStr "b"))
                      (OpenSuccess 7 :: [])))
     = [Delete (VNum 1)]
  /\ requests (log (perform sample_service calm_browser
                      (ReplaceObjectByKey "n" (VNum 1) (VStr "b"))
                      (OpenSuccess 7 :: [ReqSuccess 0 VUndefined; ReqSuccess 1 (VNum 1);
                                         TxComplete])))
     = [Delete (VNum 1); Add (VStr "b")]
  /\ outcome (perform sample_service calm_browser
                (ReplaceObjectByKey "n" (VNum 1) (VStr "b"))
                ((OpenSuccess 7 :: [ReqSuccess 0 VUndefined])
                   ++ [ReqError 1 3; TxError 3]))
     = Rejected (EventError 3).
Proof.
  assert (Hcalm : calm calm_browser) by (split; [reflexivity | intros; reflexivity]).
  split; [exact Hcalm|].
  destruct (replaceObjectByKey_deletes_then_adds sample_service calm_browser "n"
              (VNum 1) (VStr "b") 7 Hcalm eq_refl) as (H1 & _ & _ & H4).
  split; [exact (proj1 (H1 []))|].
  split; [exact (proj1 (H1 [ReqSuccess 0 VUndefined; ReqSuccess 1 (VNum 1); TxComplete]))|].
  exact (proj2 (proj2 (proj2 (H4 [ReqSuccess 0 VUndefined] eq_refl))) 1 3).
Defined.

(** ** What [updateOne] writes *)

Lemma get_set_field name name' v fields :
  get_field name' (set_field name v fields)
  = if String.eqb name name' then Some v else get_field name' fields.
Proof.
  induction fields as [|[k x] rest IH]; simpl.
  - reflexivity.
  - destruct (String.eqb k name) eqn:Hk; simpl.
    + apply String.eqb_eq in Hk. subst k. destruct (String.eqb name name'); reflexivity.
    + rewrite IH. destruct (String.eqb k name') eqn:Hk'; [|reflexivity].
      destruct (String.eqb name name') eqn:Hn; [|reflexivity].
      apply String.eqb_eq in Hk', Hn. subst. rewrite String.eqb_refl in Hk. discriminate.
Qed.

Lemma has_field_set_field name name' v fields :
  has_field name' fields = true -> has_field name' (set_field name v fields) = true.
Proof.
  unfold has_field. rewrite get_set_field.
  destruct (String.eqb name name'); [reflexivity | auto].
Qed.

Lemma assign_params_stuck params :
  fold_left
    (fun acc param =>
       match acc with
       | Some o => set_property o (param_name param) (param_value param)
       | None => None
       end)
    params None = None.
Proof. induction params as [|p params IH]; simpl; [reflexivity | exact IH]. Qed.

Lemma assign_params_nullish param params v :
  is_nullish v = true -> assign_params (param :: params) v = None.
Proof.
  intros Hv. unfold assign_params. simpl.
  destruct v; try discriminate Hv; unfold set_property; simpl;
    rewrite assign_params_stuck; reflexivity.
Qed.

Lemma assign_params_primitive params v :
  is_primitive v = true ->
  assign_params params v
  = if forallb (fun p => String.eqb (param_name p) "__proto__") params
    then Some v else None.
Proof.
  intros Hv. unfold assign_params.
  generalize ObjectPrototype as q.
  induction params as [|p params IH]; intros q; [reflexivity|].
  cbn [fold_left forallb].
  assert (Hset : set_property {| assigned := v; proto := q |} (param_name p) (param_value p)
                 = if String.eqb (param_name p) "__proto__"
                   then Some {| assigned := v; proto := q |} else None).
  { destruct v; try discriminate Hv; reflexivity. }
  rewrite Hset. destruct (String.eqb (param_name p) "__proto__"); simpl.
  - apply IH.
  - rewrite assign_params_stuck. reflexivity.
Qed.

Lemma assign_params_object params :
  forall fields q,
  exists fields' q',
    fold_left
      (fun acc param =>
         match acc with
         | Some o => set_property o (param_name param) (param_value param)
         | None => None
         end)
      params (Some {| assigned := VObj fields; proto := q |})
    = Some {| assigned := VObj fields'; proto := q' |}
    /\ forall name,
        name <> "__proto__" \/ has_field "__proto__" fields = true ->
        get_field name fields'
        = match last_assigned name params with
          | Some v => Some v
          | None => get_field name fields
          end.
Proof.
  induction params as [|p params IH]; intros fields q.
  - exists fields, q. split; reflexivity.
  - cbn [fold_left]. unfold set_property at 2. cbn [assigned proto].
    destruct (negb (has_field (param_name p) fields)
              && String.eqb (param_name p) "__proto__"
              && inherits_proto_setter q) eqn:Hsetter.
    + apply andb_prop in Hsetter as [Hsetter _].
      apply andb_prop in Hsetter as [Hown Hname].
      apply String.eqb_eq in Hname. apply negb_true_iff in Hown.
      destruct (IH fields (set_prototype (param_value p) q)) as (fields' & q' & Heq & Hget).
      exists fields', q'. split; [exact Heq|].
      intros name Hn. rewrite (Hget name Hn). cbn [last_assigned].
      destruct (last_assigned name params); [reflexivity|].
      destruct (String.eqb (param_name p) name) eqn:Hp; [|reflexivity].
      apply String.eqb_eq in Hp. subst name. destruct Hn as [Hn | Hn].
      * contradiction.
      * rewrite <- Hname in Hn. rewrite Hn in Hown. discriminate.
    + destruct (IH (set_field (param_name p) (param_value p) fields) q)
        as (fields' & q' & Heq & Hget).
      exists fields', q'. split; [exact Heq|].
      intros name Hn. rewrite Hget.
      * cbn [last_assigned]. destruct (last_assigned name params); [reflexivity|].
        rewrite get_set_field. destruct (String.eqb (param_name p) name); reflexivity.
      * destruct Hn as [Hn | Hn]; [left; exact Hn | right].
        apply has_field_set_field. exact Hn.
Qed.

(** [updateOne] assigns every one of [params] to the record, in order.  On a
    plain object the loop goes through, and afterwards a property named by
    some param holds the value of the last param that names it, while every
    other property is as it was; this holds for every name but [__proto__],
    and for that one too when the record has a property of its own so named.
    On a record without one, assigning to [__proto__] adds no property.  On
    [undefined] and [null] the first assignment throws; on a boolean, a number
    or a string the loop throws unless every param names [__proto__]. *)
Theorem assign_params_sets_every_property :
  forall (params : list PutParams) (fields : list (string * value)),
    (exists fields',
        assign_params params (VObj fields) = Some (VObj fields')
        /\ forall name,
            name <> "__proto__" \/ has_field "__proto__" fields = true ->
            get_field name fields'
            = match last_assigned name params with
              | Some v => Some v
              | None => get_field name fields
              end)
    /\ (forall p,
           param_name p = "__proto__" -> has_field "__proto__" fields = false ->
           assign_params [p] (VObj fields) = Some (VObj fields))
    /\ (forall param v,
           is_nullish v = true -> assign_params (param :: params) v = None)
    /\ (forall v,
           is_primitive v = true ->
           assign_params params v
           = if forallb (fun p => String.eqb (param_name p) "__proto__") params
             then Some v else None).
Proof.
  intros params fields. split; [|split; [|split]].
  - destruct (assign_params_object params fields ObjectPrototype)
      as (fields' & q' & Heq & Hget).
    exists fields'. split; [|exact Hget].
    unfold assign_params. rewrite Heq. reflexivity.
  - intros p Hname Hown. unfold assign_params, set_property. cbn.
    rewrite Hname, Hown. reflexivity.
  - intros param v. apply assign_params_nullish.
  - intros v. apply assign_params_primitive.
Qed.

Lemma assign_params_sets_every_property_witness :
  (exists fields',
      assign_params
        [{| param_index := None; param_name := "done"; param_value := VBool false |};
         {| param_index := None; param_name := "__proto__"; param_value := VNull |};
         {| param_index := None; param_name := "done"; param_value := VBool true |}]
        (VObj [("tag", VStr "x")])
      = Some (VObj fields')
      /\ get_field "done" fields' = Some (VBool true)
      /\ get_field "tag" fields' = Some (VStr "x"))
  /\ assign_params
       [{| param_index := None; param_name := "__proto__"; param_value := VStr "y" |}]
       (VObj [("tag", VStr "x")])
     = Some (VObj [("tag", VStr "x")])
  /\ assign_params
       [{| param_index := None; param_name := "done"; param_value := VBool true |}]
       VUndefined
     = None
  /\ assign_params
       [{| param_index := None; param_name := "done"; param_value := VBool true |}]
       (VNum 5)
     = None.
Proof.
  pose (set_done := fun b => {| param_index := None; param_name := "done";
                                param_value := VBool b |}).
  pose (reproto := fun v => {| param_index := None; param_name := "__proto__";
                               param_value := v |}).
  pose proof (assign_params_sets_every_property
                [set_done false; reproto VNull; set_done true] [("tag", VStr "x")]) as H1.
  pose proof (assign_params_sets_every_property [set_done true] [("tag", VStr "x")]) as H2.
  pose proof (assign_params_sets_every_property [] []) as H3.
  pose proof (assign_params_sets_every_property [set_done true] []) as H4.
  destruct H1 as ((fields' & Heq & Hget) & _).
  destruct H2 as (_ & Hproto & _ & _).
  destruct H3 as (_ & _ & Hnull & _).
  destruct H4 as (_ & _ & _ & Hprim).
  split; [|split; [|split]].
  - exists fields'. split; [exact Heq|]. split.
    + etransitivity; [apply Hget; left; discriminate | vm_compute; reflexivity].
    + etransitivity; [apply Hget; left; discriminate | vm_compute; reflexivity].
  - apply Hproto; reflexivity.
  - apply Hnull; reflexivity.
  - etransitivity; [apply Hprim; reflexivity | vm_compute; reflexivity].
Defined.

(** ** [updateObjectsByIndex]: errors and records not found *)

(** Nothing in [updateObjectsByIndex] rejects: no handler is put on the error
    event of the transaction, and a rejected promise of [updateOne] has no
    reaction.  Once the method runs its promise is never rejected, whatever
    the engine fires: not by an error event of a put, of the lookup or of the
    transaction, nor by an abort.  After a connection under a browser whose
    calls do not throw, that is on every sequence of events. *)
Theorem updateObjectsByIndex_never_rejects :
  forall (svc : IDBService) (w : browser) (store : string) (index : option string)
         (indexVal : value) (params : list PutParams) (allMatches : option bool),
    let op := UpdateObjectsByIndex store index indexVal params allMatches in
    (forall tr r,
        is_running (perform svc w op tr) = true ->
        outcome (perform svc w op tr) <> Rejected r)
    /\ (calm w -> precheck (method_of op) = None ->
        forall db tr r, outcome (perform svc w op (OpenSuccess db :: tr)) <> Rejected r).
Proof.
  intros svc w store index indexVal params allMatches op.
  assert (Hrun : forall tr r, is_running (perform svc w op tr) = true ->
                              outcome (perform svc w op tr) <> Rejected r).
  { intros tr r Hrun Hr. unfold is_running, outcome in *.
    destruct (at_stage (perform svc w op tr)) as [r0| |r0|tx s] eqn:Hst; try discriminate.
    destruct (updateObjectsByIndex_invariant _ _ _ _ _ _ _ _ _ _ Hst)
      as (_ & _ & _ & _ & U5).
    simpl in Hr. destruct U5 as [U5|(x & _ & U5)]; rewrite U5 in Hr; discriminate. }
  split; [exact Hrun|].
  intros Hw Hpre db tr r. apply Hrun.
  destruct (connected_running svc w op db tr Hw Hpre) as [b Hst].
  unfold is_running. rewrite Hst. reflexivity.
Qed.

Lemma updateObjectsByIndex_never_rejects_witness :
  let op := UpdateObjectsByIndex "n" (Some "by_tag") (VStr "x")
              [{| param_index := None; param_name := "done"; param_value := VBool true |}]
              None in
  outcome (perform sample_service calm_browser op
             (OpenSuccess 7 :: [ReqSuccess 0 (VObj [("tag", VStr "x")]); ReqError 1 3;
                                TxError 3; TxAbort]))
  = Pending
  /\ forall r,
      outcome (perform sample_service calm_browser op
                 (OpenSuccess 7 :: [ReqSuccess 0 (VObj [("tag", VStr "x")]); ReqError 1 3;
                                    TxError 3; TxAbort]))
      <> Rejected r.
Proof.
  intros op. split; [reflexivity|]. intros r.
  apply (proj2 (updateObjectsByIndex_never_rejects sample_service calm_browser "n"
                  (Some "by_tag") (VStr "x")
                  [{| param_index := None; param_name := "done";
                      param_value := VBool true |}] None)).
  - split; [reflexivity | intros; reflexivity].
  - reflexivity.
Defined.

Lemma update_idle_reactions s :
  update_idle s -> update_idle (update_reactions false s).
Proof.
  intros (H1 & H2 & H3 & H4 & H5). unfold update_idle, update_reactions, update_found.
  simpl. rewrite H1, H3, H4. simpl.
  repeat split; auto.
  destruct (up_promiseB s) as [|[]|r] eqn:HB; try reflexivity.
  exfalso. eapply H5. reflexivity.
Qed.

(** Without [allMatches], when the assignments of [updateOne] throw on what
    the lookup found, as they do on [undefined] (no record has the value) and
    on [null], the success handler ends there: no put is requested, and the
    promise stays pending whatever follows, the completion of the transaction
    included.  So looking for a value that no record has never settles. *)
Theorem updateObjectsByIndex_hangs_without_a_record :
  forall (svc : IDBService) (w : browser) (store index : string) (indexVal : value)
         (param : PutParams) (params : list PutParams) (allMatches : option bool)
         (db : handle) (tr : list event),
    calm w ->
    false_by_default allMatches = false ->
    (forall v, In (ReqSuccess 0 v) tr -> assign_params (param :: params) v = None) ->
    let op := UpdateObjectsByIndex store (Some index) indexVal (param :: params)
                allMatches in
    (forall v, is_nullish v = true -> assign_params (param :: params) v = None)
    /\ outcome (perform svc w op (OpenSuccess db :: tr)) = Pending
    /\ requests (log (perform svc w op (OpenSuccess db :: tr))) = [Get indexVal].
Proof.
  intros svc w store index indexVal param params allMatches db tr Hw Hall Htr op.
  split; [intros v; apply assign_params_nullish|].
  assert (Hgoal : exists tx s,
             at_stage (perform svc w op (OpenSuccess db :: tr)) = Running tx s
             /\ update_idle s
             /\ requests (log (perform svc w op (OpenSuccess db :: tr))) = [Get indexVal]).
  { induction tr as [|e tr IH] using rev_ind.
    - unfold op. rewrite (perform_connected svc w
                 (UpdateObjectsByIndex store (Some index) indexVal (param :: params)
                    allMatches) db [] Hw eq_refl).
      simpl. rewrite Hall. do 2 eexists. split; [reflexivity|].
      split; [|reflexivity]. repeat split. intros r. discriminate.
    - destruct IH as (tx & s & Hst & Hidle & Hq).
      { intros v Hv. apply Htr. apply in_app_iff. auto. }
      rewrite app_comm_cons, perform_snoc. unfold step. rewrite Hst.
      remember (log (perform svc w op (OpenSuccess db :: tr))) as L eqn:HL in *.
      assert (Hcb : forall cb, requests cb = [] -> requests (L ++ cb) = [Get indexVal])
        by (intros cb Hcb; rewrite requests_app, Hcb, Hq; reflexivity).
      assert (Hkeep : exists tx0 s0,
                 Running tx (update_reactions false s) = Running tx0 s0
                 /\ update_idle s0 /\ requests L = [Get indexVal])
        by (do 2 eexists; split; [reflexivity|];
            split; [apply update_idle_reactions, Hidle | exact Hq]).
      destruct e as [| | | | | | |[|k] v|[|k] v|[|k]|[|k] evt]; simpl; rewrite ?Hall;
        simpl; try exact Hkeep;
        try (do 2 eexists; split; [reflexivity|]; split; [exact Hidle|]; exact Hq).
      + do 2 eexists. split; [reflexivity|]. split; [exact Hidle|].
        apply Hcb, upgrade_quiet.
      + do 2 eexists. split; [reflexivity|]. split; [exact Hidle|].
        apply Hcb, blocked_quiet.
      + do 2 eexists. split; [reflexivity|]. split; [|exact Hq].
        apply update_idle_reactions.
        destruct Hidle as (H1 & H2 & H3 & H4 & H5).
        repeat split; simpl; auto.
        intros r. destruct (up_promiseB s) as [|[]|r0] eqn:HB; simpl; try discriminate.
        exfalso. eapply H5. reflexivity.
      + unfold updateOne.
        rewrite (Htr v) by (apply in_app_iff; right; left; reflexivity).
        exact Hkeep.
      + do 2 eexists. split; [reflexivity|]. split; [|exact Hq].
        apply update_idle_reactions.
        destruct Hidle as (H1 & H2 & H3 & H4 & H5).
        repeat split; simpl; auto. rewrite H1. reflexivity.
      + do 2 eexists. split; [reflexivity|]. split; [|exact Hq].
        apply update_idle_reactions.
        destruct Hidle as (H1 & H2 & H3 & H4 & H5).
        repeat split; simpl; auto. rewrite H1. reflexivity. }
  destruct Hgoal as (tx & s & Hst & (_ & _ & _ & Hret & _) & Hq).
  split; [|exact Hq]. unfold outcome. rewrite Hst. exact Hret.
Qed.

Lemma updateObjectsByIndex_hangs_without_a_record_witness :
  let op := UpdateObjectsByIndex "n" (Some "by_tag") (VStr "x")
              [{| param_index := None; param_name := "done"; param_value := VBool true |}]
              None in
  calm calm_browser
  /\ outcome (perform sample_service calm_browser op
                (OpenSuccess 7 :: [ReqSuccess 0 VUndefined; TxComplete]))
     = Pending
  /\ requests (log (perform sample_service calm_browser op
                      (OpenSuccess 7 :: [ReqSuccess 0 VUndefined; TxComplete])))
     = [Get (VStr "x")].
Proof.
  intros op.
  assert (Hcalm : calm calm_browser) by (split; [reflexivity | intros; reflexivity]).
  split; [exact Hcalm|].
  apply (updateObjectsByIndex_hangs_without_a_record sample_service calm_browser "n"
           "by_tag" (VStr "x")
           {| param_index := None; param_name := "done"; param_value := VBool true |}
           [] None 7 [ReqSuccess 0 VUndefined; TxComplete] Hcalm eq_refl).
  intros v [Hv|[Hv|[]]]; [injection Hv as <-; reflexivity | discriminate Hv].
Defined.

(** ** Promises settle once *)

Lemma settled_stays_refl op e p : settled_stays op e p p.
Proof. split; [auto|]. intros x Hx. exists x. auto. Qed.

Lemma resolve_keeps {A} (a : A) (p : promise A) : p <> Pending -> resolve a p = p.
Proof. destruct p; simpl; congruence. Qed.

Lemma reject_keeps {A} r (p : promise A) : p <> Pending -> reject r p = p.
Proof. destruct p; simpl; congruence. Qed.

Lemma cursor_settled_stays op e s s' :
  cursor_promise s' = cursor_promise s \/ cursor_promise s' = resolve tt (cursor_promise s)
  \/ (exists r, cursor_promise s' = reject r (cursor_promise s)) ->
  (visited_by [e] = [] -> res s' = res s) ->
  is_cursor_operation op = true ->
  settled_stays op e (cursor_settled s) (cursor_settled s').
Proof.
  intros Hp Hres Hop. unfold cursor_settled. split.
  - intros r Hr. destruct (cursor_promise s) as [| |r0] eqn:Hc; simpl in Hr; try discriminate.
    injection Hr as ->. destruct Hp as [->|[->|[r' ->]]]; reflexivity.
  - intros x Hx. destruct (cursor_promise s) as [|[]|r0] eqn:Hc; simpl in Hx; try discriminate.
    injection Hx as <-. exists (array_of (res s')).
    split; [destruct Hp as [->|[->|[r' ->]]]; reflexivity|].
    intros [H|H]; [congruence|]. rewrite (Hres H). reflexivity.
Qed.

(** The handlers of a running method leave a settled promise settled. *)
Lemma react_settled_stays w op b l e :
  settled (method_of op) b <> Pending ->
  settled_stays op e (settled (method_of op) b)
    (settled (method_of op) (fst (react w (method_of op) (b, l) e))).
Proof.
  intros Hset.
  assert (Hsimple : forall p : promise jsresult,
             p <> Pending -> forall q, q = p -> settled_stays op e p q)
    by (intros p _ q ->; apply settled_stays_refl).
  unfold react.
  destruct op as [stores store keyRange _cast|stores store keyRange rev _cast
                 |stores store index range rev _cast|stores store range|store key v
                 |store index indexVal params allMatches|store data|store];
    simpl in *.
  - apply Hsimple; [exact Hset|].
    destruct e as [| | | | | | |[|k] ?| | |[|k] ?]; simpl;
      rewrite ?resolve_keeps, ?reject_keeps by exact Hset; reflexivity.
  - apply cursor_settled_stays; [| |reflexivity].
    + destruct e as [| | | | | | | |[|k] ?|[|k]|[|k] ?]; simpl; eauto.
    + destruct e as [| | | | | | | |[|k] ?|[|k]|[|k] ?]; simpl; try reflexivity.
      discriminate.
  - apply cursor_settled_stays; [| |reflexivity].
    + destruct e as [| | | | |?| | |[|k] ?|[|k]|]; simpl; eauto.
    + destruct e as [| | | | |?| | |[|k] ?|[|k]|]; simpl; try reflexivity.
      discriminate.
  - apply Hsimple; [exact Hset|].
    destruct e; simpl; rewrite ?resolve_keeps, ?reject_keeps by exact Hset; reflexivity.
  - apply Hsimple; [exact Hset|].
    destruct e as [| | | | | | |[|k] ?| | |]; simpl;
      rewrite ?resolve_keeps, ?reject_keeps by exact Hset; reflexivity.
  - apply Hsimple; [exact Hset|].
    destruct (update_handlers_frame w params (false_by_default allMatches) e b l)
      as (_ & Hret & _).
    destruct (update_handlers w params (false_by_default allMatches) e b l) as [s' l'].
    simpl in *. rewrite Hret.
    destruct (up_returned b); [congruence|reflexivity|reflexivity].
  - apply Hsimple; [exact Hset|].
    assert (Hret : so_returned (store_handlers data e b) = so_returned b)
      by (destruct e; reflexivity).
    rewrite Hret. destruct (so_returned b); [congruence|reflexivity|reflexivity].
  - apply Hsimple; [exact Hset|].
    destruct e; simpl; rewrite ?resolve_keeps, ?reject_keeps by exact Hset; reflexivity.
Qed.

Lemma step_settled_stays w op (f : flight (mstate (method_of op))) e :
  outcome f <> Pending ->
  settled_stays op e (outcome f) (outcome (step w (method_of op) f e)).
Proof.
  intros Hset.
  destruct (outcome_moves w op f e)
    as [H|[[Hp _]|(tx & b & He & Hst & H)]]; rewrite ?H.
  - apply settled_stays_refl.
  - contradiction.
  - unfold outcome in *. rewrite Hst in *. apply react_settled_stays, Hset.
Qed.

(** A promise of an operation settles once.  Once rejected it stays rejected
    with the same reason, and once resolved it stays resolved, whatever the
    engine fires afterwards; and it keeps its value, except that the array of
    [getObjects] and [getObjectsByIndex], which is the array the cursor loop
    pushes to, grows if the cursor is put on further records. *)
Theorem promises_settle_once :
  forall (svc : IDBService) (w : browser) (op : operation) (tr later : list event),
    (forall r,
        outcome (perform svc w op tr) = Rejected r ->
        outcome (perform svc w op (tr ++ later)) = Rejected r)
    /\ (forall x,
           outcome (perform svc w op tr) = Resolved x ->
           exists y,
             outcome (perform svc w op (tr ++ later)) = Resolved y
             /\ (is_cursor_operation op = false \/ visited_by later = [] -> y = x)).
Proof.
  intros svc w op tr later.
  induction later as [|e later IH] using rev_ind.
  - rewrite app_nil_r. split; [auto|]. intros x Hx. exists x. auto.
  - destruct IH as [IHr IHx]. rewrite app_assoc, perform_snoc. split.
    + intros r Hr. specialize (IHr r Hr).
      apply (step_settled_stays w op (perform svc w op (tr ++ later)) e); [congruence|].
      exact IHr.
    + intros x Hx. destruct (IHx x Hx) as (y & Hy & Hsame).
      destruct (step_settled_stays w op (perform svc w op (tr ++ later)) e) as [_ H];
        [congruence|].
      destruct (H y Hy) as (z & Hz & Hzy). exists z. split; [exact Hz|].
      intros Hc. rewrite visited_by_snoc in Hc.
      assert (Hc' : is_cursor_operation op = false
                    \/ (visited_by later = [] /\ visited_by [e] = [])).
      { destruct Hc as [Hc|Hc]; [auto|]. right.
        apply app_eq_nil in Hc. destruct Hc as [H1 H2].
        split; [exact H1|]. unfold visited_by. simpl. rewrite app_nil_r. exact H2. }
      rewrite Hzy, Hsame; [reflexivity| |]; destruct Hc' as [Hc'|[H1 H2]]; auto.
Qed.

Lemma promises_settle_once_witness :
  outcome (perform sample_service calm_browser (StoreObjects "n" [VNum 1])
             [OpenSuccess 7; ReqError 0 3])
  = Rejected (EngineEvent 3)
  /\ outcome (perform sample_service calm_browser (StoreObjects "n" [VNum 1])
                ([OpenSuccess 7; ReqError 0 3] ++ [ReqSuccess 0 (VNum 1); TxComplete]))
     = Rejected (EngineEvent 3).
Proof.
  split; [reflexivity|].
  exact (proj1 (promises_settle_once sample_service calm_browser
                  (StoreObjects "n" [VNum 1]) [OpenSuccess 7; ReqError 0 3]
                  [ReqSuccess 0 (VNum 1); TxComplete])
           (EngineEvent 3) eq_refl).
Defined.

(** ** [getObjects] on any events *)




(** ** Aborted transactions *)

(** No method has a handler for the abort event of its transaction. *)
Lemma abort_unheard w op b l :
  snd (react w (method_of op) (b, l) TxAbort) = l.
Proof. unfold react. destruct op; reflexivity. Qed.

(** No operation listens to the abort event of its transaction: it changes
    neither the promise nor what has been called.  A transaction that aborts
    without an error event, as after [abort()] or an exception in a handler,
    leaves a pending promise pending. *)
Theorem abort_is_ignored :
  forall (svc : IDBService) (w : browser) (op : operation) (tr : list event),
    outcome (perform svc w op (tr ++ [TxAbort])) = outcome (perform svc w op tr)
    /\ log (perform svc w op (tr ++ [TxAbort])) = log (perform svc w op tr).
Proof.
  intros svc w op tr. split.
  - destruct (outcome (perform svc w op tr)) as [|x|r] eqn:Hout.
    + destruct (settles_at_matching_events svc w op tr TxAbort Hout) as [Hres Hrej].
      destruct (outcome (perform svc w op (tr ++ [TxAbort]))) as [|x|r] eqn:Hafter.
      * reflexivity.
      * discriminate (Hres x eq_refl).
      * destruct (Hrej r eq_refl) as [H|(db & ex & H & _)]; discriminate H.
    + rewrite perform_snoc.
      destruct (step_settled_stays w op (perform svc w op tr) TxAbort) as [_ H];
        [congruence|].
      destruct (H x Hout) as (y & Hy & Hsame). rewrite Hy, Hsame; auto.
    + rewrite perform_snoc.
      destruct (step_settled_stays w op (perform svc w op tr) TxAbort) as [H _];
        [congruence|].
      apply H, Hout.
  - rewrite perform_snoc.
    destruct (step_moves w op (perform svc w op tr) TxAbort)
      as [Hnone|db He Hreq| He Hreq |evt He Hopen|db He Hopen
         |db ex pre post He Hopen Hpre Hne|tx b He Hrun]; try discriminate; simpl.
    + reflexivity.
    + apply abort_unheard.
Qed.

(** ** The compiled service: [_init_] *)

Lemma compiled_run_snoc svc w m tr e :
  Compiled.run svc w m (tr ++ [e]) = Compiled.step svc w m (Compiled.run svc w m tr) e.
Proof. unfold Compiled.run. rewrite fold_left_app. reflexivity. Qed.

Lemma compiled_run_app svc w m tr1 tr2 :
  Compiled.run svc w m (tr1 ++ tr2)
  = fold_left (Compiled.step svc w m) tr2 (Compiled.run svc w m tr1).
Proof. unfold Compiled.run. apply fold_left_app. Qed.

Lemma compiled_refused_step svc w m (f : Compiled.flight (mstate m)) r e :
  Compiled.at_stage f = Refused r -> Compiled.step svc w m f e = f.
Proof.
  intros Hst. unfold Compiled.step. rewrite Hst. destruct (on_open_request e); reflexivity.
Qed.

Lemma compiled_refused_run svc w m tr : forall (f : Compiled.flight (mstate m)) r,
  Compiled.at_stage f = Refused r -> fold_left (Compiled.step svc w m) tr f = f.
Proof.
  induction tr as [|e tr IH]; intros f r Hst; simpl; [reflexivity|].
  rewrite (compiled_refused_step svc w m f r e Hst). eapply IH, Hst.
Qed.

(** The compiled [_init_] and that of the source differ in three places: the
    compiled one rejects with what [open] threw, where the source makes a
    string of it; it has no handler for the blocked event; and its handler
    for upgrade-needed resolves the promise.  Apart from these they are the
    same code: for the same database name and version, when [open] does not
    throw and the engine fires neither upgrade-needed nor blocked, a method
    run on the compiled service makes the same calls in the same order and
    ends in the same state, promise included, as on the service of the
    source. *)
Theorem compiled_init_agrees_on_plain_opens :
  forall (cfg : IDBServiceConfig) (ccfg : Compiled.IDBServiceConfig) (w : browser)
         (m : method) (tr : list event),
    Compiled.database ccfg = database cfg ->
    Compiled.version ccfg = version cfg ->
    throws w [] (Open (database cfg) (version cfg)) = None ->
    Forall (fun e => is_callback_event e = false) tr ->
    Compiled.log (Compiled.run (Compiled.constructor ccfg) w m tr)
    = log (run (constructor cfg) w m tr)
    /\ Compiled.at_stage (Compiled.run (Compiled.constructor ccfg) w m tr)
       = at_stage (run (constructor cfg) w m tr).
Proof.
  intros cfg ccfg w m tr Hdb Hver Hopen.
  induction tr as [|e tr IH] using rev_ind; intros Htr.
  - unfold Compiled.run, run, Compiled.start, start, Compiled._init_, _init_, invoke. simpl.
    rewrite Hdb, Hver.
    destruct (precheck m); [auto|].
    destruct (indexedDB w); simpl; [|auto].
    rewrite Hopen. auto.
  - apply Forall_app in Htr. destruct Htr as [Htr He].
    inversion He as [|? ? Hcb _]; subst.
    destruct (IH Htr) as [Hlog Hst].
    rewrite compiled_run_snoc, run_snoc.
    unfold Compiled.step, step. rewrite Hlog, Hst.
    destruct (on_open_request e) eqn:Hreq.
    + destruct e as [evt|db|db| | | | | | | |]; try discriminate Hreq; try discriminate Hcb;
        destruct (at_stage (run (constructor cfg) w m tr)) as [r| |r|tx b] eqn:Hs;
        simpl; rewrite ?Hs; auto.
      destruct (on_connected w m db (log (run (constructor cfg) w m tr))). auto.
    + destruct (at_stage (run (constructor cfg) w m tr)) as [r| |r|tx b] eqn:Hs;
        simpl; rewrite ?Hs; auto.
      destruct (on_event m w e b (log (run (constructor cfg) w m tr))). auto.
Qed.

Lemma compiled_init_agrees_on_plain_opens_witness :
  Compiled.log
    (Compiled.run (Compiled.constructor
                     {| Compiled.database := "notes"; Compiled.version := 2;
                        Compiled.onupgradeneeded := None |})
       calm_browser (Compiled.storeObjects "n" [VNum 1])
       [OpenSuccess 7; ReqSuccess 0 (VNum 1); TxComplete])
  = [Open "notes" 2; Transaction 7 (OneStore "n") "readwrite"; ObjectStore "n";
     Add (VNum 1)]
  /\ Compiled.log
       (Compiled.run (Compiled.constructor
                        {| Compiled.database := "notes"; Compiled.version := 2;
                           Compiled.onupgradeneeded := None |})
          calm_browser (Compiled.storeObjects "n" [VNum 1])
          [OpenSuccess 7; ReqSuccess 0 (VNum 1); TxComplete])
     = log (run sample_service calm_browser (Compiled.storeObjects "n" [VNum 1])
              [OpenSuccess 7; ReqSuccess 0 (VNum 1); TxComplete]).
Proof.
  split; [reflexivity|].
  apply (compiled_init_agrees_on_plain_opens sample_config
           {| Compiled.database := "notes"; Compiled.version := 2;
              Compiled.onupgradeneeded := None |}
           calm_browser (Compiled.storeObjects "n" [VNum 1])
           [OpenSuccess 7; ReqSuccess 0 (VNum 1); TxComplete]);
    try reflexivity.
  repeat constructor.
Defined.

(** When [indexedDB.open] throws, the compiled service rejects with what was
    thrown, as it is, where the source rejects with the string
    ["ERROR: " + e]; as in the source, [open] is the only call made and no
    event changes that.  Without [window.indexedDB] it rejects with the same
    error as the source and calls nothing. *)
Theorem compiled_open_throwing_rejects_with_the_exception :
  forall (ccfg : Compiled.IDBServiceConfig) (w : browser) (m : method)
         (tr : list event),
    precheck m = None ->
    (forall e,
        indexedDB w = true ->
        throws w [] (Open (Compiled.database ccfg) (Compiled.version ccfg)) = Some e ->
        Compiled.outcome (Compiled.run (Compiled.constructor ccfg) w m tr)
        = Rejected (Thrown e)
        /\ Compiled.log (Compiled.run (Compiled.constructor ccfg) w m tr)
           = [Open (Compiled.database ccfg) (Compiled.version ccfg)])
    /\ (indexedDB w = false ->
        Compiled.outcome (Compiled.run (Compiled.constructor ccfg) w m tr)
        = Rejected (AdapterError "Browser kit does not support indexedDB")
        /\ Compiled.log (Compiled.run (Compiled.constructor ccfg) w m tr) = []).
Proof.
  intros ccfg w m tr Hpre. split.
  - intros e Hw Hthrows.
    assert (Hstart : Compiled.start (Compiled.constructor ccfg) w m
                     = {| Compiled.log :=
                            [Open (Compiled.database ccfg) (Compiled.version ccfg)];
                          Compiled.at_stage := Refused (Thrown e) |}).
    { unfold Compiled.start, Compiled._init_, invoke. simpl.
      rewrite Hpre, Hw, Hthrows. reflexivity. }
    unfold Compiled.run.
    rewrite (compiled_refused_run _ w m tr _ (Thrown e)) by (rewrite Hstart; reflexivity).
    rewrite Hstart. split; reflexivity.
  - intros Hw.
    assert (Hstart : Compiled.start (Compiled.constructor ccfg) w m
                     = {| Compiled.log := [];
                          Compiled.at_stage :=
                            Refused (AdapterError
                                       "Browser kit does not support indexedDB") |}).
    { unfold Compiled.start, Compiled._init_. rewrite Hpre, Hw. reflexivity. }
    unfold Compiled.run.
    rewrite (compiled_refused_run _ w m tr _
               (AdapterError "Browser kit does not support indexedDB"))
      by (rewrite Hstart; reflexivity).
    rewrite Hstart. split; reflexivity.
Qed.

Lemma compiled_open_throwing_rejects_with_the_exception_witness :
  let w := {| indexedDB := true;
              throws := fun _ c => if is_open c then Some "TypeError" else None |} in
  Compiled.outcome
    (Compiled.run (Compiled.constructor
                     {| Compiled.database := "notes"; Compiled.version := 0;
                        Compiled.onupgradeneeded := None |})
       w (Compiled.clearStore "n") [OpenSuccess 7; TxComplete])
  = Rejected (Thrown "TypeError").
Proof.
  intros w.
  exact (proj1 (proj1 (compiled_open_throwing_rejects_with_the_exception
                         {| Compiled.database := "notes"; Compiled.version := 0;
                            Compiled.onupgradeneeded := None |}
                         w (Compiled.clearStore "n") [OpenSuccess 7; TxComplete] eq_refl)
                  "TypeError" eq_refl eq_refl)).
Defined.

(** The bodies of the compiled methods, when no call throws. *)
Lemma compiled_body_calm op w tx l :
  calm w ->
  exists b calls,
    body (Compiled.method_of op) w tx l = (inr b, l ++ calls)
    /\ Forall inner_call calls.
Proof.
  intros Hw.
  destruct op as [stores store params|stores store params|stores store params
                 |stores store keyRange|store index params allMatches|store data|store].
  - exists Pending, [ObjectStore store; Get (Compiled.values params)]. split.
    + simpl. unfold bind, ret. rewrite !(invoke_calm _ _ _ Hw), <- app_assoc. reflexivity.
    + repeat constructor.
  - exists {| res := []; cursor_promise := Pending |},
      [ObjectStore store;
       OpenCursor (Compiled.getObjects_range params) (Compiled.getObjects_direction params)].
    split.
    + simpl. unfold bind, ret. rewrite !(invoke_calm _ _ _ Hw), <- app_assoc. reflexivity.
    + repeat constructor.
  - exists Pending,
      [ObjectStore store; Index (default "" (Compiled.index params));
       Get (Compiled.index_values params)].
    split.
    + simpl. unfold bind, ret. rewrite !(invoke_calm _ _ _ Hw), <- !app_assoc. reflexivity.
    + repeat constructor.
  - exists (initial (RemoveObjectsByKey stores store keyRange)),
      (body_calls (RemoveObjectsByKey stores store keyRange)).
    split; [apply (body_calm (RemoveObjectsByKey stores store keyRange)), Hw|].
    apply body_calls_inner.
  - exists {| Compiled.puts := []; Compiled.promiseA := Pending;
              Compiled.promiseB := Pending; Compiled.returned := Pending |},
      [ObjectStore store;
       if false_by_default allMatches then OpenCursor index None else Get index].
    split.
    + simpl. unfold bind, ret. rewrite !(invoke_calm _ _ _ Hw), <- app_assoc. reflexivity.
    + destruct (false_by_default allMatches); repeat constructor.
  - exists (initial (StoreObjects store data)), (body_calls (StoreObjects store data)).
    split; [apply (body_calm (StoreObjects store data)), Hw|].
    apply body_calls_inner.
  - exists (initial (ClearStore store)), (body_calls (ClearStore store)).
    split; [apply (body_calm (ClearStore store)), Hw|].
    apply body_calls_inner.
Qed.

(** The body of a compiled method only adds to the log, whatever throws. *)
Lemma compiled_body_appends op w tx l :
  exists added, snd (body (Compiled.method_of op) w tx l) = l ++ added.
Proof.
  assert (Hsource : forall op', exists added,
             snd (body (method_of op') w tx l) = l ++ added).
  { intros op'. destruct (body_cases op' w tx l) as [H|(ex & pre & post & H & _)];
      rewrite H; eauto. }
  destruct op as [stores store params|stores store params|stores store params
                 |stores store keyRange|store index params allMatches|store data|store];
    try (apply (Hsource (RemoveObjectsByKey stores store keyRange)));
    try (apply (Hsource (StoreObjects store data)));
    try (apply (Hsource (ClearStore store)));
    simpl; unfold bind, ret;
    repeat match goal with
           | |- context [invoke w ?c ?l0] =>
               let H := fresh "H" in
               destruct (invoke_cases w c l0) as [H|[? H]]; rewrite H; clear H; simpl
           end;
    eexists; rewrite <- ?app_assoc; reflexivity.
Qed.

(** A compiled call that has failed stays so. *)
Lemma compiled_failed_run svc w m r later : forall f,
  Compiled.at_stage f = Failed r ->
  Compiled.at_stage (fold_left (Compiled.step svc w m) later f) = Failed r.
Proof.
  induction later as [|e later IH]; intros f Hf; [exact Hf|]. simpl. apply IH.
  unfold Compiled.step. rewrite Hf.
  destruct (on_open_request e); [|exact Hf].
  destruct (Compiled.open_request_event svc e (Rejected r) (Compiled.log f)). reflexivity.
Qed.

(** In the compiled service the handler of upgrade-needed resolves the
    promise of [_init_] with what the [onupgradeneeded] callback of the
    configuration returns.  So when the engine asks for an upgrade, every
    operation asks for its transaction then, inside the upgrade, on what the
    callback returned.  An engine refuses a transaction while the upgrade is
    going on: when that call throws, nothing else is called and the operation
    is rejected with the exception, for good.  In any case the success event
    that follows the upgrade starts nothing.  Without the callback the handler
    throws and the event does nothing.  A blocked event has no handler at
    all. *)
Theorem compiled_upgrade_starts_the_transaction :
  forall (ccfg : Compiled.IDBServiceConfig) (w : browser) (op : Compiled.operation)
         (tr : list event) (db : handle),
    Compiled.at_stage (Compiled.run (Compiled.constructor ccfg) w (Compiled.method_of op) tr)
    = Opening ->
    let svc := Compiled.constructor ccfg in
    let m := Compiled.method_of op in
    (forall cb,
        Compiled.onupgradeneeded ccfg = Some cb ->
        let made := Compiled.log (Compiled.run svc w m tr) ++ [OnUpgradeNeeded db] in
        let call := Transaction (cb db) (stores m) (mode_or_default (mode m)) in
        (exists rest,
            Compiled.log (Compiled.run svc w m (tr ++ [OpenUpgradeNeeded db]))
            = made ++ call :: rest)
        /\ (forall ex,
               throws w made call = Some ex ->
               Compiled.log (Compiled.run svc w m (tr ++ [OpenUpgradeNeeded db]))
               = made ++ [call]
               /\ forall later,
                   Compiled.outcome
                     (Compiled.run svc w m (tr ++ OpenUpgradeNeeded db :: later))
                   = Rejected (Thrown ex))
        /\ forall db',
            Compiled.run svc w m (tr ++ [OpenUpgradeNeeded db; OpenSuccess db'])
            = Compiled.run svc w m (tr ++ [OpenUpgradeNeeded db]))
    /\ (Compiled.onupgradeneeded ccfg = None ->
        Compiled.run svc w m (tr ++ [OpenUpgradeNeeded db]) = Compiled.run svc w m tr)
    /\ Compiled.run svc w m (tr ++ [OpenBlocked]) = Compiled.run svc w m tr.
Proof.
  intros ccfg w op tr db Hst svc m. subst svc m.
  assert (Hsame : {| Compiled.log :=
                       Compiled.log (Compiled.run (Compiled.constructor ccfg) w
                                       (Compiled.method_of op) tr);
                     Compiled.at_stage := Opening |}
                  = Compiled.run (Compiled.constructor ccfg) w (Compiled.method_of op) tr).
  { destruct (Compiled.run (Compiled.constructor ccfg) w (Compiled.method_of op) tr)
      as [l st]. simpl in *. subst st. reflexivity. }
  split; [|split].
  - intros cb Hcb made call.
    assert (Hup : Compiled.run (Compiled.constructor ccfg) w (Compiled.method_of op)
                    (tr ++ [OpenUpgradeNeeded db])
                  = let (st, l') := on_connected w (Compiled.method_of op) (cb db) made in
                    {| Compiled.log := l'; Compiled.at_stage := st |}).
    { rewrite compiled_run_snoc. unfold Compiled.step. rewrite Hst.
      cbn [on_open_request Compiled.open_request_event Compiled.this_onupgradeneeded
           Compiled.constructor].
      rewrite Hcb. reflexivity. }
    split; [|split].
    + rewrite Hup. unfold on_connected, getTransaction_then, bind, ret.
      fold call. rewrite (surjective_pairing (invoke w call made)), invoke_log.
      destruct (fst (invoke w call made)) as [ex|[]].
      * exists []. reflexivity.
      * match goal with
        | |- context [body _ w ?tx ?l] =>
            destruct (compiled_body_appends op w tx l) as [added Hadded];
              destruct (body (Compiled.method_of op) w tx l) as [[ex|b] l']
        end; simpl in *; subst; exists added; rewrite <- app_assoc; reflexivity.
    + intros ex Hex.
      assert (Hfail : Compiled.run (Compiled.constructor ccfg) w (Compiled.method_of op)
                        (tr ++ [OpenUpgradeNeeded db])
                      = {| Compiled.log := made ++ [call];
                           Compiled.at_stage := Failed (Thrown ex) |}).
      { rewrite Hup. unfold on_connected, getTransaction_then, bind, ret.
        fold call. unfold invoke. rewrite Hex. reflexivity. }
      split; [rewrite Hfail; reflexivity|].
      intros later.
      change (tr ++ OpenUpgradeNeeded db :: later)
        with (tr ++ [OpenUpgradeNeeded db] ++ later).
      rewrite app_assoc, compiled_run_app. unfold Compiled.outcome.
      rewrite (compiled_failed_run _ _ _ (Thrown ex)); [reflexivity|].
      rewrite Hfail. reflexivity.
    + intros db'.
      change (tr ++ [OpenUpgradeNeeded db; OpenSuccess db'])
        with (tr ++ [OpenUpgradeNeeded db] ++ [OpenSuccess db']).
      rewrite app_assoc, compiled_run_snoc, Hup. unfold on_connected.
      destruct (getTransaction_then w _ _ (cb db) made) as [[ex|tx] l1]; [reflexivity|].
      destruct (body (Compiled.method_of op) w tx l1) as [[ex|b] l2]; reflexivity.
  - intros Hnone. rewrite compiled_run_snoc. unfold Compiled.step. rewrite Hst.
    cbn [on_open_request Compiled.open_request_event Compiled.this_onupgradeneeded
         Compiled.constructor].
    rewrite Hnone. exact Hsame.
  - rewrite compiled_run_snoc. unfold Compiled.step. rewrite Hst. exact Hsame.
Qed.

Lemma compiled_upgrade_starts_the_transaction_witness :
  let svc := Compiled.constructor
               {| Compiled.database := "notes"; Compiled.version := 2;
                  Compiled.onupgradeneeded := Some (fun db => db) |} in
  let upgrading := {| indexedDB := true;
                      throws := fun made c =>
                        if is_transaction c && negb (existsb is_transaction made)
                        then Some "InvalidStateError" else None |} in
  Compiled.at_stage (Compiled.run svc upgrading (Compiled.clearStore "n") []) = Opening
  /\ Compiled.log (Compiled.run svc upgrading (Compiled.clearStore "n")
                     ([] ++ [OpenUpgradeNeeded 7]))
     = [Open "notes" 2; OnUpgradeNeeded 7; Transaction 7 (OneStore "n") "readwrite"]
  /\ Compiled.outcome (Compiled.run svc upgrading (Compiled.clearStore "n")
                         ([] ++ OpenUpgradeNeeded 7 :: [OpenSuccess 7; TxComplete]))
     = Rejected (Thrown "InvalidStateError").
Proof.
  intros svc upgrading.
  destruct (compiled_upgrade_starts_the_transaction
              {| Compiled.database := "notes"; Compiled.version := 2;
                 Compiled.onupgradeneeded := Some (fun db => db) |}
              upgrading (Compiled.ClearStore "n") [] 7 eq_refl) as (H & _ & _).
  destruct (H (fun db => db) eq_refl) as (_ & Hthrown & _).
  destruct (Hthrown "InvalidStateError" eq_refl) as [Hlog Hlater].
  split; [reflexivity|]. split; [exact Hlog | exact (Hlater [OpenSuccess 7; TxComplete])].
Defined.

(** ** The compiled service: its methods *)

Lemma compiled_connected svc w m db b0 calls tr :
  calm w -> precheck m = None ->
  (forall tx l, body m w tx l = (inr b0, l ++ calls)) ->
  Compiled.run svc w m (OpenSuccess db :: tr)
  = fold_left (Compiled.step svc w m) tr
      {| Compiled.log :=
           Open (Compiled.this_database svc) (Compiled.this_version svc)
             :: Transaction db (stores m) (mode_or_default (mode m)) :: calls;
         Compiled.at_stage :=
           Running {| tx_db := db; tx_stores := stores m;
                      tx_mode := mode_or_default (mode m) |} b0 |}.
Proof.
  intros Hw Hpre Hbody. unfold Compiled.run. simpl. f_equal.
  unfold Compiled.start, Compiled._init_. rewrite Hpre, (proj1 Hw). simpl.
  rewrite (invoke_calm _ _ _ Hw). unfold Compiled.step. simpl.
  unfold on_connected, getTransaction_then, bind, ret.
  rewrite (invoke_calm _ _ _ Hw), Hbody. reflexivity.
Qed.

Lemma compiled_step_running svc w m (f : Compiled.flight (mstate m)) tx b e :
  Compiled.at_stage f = Running tx b ->
  on_open_request e = false ->
  Compiled.step svc w m f e
  = {| Compiled.log := snd (react w m (b, Compiled.log f) e);
       Compiled.at_stage := Running tx (fst (react w m (b, Compiled.log f) e)) |}.
Proof.
  intros Hst He. unfold Compiled.step, react. rewrite He, Hst. simpl.
  destruct (on_event m w e b (Compiled.log f)); reflexivity.
Qed.

(** A property of the state of a method that holds when its body has run and
    that its handlers keep holds after any events that follow a successful
    open. *)
Lemma compiled_connected_invariant svc w m db b0 calls
    (I : list event -> mstate m -> Prop) :
  calm w -> precheck m = None ->
  (forall tx l, body m w tx l = (inr b0, l ++ calls)) ->
  I [] b0 ->
  (forall tr e b, on_open_request e = true -> I tr b -> I (tr ++ [e]) b) ->
  (forall tr e b l, on_open_request e = false -> I tr b ->
                    I (tr ++ [e]) (fst (react w m (b, l) e))) ->
  forall tr,
    exists b,
      Compiled.at_stage (Compiled.run svc w m (OpenSuccess db :: tr))
      = Running {| tx_db := db; tx_stores := stores m;
                   tx_mode := mode_or_default (mode m) |} b
      /\ I tr b.
Proof.
  intros Hw Hpre Hbody Hinit Hmono Hreact tr.
  induction tr as [|e tr IH] using rev_ind.
  - rewrite (compiled_connected svc w m db b0 calls [] Hw Hpre Hbody). simpl. eauto.
  - destruct IH as (b & Hst & Hb). rewrite app_comm_cons, compiled_run_snoc.
    destruct (on_open_request e) eqn:He.
    + exists b. split; [|apply Hmono; assumption].
      unfold Compiled.step. rewrite He, Hst.
      destruct (Compiled.open_request_event _ _ _ _). reflexivity.
    + rewrite (compiled_step_running _ _ _ _ _ _ _ Hst He). simpl. eauto.
Qed.

(** The compiled [getObjectByKey] takes its key from [params.values] and,
    unlike the source, refuses an undefined one itself: the promise is
    rejected with an [Error] of the adapter and nothing is called, in any
    browser and whatever the engine fires.  With a key it makes one [get] of
    it in a read-only transaction; while the promise is pending, the success
    of the request resolves it with the cast of the result (the result itself
    without [params.castOp], what that function makes of it with one) and its
    error event rejects it with that event. *)
Theorem compiled_getObjectByKey_needs_a_key :
  forall (ccfg : Compiled.IDBServiceConfig) (w : browser) (stores : scope)
         (store : string) (params : Compiled.GetParams),
    let svc := Compiled.constructor ccfg in
    let m := Compiled.getObjectByKey stores store params in
    (isUndefined (Compiled.values params) = true ->
     forall tr,
       Compiled.outcome (Compiled.run svc w m tr)
       = Rejected (AdapterError
                     "at least one value for the object's key needs to be passed!")
       /\ Compiled.log (Compiled.run svc w m tr) = [])
    /\ (isUndefined (Compiled.values params) = false -> calm w ->
        forall db,
          Compiled.log (Compiled.run svc w m [OpenSuccess db])
          = [Open (Compiled.database ccfg) (Compiled.version ccfg);
             Transaction db stores "readonly";
             ObjectStore store; Get (Compiled.values params)]
          /\ forall tr,
              Compiled.outcome (Compiled.run svc w m (OpenSuccess db :: tr)) = Pending ->
              (forall result,
                  Compiled.outcome
                    (Compiled.run svc w m ((OpenSuccess db :: tr) ++ [ReqSuccess 0 result]))
                  = Resolved (JVal (cast_or_default (Compiled.castOp params) result))
                  /\ (Compiled.castOp params = None ->
                      Compiled.outcome
                        (Compiled.run svc w m
                           ((OpenSuccess db :: tr) ++ [ReqSuccess 0 result]))
                      = Resolved (JVal result))
                  /\ (forall f,
                         Compiled.castOp params = Some f ->
                         Compiled.outcome
                           (Compiled.run svc w m
                              ((OpenSuccess db :: tr) ++ [ReqSuccess 0 result]))
                         = Resolved (JVal (f result))))
              /\ (forall evt,
                     Compiled.outcome
                       (Compiled.run svc w m ((OpenSuccess db :: tr) ++ [ReqError 0 evt]))
                     = Rejected (EngineEvent evt))).
Proof.
  intros ccfg w stores store params svc m. subst svc m. split.
  - intros Hkey tr. unfold Compiled.run.
    assert (Hstart : Compiled.start (Compiled.constructor ccfg) w
                       (Compiled.getObjectByKey stores store params)
                     = {| Compiled.log := [];
                          Compiled.at_stage :=
                            Refused (AdapterError
                                       "at least one value for the object's key needs to be passed!") |}).
    { unfold Compiled.start. simpl. rewrite Hkey. reflexivity. }
    rewrite (compiled_refused_run _ w _ tr _
               (AdapterError "at least one value for the object's key needs to be passed!"))
      by (rewrite Hstart; reflexivity).
    rewrite Hstart. split; reflexivity.
  - intros Hkey Hw db.
    assert (Hpre : precheck (Compiled.getObjectByKey stores store params) = None)
      by (simpl; rewrite Hkey; reflexivity).
    assert (Hbody : forall tx l,
               body (Compiled.getObjectByKey stores store params) w tx l
               = (inr Pending, l ++ [ObjectStore store; Get (Compiled.values params)])).
    { intros tx l. simpl. unfold bind, ret.
      rewrite !(invoke_calm _ _ _ Hw), <- app_assoc. reflexivity. }
    split.
    + rewrite (compiled_connected _ w _ db _ _ [] Hw Hpre Hbody). reflexivity.
    + intros tr Hp.
      destruct (compiled_connected_invariant (Compiled.constructor ccfg) w
                  (Compiled.getObjectByKey stores store params) db _ _
                  (fun _ _ => True) Hw Hpre Hbody I (fun _ _ _ _ _ => I)
                  (fun _ _ _ _ _ _ => I) tr) as (b & Hst & _).
      unfold Compiled.outcome in Hp. rewrite Hst in Hp. simpl in Hp. subst b.
      split; [intros result|intros evt]; rewrite compiled_run_snoc;
        [rewrite (compiled_step_running _ _ _ _ _ _ (ReqSuccess 0 result) Hst eq_refl)
        |rewrite (compiled_step_running _ _ _ _ _ _ (ReqError 0 evt) Hst eq_refl)];
        [|reflexivity].
      split; [reflexivity|]. split; [intros Hc | intros f Hc];
        unfold Compiled.outcome, react; simpl; rewrite Hc; reflexivity.
Qed.

Lemma compiled_getObjectByKey_needs_a_key_witness :
  let svc := Compiled.constructor
               {| Compiled.database := "notes"; Compiled.version := 2;
                  Compiled.onupgradeneeded := None |} in
  Compiled.log
    (Compiled.run svc calm_browser
       (Compiled.getObjectByKey (OneStore "n") "n"
          {| Compiled.reverse := None; Compiled.values := VUndefined;
             Compiled.castOp := None |})
       [OpenSuccess 7])
  = []
  /\ Compiled.log
       (Compiled.run svc calm_browser
          (Compiled.getObjectByKey (OneStore "n") "n"
             {| Compiled.reverse := None; Compiled.values := VNum 1;
                Compiled.castOp := None |})
          [OpenSuccess 7])
     = [Open "notes" 2; Transaction 7 (OneStore "n") "readonly"; ObjectStore "n";
        Get (VNum 1)]
  /\ Compiled.outcome
       (Compiled.run svc calm_browser
          (Compiled.getObjectByKey (OneStore "n") "n"
             {| Compiled.reverse := None; Compiled.values := VNum 1;
                Compiled.castOp := Some (fun v => VObj [("row", v)]) |})
          ((OpenSuccess 7 :: []) ++ [ReqSuccess 0 (VStr "a")]))
     = Resolved (JVal (VObj [("row", VStr "a")])).
Proof.
  intros svc. split; [|split].
  - exact (proj2 (proj1 (compiled_getObjectByKey_needs_a_key
                           {| Compiled.database := "notes"; Compiled.version := 2;
                              Compiled.onupgradeneeded := None |}
                           calm_browser (OneStore "n") "n"
                           {| Compiled.reverse := None; Compiled.values := VUndefined;
                              Compiled.castOp := None |})
                    eq_refl [OpenSuccess 7])).
  - assert (Hcalm : calm calm_browser) by (split; [reflexivity | intros; reflexivity]).
    exact (proj1 (proj2 (compiled_getObjectByKey_needs_a_key
                           {| Compiled.database := "notes"; Compiled.version := 2;
                              Compiled.onupgradeneeded := None |}
                           calm_browser (OneStore "n") "n"
                           {| Compiled.reverse := None; Compiled.values := VNum 1;
                              Compiled.castOp := None |})
                    eq_refl Hcalm 7)).
  - assert (Hcalm : calm calm_browser) by (split; [reflexivity | intros; reflexivity]).
    destruct (proj2 (compiled_getObjectByKey_needs_a_key
                       {| Compiled.database := "notes"; Compiled.version := 2;
                          Compiled.onupgradeneeded := None |}
                       calm_browser (OneStore "n") "n"
                       {| Compiled.reverse := None; Compiled.values := VNum 1;
                          Compiled.castOp := Some (fun v => VObj [("row", v)]) |})
                eq_refl Hcalm 7) as [_ Hsettle].
    destruct (Hsettle [] eq_refl) as [Hres _].
    exact (proj2 (proj2 (Hres (VStr "a"))) _ eq_refl).
Defined.

(** [getObjectByIndex], which only the compiled file has, checks the name of
    the index first and the value second, rejecting with an [Error] of the
    adapter and calling nothing when one is undefined.  Otherwise it looks
    the value up through the index, with one [get] in a read-only
    transaction; while the promise is pending, the success of the request
    resolves it with the cast of the result (the result itself without
    [params.castOp], what that function makes of it with one), the result
    being [undefined] when no record matches, and its error event rejects it
    with that event. *)
Theorem compiled_getObjectByIndex_looks_up_through_the_index :
  forall (ccfg : Compiled.IDBServiceConfig) (w : browser) (stores : scope)
         (store : string) (params : Compiled.IndexParams),
    let svc := Compiled.constructor ccfg in
    let m := Compiled.getObjectByIndex stores store params in
    (Compiled.index params = None ->
     forall tr,
       Compiled.outcome (Compiled.run svc w m tr)
       = Rejected (AdapterError "getOneByIndex() needs name of the index!")
       /\ Compiled.log (Compiled.run svc w m tr) = [])
    /\ (forall name,
           Compiled.index params = Some name ->
           isUndefined (Compiled.index_values params) = true ->
           forall tr,
             Compiled.outcome (Compiled.run svc w m tr)
             = Rejected (AdapterError "getOneByIndex() needs at least one value.")
             /\ Compiled.log (Compiled.run svc w m tr) = [])
    /\ (forall name,
           Compiled.index params = Some name ->
           isUndefined (Compiled.index_values params) = false ->
           calm w ->
           forall db,
             Compiled.log (Compiled.run svc w m [OpenSuccess db])
             = [Open (Compiled.database ccfg) (Compiled.version ccfg);
                Transaction db stores "readonly";
                ObjectStore store; Index name; Get (Compiled.index_values params)]
             /\ forall tr,
                 Compiled.outcome (Compiled.run svc w m (OpenSuccess db :: tr)) = Pending ->
                 (forall result,
                     Compiled.outcome
                       (Compiled.run svc w m
                          ((OpenSuccess db :: tr) ++ [ReqSuccess 0 result]))
                     = Resolved (JVal (cast_or_default (Compiled.index_castOp params)
                                         result))
                     /\ (Compiled.index_castOp params = None ->
                         Compiled.outcome
                           (Compiled.run svc w m
                              ((OpenSuccess db :: tr) ++ [ReqSuccess 0 result]))
                         = Resolved (JVal result))
                     /\ (forall f,
                            Compiled.index_castOp params = Some f ->
                            Compiled.outcome
                              (Compiled.run svc w m
                                 ((OpenSuccess db :: tr) ++ [ReqSuccess 0 result]))
                            = Resolved (JVal (f result))))
                 /\ (forall evt,
                        Compiled.outcome
                          (Compiled.run svc w m
                             ((OpenSuccess db :: tr) ++ [ReqError 0 evt]))
                        = Rejected (EngineEvent evt))).
Proof.
  intros ccfg w stores store params svc m. subst svc m.
  assert (Hrefused : forall r tr,
             precheck (Compiled.getObjectByIndex stores store params) = Some r ->
             Compiled.outcome
               (Compiled.run (Compiled.constructor ccfg) w
                  (Compiled.getObjectByIndex stores store params) tr)
             = Rejected r
             /\ Compiled.log
                  (Compiled.run (Compiled.constructor ccfg) w
                     (Compiled.getObjectByIndex stores store params) tr) = []).
  { intros r tr Hpre. unfold Compiled.run.
    assert (Hstart : Compiled.start (Compiled.constructor ccfg) w
                       (Compiled.getObjectByIndex stores store params)
                     = {| Compiled.log := []; Compiled.at_stage := Refused r |})
      by (unfold Compiled.start; rewrite Hpre; reflexivity).
    rewrite (compiled_refused_run _ w _ tr _ r) by (rewrite Hstart; reflexivity).
    rewrite Hstart. split; reflexivity. }
  split; [|split].
  - intros Hindex tr. apply Hrefused. simpl. rewrite Hindex. reflexivity.
  - intros name Hindex Hval tr. apply Hrefused. simpl. rewrite Hindex, Hval. reflexivity.
  - intros name Hindex Hval Hw db.
    assert (Hpre : precheck (Compiled.getObjectByIndex stores store params) = None)
      by (simpl; rewrite Hindex, Hval; reflexivity).
    assert (Hbody : forall tx l,
               body (Compiled.getObjectByIndex stores store params) w tx l
               = (inr Pending,
                  l ++ [ObjectStore store; Index name;
                        Get (Compiled.index_values params)])).
    { intros tx l. simpl. unfold bind, ret.
      rewrite !(invoke_calm _ _ _ Hw), <- !app_assoc, Hindex. reflexivity. }
    split.
    + rewrite (compiled_connected _ w _ db _ _ [] Hw Hpre Hbody). reflexivity.
    + intros tr Hp.
      destruct (compiled_connected_invariant (Compiled.constructor ccfg) w
                  (Compiled.getObjectByIndex stores store params) db _ _
                  (fun _ _ => True) Hw Hpre Hbody I (fun _ _ _ _ _ => I)
                  (fun _ _ _ _ _ _ => I) tr) as (b & Hst & _).
      unfold Compiled.outcome in Hp. rewrite Hst in Hp. simpl in Hp. subst b.
      split; [intros result|intros evt]; rewrite compiled_run_snoc;
        [rewrite (compiled_step_running _ _ _ _ _ _ (ReqSuccess 0 result) Hst eq_refl)
        |rewrite (compiled_step_running _ _ _ _ _ _ (ReqError 0 evt) Hst eq_refl)];
        [|reflexivity].
      split; [reflexivity|]. split; [intros Hc | intros f Hc];
        unfold Compiled.outcome, react; simpl; rewrite Hc; reflexivity.
Qed.

Lemma compiled_getObjectByIndex_looks_up_through_the_index_witness :
  let svc := Compiled.constructor
               {| Compiled.database := "notes"; Compiled.version := 2;
                  Compiled.onupgradeneeded := None |} in
  let params := {| Compiled.index := Some "by_tag"; Compiled.index_values := VStr "x";
                   Compiled.index_castOp := None |} in
  calm calm_browser
  /\ Compiled.log
       (Compiled.run svc calm_browser (Compiled.getObjectByIndex (OneStore "n") "n" params)
          [OpenSuccess 7])
     = [Open "notes" 2; Transaction 7 (OneStore "n") "readonly"; ObjectStore "n";
        Index "by_tag"; Get (VStr "x")]
  /\ Compiled.outcome
       (Compiled.run svc calm_browser (Compiled.getObjectByIndex (OneStore "n") "n" params)
          ((OpenSuccess 7 :: []) ++ [ReqSuccess 0 VUndefined]))
     = Resolved (JVal VUndefined)
  /\ Compiled.outcome
       (Compiled.run svc calm_browser
          (Compiled.getObjectByIndex (OneStore "n") "n"
             {| Compiled.index := Some "by_tag"; Compiled.index_values := VStr "x";
                Compiled.index_castOp := Some (fun v => VObj [("row", v)]) |})
          ((OpenSuccess 7 :: []) ++ [ReqSuccess 0 (VStr "a")]))
     = Resolved (JVal (VObj [("row", VStr "a")])).
Proof.
  intros svc params.
  assert (Hcalm : calm calm_browser) by (split; [reflexivity | intros; reflexivity]).
  split; [exact Hcalm|].
  destruct (compiled_getObjectByIndex_looks_up_through_the_index
              {| Compiled.database := "notes"; Compiled.version := 2;
                 Compiled.onupgradeneeded := None |}
              calm_browser (OneStore "n") "n" params) as (_ & _ & H).
  destruct (H "by_tag" eq_refl eq_refl Hcalm 7) as [Hlog Hsettle].
  destruct (compiled_getObjectByIndex_looks_up_through_the_index
              {| Compiled.database := "notes"; Compiled.version := 2;
                 Compiled.onupgradeneeded := None |}
              calm_browser (OneStore "n") "n"
              {| Compiled.index := Some "by_tag"; Compiled.index_values := VStr "x";
                 Compiled.index_castOp := Some (fun v => VObj [("row", v)]) |})
    as (_ & _ & H').
  destruct (H' "by_tag" eq_refl eq_refl Hcalm 7) as [_ Hsettle'].
  split; [exact Hlog|]. split.
  - exact (proj1 (proj2 (proj1 (Hsettle [] eq_refl) VUndefined)) eq_refl).
  - exact (proj2 (proj2 (proj1 (Hsettle' [] eq_refl) (VStr "a"))) _ eq_refl).
Defined.

(** *** The compiled [updateObjectByIndex] *)

Lemma compiled_update_inv_later all tr e s :
  compiled_update_inv all tr s -> compiled_update_inv all (tr ++ [e]) s.
Proof.
  intros (H1 & H2 & H3 & H4 & H5).
  assert (Hin : forall x, In x tr -> In x (tr ++ [e]))
    by (intros x; rewrite in_app_iff; tauto).
  repeat split; auto.
  - intros x Hx. destruct (H1 x Hx) as [(k & r & o & Hk & Ho & ->)|(Ha & Hc & ->)]; eauto 8.
  - intros r Hr. destruct (H2 r Hr) as (k & evt & -> & Hk). eauto.
  - intros u Hu. eauto.
Qed.

Lemma follow_both {A B} (a a' : promise A) (b b' : promise B) :
  settled_or_same a a' -> settled_or_same b b' ->
  (forall r, b' <> Rejected r) ->
  follow (then_ fst (promise_both a b)) (then_ fst (promise_both a' b'))
  = then_ fst (promise_both a' b').
Proof.
  unfold settled_or_same. intros Ha Hb Hnr.
  destruct a as [|x|r], a' as [|x'|r'], b as [|y|q], b' as [|y'|q']; simpl;
    try reflexivity;
    try (exfalso; eapply Hnr; reflexivity);
    destruct Ha as [Ha|Ha]; try discriminate Ha;
    destruct Hb as [Hb|Hb]; try discriminate Hb;
    try (injection Ha as ->); try (injection Hb as ->); reflexivity.
Qed.

(** What the handlers do to the promises, before the reactions run. *)
Lemma compiled_update_handlers_inv w params all tr e s l :
  compiled_update_inv all tr s ->
  let s' := fst (Compiled.update_handlers w params all e s l) in
  compiled_update_inv all (tr ++ [e])
    {| Compiled.puts := Compiled.puts s';
       Compiled.promiseA := Compiled.promiseA s';
       Compiled.promiseB := Compiled.promiseB s';
       Compiled.returned :=
         then_ fst (promise_both (Compiled.promiseA s') (Compiled.promiseB s')) |}
  /\ settled_or_same (Compiled.promiseA s) (Compiled.promiseA s')
  /\ settled_or_same (Compiled.promiseB s) (Compiled.promiseB s')
  /\ Compiled.returned s' = Compiled.returned s.
Proof.
  intros Hinv s'.
  pose proof (compiled_update_inv_later all tr e s Hinv) as (H1 & H2 & H3 & H4 & H5).
  assert (Hlast : In e (tr ++ [e])) by (apply in_app_iff; right; left; reflexivity).
  assert (Hsame : compiled_update_inv all (tr ++ [e])
                    {| Compiled.puts := Compiled.puts s;
                       Compiled.promiseA := Compiled.promiseA s;
                       Compiled.promiseB := Compiled.promiseB s;
                       Compiled.returned :=
                         then_ fst (promise_both (Compiled.promiseA s)
                                      (Compiled.promiseB s)) |}
                  /\ settled_or_same (Compiled.promiseA s) (Compiled.promiseA s)
                  /\ settled_or_same (Compiled.promiseB s) (Compiled.promiseB s)
                  /\ Compiled.returned s = Compiled.returned s).
  { unfold settled_or_same. repeat split; auto. }
  assert (Hone : forall v,
             let s1 := fst (Compiled.updateOne w params v s l) in
             compiled_update_inv all (tr ++ [e])
               {| Compiled.puts := Compiled.puts s1;
                  Compiled.promiseA := Compiled.promiseA s1;
                  Compiled.promiseB := Compiled.promiseB s1;
                  Compiled.returned :=
                    then_ fst (promise_both (Compiled.promiseA s1)
                                 (Compiled.promiseB s1)) |}
             /\ settled_or_same (Compiled.promiseA s) (Compiled.promiseA s1)
             /\ settled_or_same (Compiled.promiseB s) (Compiled.promiseB s1)
             /\ Compiled.returned s1 = Compiled.returned s).
  { intros v. unfold Compiled.updateOne.
    destruct (assign_params params v) as [o|]; [|exact Hsame].
    destruct (invoke w (Put o) l) as [[ex|[]] l']; [exact Hsame|]. simpl.
    unfold settled_or_same. repeat split; auto.
    intros x Hx. destruct (H1 x Hx) as [(k & r & o' & Hk & Ho & ->)|H]; [|auto].
    left. exists k, r, o'. repeat split; auto.
    apply lookup_app_l_Some. exact Ho. }
  subst s'.
  destruct e as [| | | | | | |[|k] result|[|k] v|[|k]|[|k] evt]; simpl; try exact Hsame.
  - unfold settled_or_same. repeat split; auto.
    + intros r Hr. apply resolve_rejected in Hr. eapply H4, Hr.
    + destruct (Compiled.promiseB s); simpl; auto.
  - destruct all; [exact Hsame|].
    destruct (Compiled.value_property result) as [v|]; [apply Hone | exact Hsame].
  - destruct (Compiled.puts s !! k) as [o|] eqn:Hk; [|exact Hsame]. simpl.
    unfold settled_or_same. repeat split; auto.
    + intros x Hx. apply resolve_resolved in Hx. destruct Hx as [[_ ->]|Hx]; [|auto].
      left. exists k, result, o. auto.
    + intros r Hr. apply resolve_rejected in Hr. auto.
    + destruct (Compiled.promiseA s); simpl; auto.
  - destruct all; [apply Hone | exact Hsame].
  - destruct all; [|exact Hsame].
    destruct (Compiled.puts s) as [|o puts] eqn:Hputs;
      [|rewrite <- Hputs in Hsame; exact Hsame].
    simpl. unfold settled_or_same. repeat split; auto.
    + intros x Hx. apply resolve_resolved in Hx. destruct Hx as [[_ ->]|Hx].
      * right. auto.
      * rewrite Hputs. apply H1, Hx.
    + intros r Hr. apply resolve_rejected in Hr. auto.
    + destruct (Compiled.promiseA s); simpl; auto.
  - destruct (Compiled.puts s !! k) as [o|] eqn:Hk; [|exact Hsame]. simpl.
    unfold settled_or_same. repeat split; auto.
    + intros x Hx. destruct (Compiled.promiseA s) eqn:HA; simpl in Hx; try discriminate.
      apply H1. exact Hx.
    + intros r Hr. destruct (Compiled.promiseA s) eqn:HA; simpl in Hr; try discriminate.
      * injection Hr as <-. eauto.
      * apply H2. exact Hr.
    + destruct (Compiled.promiseA s); simpl; auto.
Qed.

Lemma compiled_update_react_inv w store index params allMatches tr e s l :
  compiled_update_inv (false_by_default allMatches) tr s ->
  compiled_update_inv (false_by_default allMatches) (tr ++ [e])
    (fst (react w (Compiled.updateObjectByIndex store index params allMatches) (s, l) e)).
Proof.
  intros Hinv.
  destruct (compiled_update_handlers_inv w params (false_by_default allMatches) tr e s l
              Hinv) as ((K1 & K2 & K3 & K4 & _) & HA & HB & Hret).
  unfold react. simpl in *.
  destruct (Compiled.update_handlers w params (false_by_default allMatches) e s l)
    as [s' l']. simpl in *.
  unfold compiled_update_inv, Compiled.update_reactions. simpl.
  repeat split; auto.
  rewrite Hret. destruct Hinv as (_ & _ & _ & _ & ->).
  apply follow_both; assumption.
Qed.

Lemma compiled_put_objects_snoc all params tr e :
  compiled_put_objects all params (tr ++ [e])
  = compiled_put_objects all params tr ++ compiled_put_objects all params [e].
Proof. unfold compiled_put_objects. apply omap_app. Qed.

Lemma compiled_update_pinned_later all params tr e s :
  compiled_update_pinned all params tr s ->
  compiled_put_objects all params [e] = [] ->
  compiled_update_pinned all params (tr ++ [e]) s.
Proof.
  intros [P1 P2] He. split.
  - rewrite compiled_put_objects_snoc, He, app_nil_r. exact P1.
  - intros x Hx.
    destruct (P2 x Hx) as [(tr1 & k & r & tr2 & o & Htr & Ho & ->)
                          |(Hall & tr1 & tr2 & Htr & Hnone & ->)].
    + left. exists tr1, k, r, (tr2 ++ [e]), o.
      split; [apply split_later, Htr | auto].
    + right. split; [exact Hall|]. exists tr1, (tr2 ++ [e]).
      split; [apply split_later, Htr | auto].
Qed.

Lemma compiled_update_pinned_react w store index params allMatches tr e s l :
  calm w ->
  compiled_update_pinned (false_by_default allMatches) params tr s ->
  compiled_update_pinned (false_by_default allMatches) params (tr ++ [e])
    (fst (react w (Compiled.updateObjectByIndex store index params allMatches) (s, l) e)).
Proof.
  intros Hw HP. unfold react. cbn [Compiled.updateObjectByIndex on_event fst snd].
  set (all := false_by_default allMatches) in *.
  assert (Hone : forall v,
             compiled_put_objects all params [e]
             = match assign_params params v with Some o => [o] | None => [] end ->
             compiled_update_pinned all params (tr ++ [e])
               (fst (Compiled.updateOne w params v s l))).
  { intros v He. unfold Compiled.updateOne.
    destruct (assign_params params v) as [o|] eqn:Ho.
    - rewrite (invoke_calm _ _ _ Hw). cbn [fst]. destruct HP as [P1 P2]. split.
      + cbn [Compiled.puts]. rewrite compiled_put_objects_snoc, He, P1. reflexivity.
      + cbn [Compiled.promiseA]. intros x Hx.
        destruct (P2 x Hx) as [(tr1 & k & r & tr2 & o' & Htr & Ho' & ->)
                              |(Hall & tr1 & tr2 & Htr & Hnone & ->)].
        * left. exists tr1, k, r, (tr2 ++ [e]), o'.
          split; [apply split_later, Htr | auto].
        * right. split; [exact Hall|]. exists tr1, (tr2 ++ [e]).
          split; [apply split_later, Htr | auto].
    - apply compiled_update_pinned_later; assumption. }
  destruct (Compiled.update_handlers w params all e s l) as [s' l'] eqn:Hh.
  cbn [fst]. unfold Compiled.update_reactions.
  cut (compiled_update_pinned all params (tr ++ [e]) s').
  { intros [P1 P2]. split; [exact P1 | exact P2]. }
  replace s' with (fst (Compiled.update_handlers w params all e s l))
    by (rewrite Hh; reflexivity).
  clear Hh s' l'.
  destruct e as [| | | | | | |[|k] result|[|k] v|[|k]|[|k] evt];
    cbn [Compiled.update_handlers];
    try (apply compiled_update_pinned_later; [exact HP | reflexivity]).
  - (* the lookup succeeded *)
    destruct all eqn:Hall.
    + apply compiled_update_pinned_later; [exact HP | reflexivity].
    + destruct (Compiled.value_property result) as [v|] eqn:Hv.
      * apply Hone. unfold compiled_put_objects. simpl. rewrite Hv.
        destruct (assign_params params v); reflexivity.
      * apply compiled_update_pinned_later; [exact HP|].
        unfold compiled_put_objects. simpl. rewrite Hv. reflexivity.
  - (* a put succeeded *)
    destruct (Compiled.puts s !! k) as [o|] eqn:Hk;
      [|apply compiled_update_pinned_later; [exact HP | reflexivity]].
    destruct (compiled_update_pinned_later all params tr (ReqSuccess (S k) result) s HP
                eq_refl) as [P1 P2].
    split; [exact P1|]. cbn [fst Compiled.settle_A Compiled.promiseA].
    intros x Hx. apply resolve_resolved in Hx. destruct Hx as [[_ ->]|Hx]; [|exact (P2 x Hx)].
    left. exists tr, k, result, [], o. split; [reflexivity|]. split; [|reflexivity].
    destruct HP as [P1' _]. rewrite <- P1'. exact Hk.
  - (* the cursor is on a record *)
    destruct all eqn:Hall.
    + apply Hone. unfold compiled_put_objects. simpl.
      destruct (assign_params params v); reflexivity.
    + apply compiled_update_pinned_later; [exact HP | reflexivity].
  - (* the cursor is at its end *)
    destruct all eqn:Hall;
      [|apply compiled_update_pinned_later; [exact HP | reflexivity]].
    destruct (Compiled.puts s) as [|o puts] eqn:Hputs;
      [|apply compiled_update_pinned_later; [exact HP | reflexivity]].
    destruct (compiled_update_pinned_later true params tr (CursorEnd 0) s HP eq_refl)
      as [P1 P2].
    split; [exact P1|]. cbn [fst Compiled.settle_A Compiled.promiseA].
    intros x Hx. apply resolve_resolved in Hx. destruct Hx as [[_ ->]|Hx]; [|exact (P2 x Hx)].
    right. split; [reflexivity|]. exists tr, []. split; [reflexivity|].
    split; [|reflexivity]. destruct HP as [P1' _]. rewrite <- P1'. exact Hputs.
  - (* a put failed *)
    destruct (Compiled.puts s !! k) as [o|] eqn:Hk;
      [|apply compiled_update_pinned_later; [exact HP | reflexivity]].
    destruct (compiled_update_pinned_later all params tr (ReqError (S k) evt) s HP
                eq_refl) as [P1 P2].
    split; [exact P1|]. cbn [fst Compiled.settle_A Compiled.promiseA].
    intros x Hx. destruct (Compiled.promiseA s) eqn:HA; simpl in Hx; try discriminate.
    apply P2. exact Hx.
Qed.

(** The compiled [updateObjectByIndex] is not the method of the source.  It
    looks [index] up in the store itself and, without [allMatches], updates
    the [value] property of what it found.  The handlers of a put settle
    [promiseA] themselves: on any events after the connection, the promise
    returned is resolved only once the transaction has completed, and then
    with the object of a put that was made before the success event of its
    request, as it is and not in an array, or, with [allMatches], with an
    empty array at an end of the cursor before which nothing was put; and it
    is rejected, with the event, by the error event of a put. *)
Theorem compiled_updateObjectByIndex_resolves_unwrapped :
  forall (ccfg : Compiled.IDBServiceConfig) (w : browser) (store : string)
         (index : value) (param : PutParams) (params : list PutParams)
         (allMatches : option bool) (db : handle),
    calm w ->
    isUndefined index = false ->
    let svc := Compiled.constructor ccfg in
    let m := Compiled.updateObjectByIndex store index (param :: params) allMatches in
    (forall tr x,
        Compiled.outcome (Compiled.run svc w m (OpenSuccess db :: tr)) = Resolved x ->
        In TxComplete tr
        /\ ((exists tr1 k r tr2 o,
                tr = tr1 ++ ReqSuccess (S k) r :: tr2
                /\ compiled_put_objects (false_by_default allMatches) (param :: params) tr1
                     !! k = Some o
                /\ x = JVal o)
            \/ (false_by_default allMatches = true
                /\ exists tr1 tr2,
                    tr = tr1 ++ CursorEnd 0 :: tr2
                    /\ compiled_put_objects true (param :: params) tr1 = []
                    /\ x = JArr [])))
    /\ (forall tr r,
           Compiled.outcome (Compiled.run svc w m (OpenSuccess db :: tr)) = Rejected r ->
           exists k evt, r = EngineEvent evt /\ In (ReqError (S k) evt) tr)
    /\ (false_by_default allMatches = false ->
        forall fields inner o r,
          get_field "value" fields = Some inner ->
          assign_params (param :: params) inner = Some o ->
          Compiled.log (Compiled.run svc w m [OpenSuccess db; ReqSuccess 0 (VObj fields)])
          = [Open (Compiled.database ccfg) (Compiled.version ccfg);
             Transaction db (OneStore store) "readwrite";
             ObjectStore store; Get index; Put o]
          /\ Compiled.outcome
               (Compiled.run svc w m
                  [OpenSuccess db; ReqSuccess 0 (VObj fields); ReqSuccess 1 r; TxComplete])
             = Resolved (JVal o)
          /\ forall evt,
              Compiled.outcome
                (Compiled.run svc w m
                   [OpenSuccess db; ReqSuccess 0 (VObj fields); ReqError 1 evt])
              = Rejected (EngineEvent evt))
    /\ (false_by_default allMatches = true ->
        Compiled.outcome (Compiled.run svc w m [OpenSuccess db; CursorEnd 0; TxComplete])
        = Resolved (JArr [])).
Proof.
  intros ccfg w store index param params allMatches db Hw Hindex svc m. subst svc m.
  assert (Hpre : precheck (Compiled.updateObjectByIndex store index (param :: params)
                             allMatches) = None)
    by (simpl; rewrite Hindex; reflexivity).
  assert (Hbody : forall tx l,
             body (Compiled.updateObjectByIndex store index (param :: params) allMatches)
               w tx l
             = (inr {| Compiled.puts := []; Compiled.promiseA := Pending;
                       Compiled.promiseB := Pending; Compiled.returned := Pending |},
                l ++ [ObjectStore store;
                      if false_by_default allMatches
                      then OpenCursor index None else Get index])).
  { intros tx l. simpl. unfold bind, ret.
    rewrite !(invoke_calm _ _ _ Hw), <- app_assoc. reflexivity. }
  assert (Hinv : forall tr,
             exists s,
               Compiled.at_stage
                 (Compiled.run (Compiled.constructor ccfg) w
                    (Compiled.updateObjectByIndex store index (param :: params) allMatches)
                    (OpenSuccess db :: tr))
               = Running {| tx_db := db; tx_stores := OneStore store;
                            tx_mode := "readwrite" |} s
               /\ compiled_update_inv (false_by_default allMatches) tr s
               /\ compiled_update_pinned (false_by_default allMatches) (param :: params)
                    tr s).
  { apply (compiled_connected_invariant (Compiled.constructor ccfg) w
             (Compiled.updateObjectByIndex store index (param :: params) allMatches)
             db _ _
             (fun tr s =>
                compiled_update_inv (false_by_default allMatches) tr s
                /\ compiled_update_pinned (false_by_default allMatches) (param :: params)
                     tr s)
             Hw Hpre Hbody).
    - split.
      + unfold compiled_update_inv. simpl. repeat split; intros; discriminate.
      + split; [reflexivity | discriminate].
    - intros tr e s He [H1 H2]. split; [apply compiled_update_inv_later, H1|].
      apply compiled_update_pinned_later; [exact H2|].
      destruct e; try discriminate He; reflexivity.
    - intros tr e s l _ [H1 H2]. split; [apply compiled_update_react_inv, H1|].
      apply compiled_update_pinned_react; assumption. }
  split; [|split; [|split]].
  - intros tr x Hx. destruct (Hinv tr) as (s & Hst & (_ & _ & H3 & _ & H5) & [_ P2]).
    unfold Compiled.outcome in Hx. rewrite Hst in Hx. simpl in Hx. rewrite H5 in Hx.
    destruct (Compiled.promiseA s) as [|a|ra] eqn:HA;
      destruct (Compiled.promiseB s) as [|u|rb] eqn:HB; simpl in Hx; try discriminate.
    injection Hx as <-. split; [apply (H3 u); reflexivity|].
    apply P2. reflexivity.
  - intros tr r Hr. destruct (Hinv tr) as (s & Hst & (_ & H2 & _ & H4 & H5) & _).
    unfold Compiled.outcome in Hr. rewrite Hst in Hr. simpl in Hr. rewrite H5 in Hr.
    destruct (Compiled.promiseA s) as [|a|ra] eqn:HA;
      destruct (Compiled.promiseB s) as [|u|rb] eqn:HB; simpl in Hr; try discriminate;
      try (exfalso; eapply H4; reflexivity);
      injection Hr as <-; apply H2; reflexivity.
  - intros Hall fields inner o r Hfield Hassign.
    assert (Hone : forall l,
               Compiled.updateOne w (param :: params) inner
                 {| Compiled.puts := []; Compiled.promiseA := Pending;
                    Compiled.promiseB := Pending; Compiled.returned := Pending |} l
               = ({| Compiled.puts := [o]; Compiled.promiseA := Pending;
                     Compiled.promiseB := Pending; Compiled.returned := Pending |},
                  l ++ [Put o])).
    { intros l. unfold Compiled.updateOne. rewrite Hassign, (invoke_calm _ _ _ Hw).
      reflexivity. }
    split; [|split; [|intros evt]];
      rewrite (compiled_connected _ w _ db _ _ _ Hw Hpre Hbody);
      unfold Compiled.step, Compiled.outcome; simpl; rewrite Hall; simpl;
      rewrite Hfield; simpl; rewrite !Hone; reflexivity.
  - intros Hall. rewrite (compiled_connected _ w _ db _ _ _ Hw Hpre Hbody).
    unfold Compiled.step, Compiled.outcome. simpl. rewrite Hall. reflexivity.
Qed.

Lemma compiled_updateObjectByIndex_resolves_unwrapped_witness :
  let svc := Compiled.constructor
               {| Compiled.database := "notes"; Compiled.version := 2;
                  Compiled.onupgradeneeded := None |} in
  let m := Compiled.updateObjectByIndex "n" (VNum 1)
             [{| param_index := None; param_name := "done"; param_value := VBool true |}]
             None in
  calm calm_browser
  /\ Compiled.outcome
       (Compiled.run svc calm_browser m
          [OpenSuccess 7; ReqSuccess 0 (VObj [("value", VObj [("tag", VStr "x")])]);
           ReqSuccess 1 (VNum 1); TxComplete])
     = Resolved (JVal (VObj [("tag", VStr "x"); ("done", VBool true)]))
  /\ Compiled.outcome
       (Compiled.run svc calm_browser m
          [OpenSuccess 7; ReqSuccess 0 (VObj [("value", VObj [("tag", VStr "x")])]);
           ReqError 1 3])
     = Rejected (EngineEvent 3).
Proof.
  intros svc m.
  assert (Hcalm : calm calm_browser) by (split; [reflexivity | intros; reflexivity]).
  split; [exact Hcalm|].
  destruct (compiled_updateObjectByIndex_resolves_unwrapped
              {| Compiled.database := "notes"; Compiled.version := 2;
                 Compiled.onupgradeneeded := None |}
              calm_browser "n" (VNum 1)
              {| param_index := None; param_name := "done"; param_value := VBool true |}
              [] None 7 Hcalm eq_refl) as (_ & _ & H & _).
  destruct (H eq_refl [("value", VObj [("tag", VStr "x")])] (VObj [("tag", VStr "x")])
              (VObj [("tag", VStr "x"); ("done", VBool true)]) (VNum 1)
              eq_refl eq_refl) as (_ & H2 & H3).
  split; [exact H2 | exact (H3 3)].
Defined.

(** *** The compiled [getObjects] *)

Lemma compiled_getObjects_invariant svc w stores store params db tr :
  calm w ->
  exists s,
    Compiled.at_stage
      (Compiled.run svc w (Compiled.getObjects stores store params) (OpenSuccess db :: tr))
    = Running {| tx_db := db; tx_stores := stores; tx_mode := "readonly" |} s
    /\ res s = map (Compiled.getObjects_cast params) (visited_by tr)
    /\ (cursor_promise s = Resolved tt -> In (CursorEnd 0) tr)
    /\ (forall r, cursor_promise s = Rejected r ->
                  exists evt, r = EngineEvent evt /\ In (ReqError 0 evt) tr).
Proof.
  intros Hw.
  assert (Hbody : forall tx l,
             body (Compiled.getObjects stores store params) w tx l
             = (inr {| res := []; cursor_promise := Pending |},
                l ++ [ObjectStore store;
                      OpenCursor (Compiled.getObjects_range params)
                        (Compiled.getObjects_direction params)])).
  { intros tx l. simpl. unfold bind, ret.
    rewrite !(invoke_calm _ _ _ Hw), <- app_assoc. reflexivity. }
  apply (compiled_connected_invariant svc w (Compiled.getObjects stores store params) db
           _ _
           (fun tr s =>
              res s = map (Compiled.getObjects_cast params) (visited_by tr)
              /\ (cursor_promise s = Resolved tt -> In (CursorEnd 0) tr)
              /\ (forall r, cursor_promise s = Rejected r ->
                            exists evt, r = EngineEvent evt /\ In (ReqError 0 evt) tr))
           Hw eq_refl Hbody).
  - simpl. split; [reflexivity|]. split; [discriminate|]. intros r. discriminate.
  - intros tr0 e s He (H1 & H2 & H3). rewrite visited_by_snoc.
    split; [|split].
    + destruct e; try discriminate He; rewrite app_nil_r; exact H1.
    + intros Hs. apply in_app_iff. auto.
    + intros r Hr. destruct (H3 r Hr) as (evt & -> & Hin).
      exists evt. split; [reflexivity|]. apply in_app_iff. auto.
  - intros tr0 e s l He (H1 & H2 & H3). rewrite visited_by_snoc.
    assert (Hsame : res s = map (Compiled.getObjects_cast params) (visited_by tr0 ++ [])
                    /\ (cursor_promise s = Resolved tt -> In (CursorEnd 0) (tr0 ++ [e]))
                    /\ (forall r, cursor_promise s = Rejected r ->
                                  exists evt, r = EngineEvent evt
                                              /\ In (ReqError 0 evt) (tr0 ++ [e]))).
    { rewrite app_nil_r. split; [exact H1|]. split.
      - intros Hs. apply in_app_iff. auto.
      - intros r Hr. destruct (H3 r Hr) as (evt & -> & Hin).
        exists evt. split; [reflexivity|]. apply in_app_iff. auto. }
    destruct Hsame as (S1 & S2 & S3).
    unfold react. simpl.
    destruct e as [| | | | | | | |[|k] v|[|k]|[|k] evt]; simpl;
      try (split; [|split]; assumption).
    + split; [|split; assumption].
      rewrite H1, map_app. reflexivity.
    + split; [exact S1|]. split.
      * intros _. apply in_app_iff. right. left. reflexivity.
      * intros r. destruct (cursor_promise s) as [| |r0] eqn:Hc; simpl; try discriminate.
        intros [= <-]. apply S3. reflexivity.
    + split; [exact S1|]. split.
      * destruct (cursor_promise s); simpl; [discriminate|exact S2|discriminate].
      * intros r. destruct (cursor_promise s) as [| |r0] eqn:Hc; simpl.
        -- intros [= <-]. exists evt. split; [reflexivity|].
           apply in_app_iff. right. left. reflexivity.
        -- discriminate.
        -- intros [= <-]. apply S3. reflexivity.
Qed.

(** In the compiled [getObjects] everything comes from the one optional
    [params].  Left out, the cursor is opened over the whole store in the
    default direction and the values are returned as they are; given, it is
    opened over [params.values], backwards exactly when [params.reverse]
    holds, and the values go through [params.castOp] when there is one.  On
    any events after the connection the promise is resolved only once the
    cursor has reported its end, with the values of the records the cursor
    was on, in that order, and rejected only with an error event of the
    cursor request. *)
Theorem compiled_getObjects_collects :
  forall (ccfg : Compiled.IDBServiceConfig) (w : browser) (stores : scope)
         (store : string) (params : option Compiled.GetParams) (db : handle),
    calm w ->
    let svc := Compiled.constructor ccfg in
    let m := Compiled.getObjects stores store params in
    Compiled.log (Compiled.run svc w m [OpenSuccess db])
    = [Open (Compiled.database ccfg) (Compiled.version ccfg);
       Transaction db stores "readonly"; ObjectStore store;
       match params with
       | None => OpenCursor VUndefined None
       | Some p =>
           OpenCursor (Compiled.values p)
             (if false_by_default (Compiled.reverse p) then Some prev else None)
       end]
    /\ (forall tr x,
           Compiled.outcome (Compiled.run svc w m (OpenSuccess db :: tr)) = Resolved x ->
           In (CursorEnd 0) tr
           /\ x = array_of
                    (map match params with
                         | None => fun v => v
                         | Some p => cast_or_default (Compiled.castOp p)
                         end (visited_by tr)))
    /\ (forall tr r,
           Compiled.outcome (Compiled.run svc w m (OpenSuccess db :: tr)) = Rejected r ->
           exists evt, r = EngineEvent evt /\ In (ReqError 0 evt) tr)
    /\ (forall visited,
           Compiled.outcome
             (Compiled.run svc w m (OpenSuccess db :: map (CursorAt 0) visited ++ [CursorEnd 0]))
           = Resolved
               (array_of
                  (map match params with
                       | None => fun v => v
                       | Some p => cast_or_default (Compiled.castOp p)
                       end visited)))
    /\ (params = None ->
        Compiled.log (Compiled.run svc w m [OpenSuccess db])
        = [Open (Compiled.database ccfg) (Compiled.version ccfg);
           Transaction db stores "readonly"; ObjectStore store;
           OpenCursor VUndefined None]
        /\ forall visited,
            Compiled.outcome
              (Compiled.run svc w m
                 (OpenSuccess db :: map (CursorAt 0) visited ++ [CursorEnd 0]))
            = Resolved (array_of visited))
    /\ (forall p,
           params = Some p ->
           (Compiled.reverse p = Some true ->
            Compiled.log (Compiled.run svc w m [OpenSuccess db])
            = [Open (Compiled.database ccfg) (Compiled.version ccfg);
               Transaction db stores "readonly"; ObjectStore store;
               OpenCursor (Compiled.values p) (Some prev)])
           /\ (Compiled.reverse p = Some false \/ Compiled.reverse p = None ->
               Compiled.log (Compiled.run svc w m [OpenSuccess db])
               = [Open (Compiled.database ccfg) (Compiled.version ccfg);
                  Transaction db stores "readonly"; ObjectStore store;
                  OpenCursor (Compiled.values p) None])
           /\ (Compiled.castOp p = None ->
               forall visited,
                 Compiled.outcome
                   (Compiled.run svc w m
                      (OpenSuccess db :: map (CursorAt 0) visited ++ [CursorEnd 0]))
                 = Resolved (array_of visited))
           /\ (forall f,
                  Compiled.castOp p = Some f ->
                  forall visited,
                    Compiled.outcome
                      (Compiled.run svc w m
                         (OpenSuccess db :: map (CursorAt 0) visited ++ [CursorEnd 0]))
                    = Resolved (array_of (map f visited)))).
Proof.
  intros ccfg w stores store params db Hw svc m. subst svc m.
  assert (Hcast : Compiled.getObjects_cast params
                  = match params with
                    | None => fun v => v
                    | Some p => cast_or_default (Compiled.castOp p)
                    end)
    by (destruct params; reflexivity).
  assert (Hbody : forall tx l,
             body (Compiled.getObjects stores store params) w tx l
             = (inr {| res := []; cursor_promise := Pending |},
                l ++ [ObjectStore store;
                      OpenCursor (Compiled.getObjects_range params)
                        (Compiled.getObjects_direction params)])).
  { intros tx l. simpl. unfold bind, ret.
    rewrite !(invoke_calm _ _ _ Hw), <- app_assoc. reflexivity. }
  assert (Hres : forall tr x,
             Compiled.outcome
               (Compiled.run (Compiled.constructor ccfg) w
                  (Compiled.getObjects stores store params) (OpenSuccess db :: tr))
             = Resolved x ->
             In (CursorEnd 0) tr
             /\ x = array_of (map (Compiled.getObjects_cast params) (visited_by tr))).
  { intros tr x Hx.
    destruct (compiled_getObjects_invariant (Compiled.constructor ccfg) w stores store
                params db tr Hw) as (s & Hst & H1 & H2 & _).
    unfold Compiled.outcome in Hx. rewrite Hst in Hx. simpl in Hx.
    unfold cursor_settled in Hx.
    destruct (cursor_promise s) as [|[]|r]; simpl in Hx; try discriminate.
    injection Hx as <-. split; [auto|]. rewrite H1. reflexivity. }
  rewrite <- Hcast.
  assert (Hlog : Compiled.log
                   (Compiled.run (Compiled.constructor ccfg) w
                      (Compiled.getObjects stores store params) [OpenSuccess db])
                 = [Open (Compiled.database ccfg) (Compiled.version ccfg);
                    Transaction db stores "readonly"; ObjectStore store;
                    match params with
                    | None => OpenCursor VUndefined None
                    | Some p =>
                        OpenCursor (Compiled.values p)
                          (if false_by_default (Compiled.reverse p)
                           then Some prev else None)
                    end]).
  { rewrite (compiled_connected _ w (Compiled.getObjects stores store params) db _ _ []
               Hw eq_refl Hbody).
    destruct params; reflexivity. }
  assert (Hend : forall visited,
             Compiled.outcome
               (Compiled.run (Compiled.constructor ccfg) w
                  (Compiled.getObjects stores store params)
                  (OpenSuccess db :: map (CursorAt 0) visited ++ [CursorEnd 0]))
             = Resolved (array_of (map (Compiled.getObjects_cast params) visited))).
  { intros visited.
    destruct (compiled_getObjects_invariant (Compiled.constructor ccfg) w stores store
                params db (map (CursorAt 0) visited) Hw) as (s & Hst & H1 & H2 & H3).
    rewrite visited_by_cursor in H1.
    assert (Hp : cursor_promise s = Pending).
    { destruct (cursor_promise s) as [|[]|r] eqn:Hc; [reflexivity| |].
      - specialize (H2 eq_refl). apply in_map_iff in H2.
        destruct H2 as (v & Hv & _). discriminate Hv.
      - destruct (H3 r eq_refl) as (evt & _ & Hin). apply in_map_iff in Hin.
        destruct Hin as (v & Hv & _). discriminate Hv. }
    rewrite app_comm_cons, compiled_run_snoc.
    rewrite (compiled_step_running _ _ _ _ _ _ (CursorEnd 0) Hst eq_refl).
    unfold Compiled.outcome, react. simpl. unfold cursor_settled. simpl.
    rewrite Hp, H1. reflexivity. }
  split; [exact Hlog|]. split; [exact Hres|]. split; [|split; [exact Hend|split]].
  3:{ intros p ->. split; [|split; [|split]].
      - intros Hrev. rewrite Hlog, Hrev. reflexivity.
      - intros [Hrev|Hrev]; rewrite Hlog, Hrev; reflexivity.
      - intros Hc visited. rewrite Hend. simpl. rewrite Hc. simpl.
        unfold cast. rewrite map_id. reflexivity.
      - intros f Hc visited. rewrite Hend. simpl. rewrite Hc. reflexivity. }
  2:{ intros ->. split; [exact Hlog|]. intros visited. rewrite Hend. simpl.
      unfold cast. rewrite map_id. reflexivity. }
  - intros tr r Hr.
    destruct (compiled_getObjects_invariant (Compiled.constructor ccfg) w stores store
                params db tr Hw) as (s & Hst & _ & _ & H3).
    unfold Compiled.outcome in Hr. rewrite Hst in Hr. simpl in Hr.
    unfold cursor_settled in Hr.
    destruct (cursor_promise s) as [|[]|r0]; simpl in Hr; try discriminate.
    injection Hr as <-. apply H3. reflexivity.
Qed.

Lemma compiled_getObjects_collects_witness :
  let svc := Compiled.constructor
               {| Compiled.database := "notes"; Compiled.version := 2;
                  Compiled.onupgradeneeded := None |} in
  calm calm_browser
  /\ Compiled.log (Compiled.run svc calm_browser (Compiled.getObjects (OneStore "n") "n" None)
                     [OpenSuccess 7])
     = [Open "notes" 2; Transaction 7 (OneStore "n") "readonly"; ObjectStore "n";
        OpenCursor VUndefined None]
  /\ Compiled.outcome
       (Compiled.run svc calm_browser (Compiled.getObjects (OneStore "n") "n" None)
          (OpenSuccess 7 :: map (CursorAt 0) [VNum 1; VNum 2] ++ [CursorEnd 0]))
     = Resolved (array_of [VNum 1; VNum 2])
  /\ (let params := Some {| Compiled.reverse := Some true; Compiled.values := VNum 5;
                            Compiled.castOp := Some (fun v => VObj [("row", v)]) |} in
      Compiled.log (Compiled.run svc calm_browser
                      (Compiled.getObjects (OneStore "n") "n" params) [OpenSuccess 7])
      = [Open "notes" 2; Transaction 7 (OneStore "n") "readonly"; ObjectStore "n";
         OpenCursor (VNum 5) (Some prev)]
      /\ Compiled.outcome
           (Compiled.run svc calm_browser (Compiled.getObjects (OneStore "n") "n" params)
              (OpenSuccess 7 :: map (CursorAt 0) [VNum 2; VNum 1] ++ [CursorEnd 0]))
         = Resolved (array_of [VObj [("row", VNum 2)]; VObj [("row", VNum 1)]])).
Proof.
  intros svc.
  assert (Hcalm : calm calm_browser) by (split; [reflexivity | intros; reflexivity]).
  split; [exact Hcalm|].
  destruct (compiled_getObjects_collects
              {| Compiled.database := "notes"; Compiled.version := 2;
                 Compiled.onupgradeneeded := None |}
              calm_browser (OneStore "n") "n" None 7 Hcalm) as (H1 & _ & _ & H4 & _).
  split; [exact H1|]. split; [exact (H4 [VNum 1; VNum 2])|].
  intros params.
  destruct (compiled_getObjects_collects
              {| Compiled.database := "notes"; Compiled.version := 2;
                 Compiled.onupgradeneeded := None |}
              calm_browser (OneStore "n") "n" params 7 Hcalm) as (_ & _ & _ & _ & _ & H6).
  destruct (H6 _ eq_refl) as (Hprev & _ & _ & Hcast).
  split; [exact (Hprev eq_refl) | exact (Hcast _ eq_refl [VNum 2; VNum 1])].
Defined.
